(** * rar2fs: nested-archive recursion guards, directory lists and alias checks

    A shallow embedding of the security-relevant parts of rar2fs
    (recursion.c with recursion.h, dirlist.c, rarconfig.c) together with the
    properties stated for them.

    Conventions of the embedding.
    - C integers are [Z]; every arithmetic operation of the source is written
      with the wrap-around of its C type ([int] 32 bit, [off_t], [time_t] and
      [long] 64 bit signed, [size_t] and [uint64_t] 64 bit unsigned: LP64).
    - A C string is the list of its characters before the terminating NUL.
    - A struct that a function updates through a pointer is passed in and
      returned (state passing): the NULL test on that pointer has no
      counterpart.  A pointer argument that is only read is an [option],
      [None] for NULL.
    - malloc, realloc and strdup may fail: every allocation site takes its
      outcome from the caller, as a [bool] or from an [alloc_script].
    - What the sources at hand do not contain (optdb.h, dirlist.h, hash.h,
      dirname.h) enters as a parameter. *)

From Stdlib Require Import ZArith List Ascii String Bool Lia.
From Stdlib Require Import Permutation Sorted.
From Stdlib Require Strings.Byte.
From stdpp Require Import base list.

Local Open Scope Z_scope.

(** ** Machine integers *)

Module CInt.

Definition wrap_unsigned (bits z : Z) : Z := z mod 2 ^ bits.
Definition wrap_signed (bits z : Z) : Z :=
  (z + 2 ^ (bits - 1)) mod 2 ^ bits - 2 ^ (bits - 1).

(** [int] *)
Definition int32 (z : Z) : Z := wrap_signed 32 z.
(** [off_t], [time_t], [long] *)
Definition int64 (z : Z) : Z := wrap_signed 64 z.
(** [size_t], [uint64_t] *)
Definition uint64 (z : Z) : Z := wrap_unsigned 64 z.
(** [uint32_t] *)
Definition uint32 (z : Z) : Z := wrap_unsigned 32 z.

Definition INT_MAX : Z := 2 ^ 31 - 1.
Definition OFF_MAX : Z := 2 ^ 63 - 1.
Definition OFF_MIN : Z := - 2 ^ 63.
Definition LONG_MAX : Z := 2 ^ 63 - 1.

Definition in_int (z : Z) : Prop := - 2 ^ 31 <= z <= INT_MAX.
Definition in_off_t (z : Z) : Prop := OFF_MIN <= z <= OFF_MAX.
Definition in_uint64 (z : Z) : Prop := 0 <= z < 2 ^ 64.

End CInt.
Import CInt.

(** errno.h (Linux) *)
Definition ENOMEM : Z := 12.
Definition EINVAL : Z := 22.
Definition EFBIG : Z := 27.
Definition ELOOP : Z := 40.

(** ** C strings *)

Definition cstring := list ascii.

(** a string literal as a C string *)
Definition cstr (s : string) : cstring := list_ascii_of_string s.

(** a [char] read as [unsigned char] *)
Definition uchar (c : ascii) : Z := Z.of_N (N_of_ascii c).

(** ** recursion.h *)

Definition MAX_RECURSION_DEPTH : Z := 10.
Definition DEFAULT_MAX_RECURSION_DEPTH : Z := 5.
Definition FNV_64_PRIME : Z := 0x100000001b3.
Definition FNV_64_OFFSET_BASIS : Z := 0xcbf29ce484222325.
Definition FINGERPRINT_CHUNK_SIZE : Z := 4096.
Definition MAX_NESTED_PATH_LENGTH : Z := 4096.

Record archive_fingerprint := mk_fingerprint {
  fp_hash : Z;   (* uint64_t hash *)
  fp_size : Z;   (* off_t size *)
  fp_mtime : Z   (* time_t mtime *)
}.

(** [struct archive_fingerprint fp = {0}] and the result of the [memset]s. *)
Definition fp_zero : archive_fingerprint := mk_fingerprint 0 0 0.

Record timespec := mk_timespec { tv_sec : Z; tv_nsec : Z }.

Record recursion_context := mk_context {
  depth : Z;
  max_depth : Z;
  visited : list archive_fingerprint;          (* [MAX_RECURSION_DEPTH] slots *)
  archive_chain : list (option cstring);       (* [MAX_RECURSION_DEPTH] slots *)
  total_unpacked_size : Z;
  max_unpacked_size : Z;
  start_time : timespec
}.

Definition set_depth (d : Z) (c : recursion_context) : recursion_context :=
  mk_context d (max_depth c) (visited c) (archive_chain c)
             (total_unpacked_size c) (max_unpacked_size c) (start_time c).
Definition set_visited (i : Z) (f : archive_fingerprint) (c : recursion_context)
  : recursion_context :=
  mk_context (depth c) (max_depth c) (<[Z.to_nat i := f]> (visited c))
             (archive_chain c) (total_unpacked_size c) (max_unpacked_size c)
             (start_time c).
Definition set_archive_chain (i : Z) (p : option cstring)
  (c : recursion_context) : recursion_context :=
  mk_context (depth c) (max_depth c) (visited c)
             (<[Z.to_nat i := p]> (archive_chain c))
             (total_unpacked_size c) (max_unpacked_size c) (start_time c).
Definition set_total_unpacked_size (t : Z) (c : recursion_context)
  : recursion_context :=
  mk_context (depth c) (max_depth c) (visited c) (archive_chain c)
             t (max_unpacked_size c) (start_time c).

(** [ctx->visited[i]] *)
Definition visited_at (c : recursion_context) (i : Z) : archive_fingerprint :=
  default fp_zero (visited c !! Z.to_nat i).

(** The two options [recursion_context_init] reads from the option
    registry (optdb.h is not part of the sources at hand): [Some v] stands
    for [OPT_SET(key)] with [OPT_INT(key, 0) = v], [None] for an option that
    is not set. *)
Record optdb := mk_optdb {
  opt_recursion_depth : option Z;
  opt_max_unpack_size : option Z
}.

(** ** recursion.c: context management *)

(** [recursion_context_init]: the [memset] clears the whole structure, so the
    initialised context depends only on the options and on the clock. *)
Definition recursion_context_init (opts : optdb) (now : timespec)
  : recursion_context :=
  let max_d :=
    match opt_recursion_depth opts with
    | Some v =>
        let configured := int32 v in
        if (1 <=? configured) && (configured <=? MAX_RECURSION_DEPTH)
        then configured else DEFAULT_MAX_RECURSION_DEPTH
    | None => DEFAULT_MAX_RECURSION_DEPTH
    end in
  let max_s :=
    match opt_max_unpack_size opts with
    | Some v =>
        let configured := int64 v in
        if 0 <? configured then configured else 10 * 1024 * 1024 * 1024
    | None => 10 * 1024 * 1024 * 1024
    end in
  mk_context 0 max_d
             (replicate (Z.to_nat MAX_RECURSION_DEPTH) fp_zero)
             (replicate (Z.to_nat MAX_RECURSION_DEPTH) None)
             0 max_s now.

Definition fingerprint_match (v fp : archive_fingerprint) : bool :=
  (fp_hash v =? fp_hash fp) && (fp_size v =? fp_size fp)
  && (fp_mtime v =? fp_mtime fp).

(** The [for (i = 0; i < ctx->depth; i++)] loop of [is_cycle_detected];
    [n] is the number of iterations left. *)
Fixpoint cycle_loop (n : nat) (i : Z) (c : recursion_context)
  (fp : archive_fingerprint) : bool :=
  match n with
  | O => false
  | S n' =>
      if fingerprint_match (visited_at c i) fp then true
      else cycle_loop n' (int32 (i + 1)) c fp
  end.

Definition is_cycle_detected (ctx : option recursion_context)
  (fp : option archive_fingerprint) : bool :=
  match ctx, fp with
  | Some c, Some f => cycle_loop (Z.to_nat (depth c)) 0 c f
  | _, _ => true   (* fail-secure: treat as cycle *)
  end.

(** [recursion_push_archive]; [strdup_ok] is the outcome of the [strdup] of
    the archive path.  Returns the status and the updated context. *)
Definition recursion_push_archive (c : recursion_context)
  (fp : option archive_fingerprint) (archive_path : option cstring)
  (strdup_ok : bool) : Z * recursion_context :=
  match fp with
  | None => (- EINVAL, c)
  | Some f =>
      if depth c >=? max_depth c then (- ELOOP, c)
      else if depth c >=? MAX_RECURSION_DEPTH then (- ELOOP, c)
      else
        let c1 := set_visited (depth c) f c in
        match archive_path with
        | Some p =>
            if strdup_ok
            then (0, set_depth (int32 (depth c + 1))
                       (set_archive_chain (depth c) (Some p) c1))
            else (- ENOMEM, set_archive_chain (depth c) None c1)
        | None => (0, set_depth (int32 (depth c + 1)) c1)
        end
  end.

Definition recursion_pop_archive (c : recursion_context) : recursion_context :=
  if depth c <=? 0 then c
  else
    let c1 := set_depth (int32 (depth c - 1)) c in
    let c2 := set_visited (depth c1) fp_zero c1 in
    set_archive_chain (depth c2) None c2.

(** [check_unpack_size_limit] *)
Definition check_unpack_size_limit (c : recursion_context) (archive_size : Z)
  : Z * recursion_context :=
  if archive_size <? 0 then (- EINVAL, c)
  else if total_unpacked_size c >? int64 (max_unpacked_size c - archive_size)
  then (- EFBIG, c)
  else (0, set_total_unpacked_size
             (int64 (total_unpacked_size c + archive_size)) c).

(** ** recursion.c: fingerprints *)

(** Raw archive data is a list of bytes; [p[i]] as an [unsigned char]. *)
Definition byte_val (b : Byte.byte) : Z := Z.of_N (Byte.to_N b).
Definition byte_at (p : list Byte.byte) (i : Z) : Z :=
  match p !! Z.to_nat i with
  | Some b => byte_val b
  | None => 0
  end.

(** The [for (i = 0; i < len; i++)] loop of [fnv1a_hash_64]. *)
Fixpoint fnv1a_loop (n : nat) (i : Z) (p : list Byte.byte) (hash : Z) : Z :=
  match n with
  | O => hash
  | S n' =>
      let hash1 := Z.lxor hash (byte_at p i) in
      let hash2 := uint64 (hash1 * FNV_64_PRIME) in
      fnv1a_loop n' (uint64 (i + 1)) p hash2
  end.

Definition fnv1a_hash_64 (data : list Byte.byte) (len : Z) : Z :=
  fnv1a_loop (Z.to_nat len) 0 data FNV_64_OFFSET_BASIS.

(** [fnv1a_hash_64(&combined, sizeof(combined))] hashes the object
    representation of a [uint64_t]; its byte order is the machine's. *)
Inductive byte_order := LittleEndian | BigEndian.

Definition byte_of_Z (z : Z) : Byte.byte :=
  default Byte.x00 (Byte.of_N (Z.to_N (z mod 256))).

Definition uint64_bytes (bo : byte_order) (x : Z) : list Byte.byte :=
  let le := map (fun k => byte_of_Z (Z.shiftr x (8 * k))) [0; 1; 2; 3; 4; 5; 6; 7] in
  match bo with
  | LittleEndian => le
  | BigEndian => rev le
  end.

Definition compute_archive_fingerprint (bo : byte_order)
  (rar_data : option (list Byte.byte)) (rar_size : Z) (mtime : Z)
  : archive_fingerprint :=
  match rar_data with
  | None => fp_zero
  | Some data =>
      if rar_size =? 0 then fp_zero
      else
        let first_chunk_size :=
          if rar_size <? FINGERPRINT_CHUNK_SIZE
          then rar_size else FINGERPRINT_CHUNK_SIZE in
        let hash1 := fnv1a_hash_64 data first_chunk_size in
        let hash2 :=
          if rar_size >? FINGERPRINT_CHUNK_SIZE
          then
            let last_chunk :=
              drop (Z.to_nat (rar_size - FINGERPRINT_CHUNK_SIZE)) data in
            fnv1a_hash_64 last_chunk FINGERPRINT_CHUNK_SIZE
          else 0 in
        let combined := Z.lxor hash1 hash2 in
        mk_fingerprint (fnv1a_hash_64 (uint64_bytes bo combined) 8)
                       (int64 rar_size) mtime
  end.

(** FNV-1a as it is usually defined, over a whole byte string: the
    reference the loop above is compared with. *)
Definition fnv1a_step (h : Z) (b : Byte.byte) : Z :=
  (Z.lxor h (byte_val b) * FNV_64_PRIME) mod 2 ^ 64.
Definition fnv1a_reference (bytes : list Byte.byte) : Z :=
  fold_left fnv1a_step bytes FNV_64_OFFSET_BASIS.

(** The last [n] bytes of a buffer. *)
Definition last_bytes (n : nat) (data : list Byte.byte) : list Byte.byte :=
  rev (take n (rev data)).

(** The number whose base-256 digits, least significant first, are the
    given bytes. *)
Definition le_value (bytes : list Byte.byte) : Z :=
  fold_right (fun b acc => byte_val b + 256 * acc) 0 bytes.

(** The value an 8-byte object holds as a [uint64_t]. *)
Definition uint64_of_bytes (bo : byte_order) (bytes : list Byte.byte) : Z :=
  match bo with
  | LittleEndian => le_value bytes
  | BigEndian => le_value (rev bytes)
  end.

(** ** recursion.c: extraction to memory *)

Definition UCM_PROCESSDATA : Z := 1.
Definition ONE_GIB : Z := 1024 * 1024 * 1024.

Record extract_buffer := mk_buffer {
  buf_data : list Byte.byte;   (* the [size] bytes written so far *)
  buf_size : Z;
  buf_capacity : Z;
  buf_error : Z
}.

(** the state [free_extract_buffer] leaves behind, also the initial one *)
Definition empty_buffer : extract_buffer := mk_buffer [] 0 0 0.

Definition free_extract_buffer (b : extract_buffer) : extract_buffer :=
  mk_buffer [] 0 0 0.

Definition set_buf_error (e : Z) (b : extract_buffer) : extract_buffer :=
  mk_buffer (buf_data b) (buf_size b) (buf_capacity b) e.
Definition set_buf_capacity (c : Z) (b : extract_buffer) : extract_buffer :=
  mk_buffer (buf_data b) (buf_size b) c (buf_error b).

(** [memcpy(buf->data + buf->size, chunk_data, chunk_size);
     buf->size += chunk_size] *)
Definition copy_chunk (chunk : list Byte.byte) (chunk_size : Z)
  (b : extract_buffer) : extract_buffer :=
  mk_buffer (buf_data b ++ take (Z.to_nat chunk_size) chunk)
            (uint64 (buf_size b + chunk_size))
            (buf_capacity b) (buf_error b).

(** [extract_to_memory_callback(msg, UserData, P1, P2)]: [P1] is the chunk
    the library points at ([None] for a NULL pointer), [P2] its size as a
    [long], [realloc_ok] the outcome of the [realloc] if one is made. *)
Definition extract_to_memory_callback (msg : Z) (buf : extract_buffer)
  (P1 : option (list Byte.byte)) (P2 : Z) (realloc_ok : bool)
  : Z * extract_buffer :=
  if negb (msg =? UCM_PROCESSDATA) then (1, buf)
  else if negb (buf_error buf =? 0) then (-1, buf)
  else
    let chunk_size := uint64 P2 in
    match P1 with
    | None => (1, buf)
    | Some chunk_data =>
        if chunk_size =? 0 then (1, buf)
        else if uint64 (buf_size buf + chunk_size) >? buf_capacity buf then
          let new_capacity := uint64 (buf_capacity buf * 2) in
          let new_capacity :=
            if new_capacity <? uint64 (buf_size buf + chunk_size)
            then uint64 (buf_size buf + chunk_size) else new_capacity in
          if new_capacity >? ONE_GIB then (-1, set_buf_error 1 buf)
          else if negb realloc_ok then (-1, set_buf_error 1 buf)
          else (1, copy_chunk chunk_data chunk_size
                     (set_buf_capacity new_capacity buf))
        else (1, copy_chunk chunk_data chunk_size buf)
    end.

(** One invocation of the callback by the decoder. *)
Record callback_call := mk_call {
  call_msg : Z;
  call_P1 : option (list Byte.byte);
  call_P2 : Z;
  call_realloc_ok : bool
}.

Definition run_call (b : extract_buffer) (c : callback_call)
  : Z * extract_buffer :=
  extract_to_memory_callback (call_msg c) b (call_P1 c) (call_P2 c)
                             (call_realloc_ok c).

(** The buffer after a sequence of invocations (the decoder stops calling
    after a [-1], but the callback tolerates further calls). *)
Definition run_calls (b : extract_buffer) (cs : list callback_call)
  : extract_buffer :=
  fold_left (fun b c => snd (run_call b c)) cs b.

(** A data chunk handed over by the decoder: [P2] is the number of bytes
    behind [P1]. *)
Definition chunk_wf (c : callback_call) : Prop :=
  match call_P1 c with
  | Some d => call_P2 c = Z.of_nat (length d) /\ call_P2 c <= LONG_MAX
  | None => True
  end.

(** The capacity the callback asks [realloc] for when the chunk does not
    fit, as an integer. *)
Definition grown_capacity (b : extract_buffer) (chunk_size : Z) : Z :=
  Z.max (buf_capacity b * 2) (buf_size b + chunk_size).

Definition buffer_wf (b : extract_buffer) : Prop :=
  buf_size b = Z.of_nat (length (buf_data b)) /\
  buf_size b <= buf_capacity b <= ONE_GIB.

(** ** recursion.c: path sanitization *)

Definition is_slash (c : ascii) : bool := Ascii.eqb c "/".
Definition is_backslash (c : ascii) : bool := Ascii.eqb c "\".
Definition is_dot (c : ascii) : bool := Ascii.eqb c ".".

(** [isalpha] in the C locale *)
Definition isalpha (c : Z) : bool :=
  ((65 <=? c) && (c <=? 90)) || ((97 <=? c) && (c <=? 122)).

(** [strlen] *)
Definition strlen (s : cstring) : Z := Z.of_nat (length s).

Definition is_absolute_path (path : option cstring) : bool :=
  match path with
  | None | Some [] => false
  | Some (c :: _) => is_slash c || is_backslash c
  end.

Definition is_windows_absolute_path (path : option cstring) : bool :=
  match path with
  | None => false
  | Some s =>
      if strlen s <? 3 then false
      else
        match s with
        | c0 :: c1 :: c2 :: _ =>
            isalpha (uchar c0) && Ascii.eqb c1 ":"
            && (is_backslash c2 || is_slash c2)
        | _ => false
        end
  end.

(** [src[0] == '.' && src[1] == '.' &&
     (src[2] == '/' || src[2] == '\\' || src[2] == '\0')] *)
Definition dotdot_here (src : cstring) : bool :=
  match src with
  | c0 :: c1 :: rest =>
      is_dot c0 && is_dot c1
      && match rest with
         | [] => true
         | c2 :: _ => is_slash c2 || is_backslash c2
         end
  | _ => false
  end.

(** The [while ( *src)] loop of [strip_dotdot_components]: the characters
    written through [dst]. *)
Fixpoint strip_scan (src : cstring) : cstring :=
  match src with
  | [] => []
  | c0 :: t1 =>
      if dotdot_here src then
        (* src += 2; if ( *src == '/' || *src == '\\') src++; continue; *)
        match t1 with
        | [] => []
        | _ :: t2 =>
            match t2 with
            | [] => []
            | c2 :: t3 =>
                if is_slash c2 || is_backslash c2 then strip_scan t3
                else strip_scan t2
            end
        end
      else c0 :: strip_scan t1
  end.

(** [result[0] == '.' && result[1] == '.' &&
     (result[2] == '/' || result[2] == '\0')] *)
Definition leading_dotdot (result : cstring) : bool :=
  match result with
  | c0 :: c1 :: rest =>
      is_dot c0 && is_dot c1
      && match rest with
         | [] => true
         | c2 :: _ => is_slash c2
         end
  | _ => false
  end.

Definition strip_dotdot_components (path : option cstring) (malloc_ok : bool)
  : option cstring :=
  match path with
  | None => None
  | Some s =>
      if negb malloc_ok then None
      else
        let result := strip_scan s in
        if leading_dotdot result then None else Some result
  end.

(** [bytes[k]] for a pointer [bytes] into the string: the terminator is
    read at its end. *)
Definition peek (bytes : cstring) (k : nat) : Z :=
  match bytes !! k with
  | Some c => uchar c
  | None => 0
  end.

(** The [while ( *bytes)] loop of [is_valid_utf8].  The [bytes += k] steps
    are matches on the tail; their second branches are never taken, since a
    continuation byte was seen at each skipped position. *)
Fixpoint utf8_loop (bytes : cstring) : bool :=
  match bytes with
  | [] => true
  | b0 :: t1 =>
      let c := uchar b0 in
      if Z.land c 0x80 =? 0 then utf8_loop t1
      else if Z.land c 0xE0 =? 0xC0 then
        if negb (Z.land (peek bytes 1) 0xC0 =? 0x80) then false
        else if Z.land c 0xFE =? 0xC0 then false
        else match t1 with
             | _ :: t2 => utf8_loop t2
             | _ => false
             end
      else if Z.land c 0xF0 =? 0xE0 then
        if negb (Z.land (peek bytes 1) 0xC0 =? 0x80)
           || negb (Z.land (peek bytes 2) 0xC0 =? 0x80) then false
        else if (c =? 0xE0) && (Z.land (peek bytes 1) 0xE0 =? 0x80) then false
        else match t1 with
             | _ :: _ :: t3 => utf8_loop t3
             | _ => false
             end
      else if Z.land c 0xF8 =? 0xF0 then
        if negb (Z.land (peek bytes 1) 0xC0 =? 0x80)
           || negb (Z.land (peek bytes 2) 0xC0 =? 0x80)
           || negb (Z.land (peek bytes 3) 0xC0 =? 0x80) then false
        else if (c =? 0xF0) && (Z.land (peek bytes 1) 0xF0 =? 0x80) then false
        else if c >? 0xF4 then false
        else match t1 with
             | _ :: _ :: _ :: t4 => utf8_loop t4
             | _ => false
             end
      else false
  end.

Definition is_valid_utf8 (path : option cstring) : bool :=
  match path with
  | None => false
  | Some s => utf8_loop s
  end.

(** The [for] loop turning every backslash into a slash. *)
Definition normalize_slashes (s : cstring) : cstring :=
  map (fun c => if is_backslash c then "/"%char else c) s.

(** [sanitize_nested_path]; [strdup_ok] is the outcome of the [strdup] of
    the path, [malloc_ok] that of the [malloc] in
    [strip_dotdot_components]. *)
Definition sanitize_nested_path (path : option cstring)
  (strdup_ok malloc_ok : bool) : option cstring :=
  match path with
  | None => None
  | Some s =>
      let len := strlen s in
      if len =? 0 then None
      else if len >? MAX_NESTED_PATH_LENGTH then None
      else if is_absolute_path path then None
      else if is_windows_absolute_path path then None
      else if negb (is_valid_utf8 path) then None
      else if negb strdup_ok then None
      else
        let normalized := normalize_slashes s in
        match strip_dotdot_components (Some normalized) malloc_ok with
        | None => None
        | Some sanitized =>
            match sanitized with
            | [] => None
            | _ => Some sanitized
            end
        end
  end.

(** ** String comparison *)

(** [strcmp]: the difference of the first pair of differing characters, read
    as [unsigned char]; a NUL ends both strings. *)
Fixpoint strcmp (a b : cstring) : Z :=
  match a, b with
  | [], [] => 0
  | [], d :: _ => 0 - uchar d
  | c :: _, [] => uchar c - 0
  | c :: a', d :: b' =>
      if uchar c =? uchar d
      then (if uchar c =? 0 then 0 else strcmp a' b')
      else uchar c - uchar d
  end.

(** ** Allocation outcomes *)

(** The outcomes of the successive allocation requests of one call; once
    the script is used up every request is granted. *)
Definition alloc_script := list bool.

Definition all_granted (m : alloc_script) : Prop := Forall (fun b => b = true) m.

(** Computations that request memory and may run out of loop fuel. *)
Module Alloc.

Definition M (A : Type) : Type := alloc_script -> option (A * alloc_script).

Definition ret {A} (x : A) : M A := fun m => Some (x, m).
Definition bind {A B} (c : M A) (k : A -> M B) : M B :=
  fun m => match c m with
           | Some (x, m') => k x m'
           | None => None
           end.
(** out of fuel *)
Definition stuck {A} : M A := fun _ => None.
(** one allocation request: [true] when it is granted *)
Definition request : M bool :=
  fun m => match m with
           | [] => Some (true, [])
           | b :: m' => Some (b, m')
           end.

End Alloc.

Notation "'let*' x ':=' c 'in' k" := (Alloc.bind c (fun x => k))
  (at level 10, x name, c at level 100, k at level 200).

(** ** dirlist.c *)

Record dir_entry := mk_dir_entry {
  entry_name : cstring;
  entry_hash : Z;    (* uint32_t *)
  entry_st : Z;      (* struct stat *, as an address *)
  entry_type : Z;    (* int *)
  entry_valid : Z    (* int *)
}.

Definition set_entry_valid (v : Z) (e : dir_entry) : dir_entry :=
  mk_dir_entry (entry_name e) (entry_hash e) (entry_st e) (entry_type e) v.

(** A [struct dir_entry_list *] into the list whose entries (the nodes after
    the head) are [es]: the head node, or the node of the [k]-th entry.
    dirlist.h is not among the sources; [head_flag] is taken to hold
    [DIR_LIST_HEAD_] on the head node and on no other. *)
Inductive cursor := AtHead | AtNode (k : nat).

Inductive list_arg :=
| NullList
| InList (es : list dir_entry) (cur : cursor).

Section Dirlist.

(** Missing from the sources: the entry type of a regular file system
    entry (dirlist.h) and the string hash (hash.h). *)
Variable DIR_E_NRM : Z.
Variable get_hash : cstring -> Z -> Z.

(** [swap(A, B)]: 1 and the entries exchanged, or 0. *)
Definition swap (A B : dir_entry) : Z * (dir_entry * dir_entry) :=
  let swap := strcmp (entry_name A) (entry_name B) in
  let swap :=
    if swap =? 0 then (if entry_type A >? entry_type B then 1 else 0)
    else swap in
  if swap >? 0 then (1, (B, A)) else (0, (A, B)).

(** One pass [while (next->next) { n += swap(next, next->next);
    next = next->next; }]; [next] is the entry of the current node,
    [rest] the entries after it. *)
Fixpoint bubble_pass (next : dir_entry) (rest : list dir_entry) (n : Z)
  : Z * list dir_entry :=
  match rest with
  | [] => (n, [next])
  | nn :: rest' =>
      let '(s, (A, B)) := swap next nn in
      let '(n', l) := bubble_pass B rest' (int32 (n + s)) in
      (n', A :: l)
  end.

(** The [do ... while (n != 0)] loop. *)
Fixpoint sort_loop (fuel : nat) (es : list dir_entry)
  : option (list dir_entry) :=
  match fuel with
  | O => None
  | S fuel' =>
      match es with
      | [] => Some []
      | first :: rest =>
          let '(n, es') := bubble_pass first rest 0 in
          if negb (n =? 0) then sort_loop fuel' es' else Some es'
      end
  end.

Definition is_duplicate (cur nxt : dir_entry) : bool :=
  ((entry_type cur =? DIR_E_NRM) || (entry_hash cur =? entry_hash nxt))
  && (strcmp (entry_name cur) (entry_name nxt) =? 0).

(** The second loop of [dir_list_close]. *)
Fixpoint mark_duplicates (next : dir_entry) (rest : list dir_entry)
  : list dir_entry :=
  match rest with
  | [] => [next]
  | nn :: rest' =>
      let nn' := if is_duplicate next nn then set_entry_valid 0 nn else nn in
      next :: mark_duplicates nn' rest'
  end.

(** [dir_list_close(root)] on the entries behind a non-NULL [root];
    [None] when the fuel does not cover the sorting loop. *)
Definition dir_list_close (fuel : nat) (es : list dir_entry)
  : option (list dir_entry) :=
  match es with
  | [] => Some []
  | _ =>
      match sort_loop fuel es with
      | None => None
      | Some [] => Some []
      | Some (first :: rest) => Some (mark_duplicates first rest)
      end
  end.

(** [add_entry] after its [strdup] succeeded *)
Definition add_entry (key : cstring) (st type hash : Z) : dir_entry :=
  mk_dir_entry key hash st type 1.

(** The search loop of [dir_entry_add] over the nodes from index [k] on. *)
Fixpoint find_entry (hash : Z) (key : cstring) (k : nat)
  (l : list dir_entry) : option nat :=
  match l with
  | [] => None
  | e :: l' =>
      if (hash =? entry_hash e) && (strcmp key (entry_name e) =? 0)
      then Some k
      else find_entry hash key (S k) l'
  end.

(** The index of the node the search starts at. *)
Definition search_start (cur : cursor) : nat :=
  match cur with
  | AtHead => 0%nat
  | AtNode k => k
  end.

(** [dir_entry_add(l, key, st, type)]: the node returned ([None] for NULL)
    and the entries of the list afterwards.  [malloc_head_ok],
    [malloc_ok] and [strdup_ok] are the outcomes of the allocation of a
    head, of a node and of the name. *)
Definition dir_entry_add (l : list_arg) (key : cstring) (st type : Z)
  (malloc_head_ok malloc_ok strdup_ok : bool)
  : option cursor * list dir_entry :=
  let hash := get_hash key 0 in
  match l with
  | NullList =>
      if negb malloc_head_ok then (None, [])
      else if negb malloc_ok then (None, [])
      else if negb strdup_ok then (None, [])
      else (Some AtHead, [add_entry key st type hash])
  | InList es cur =>
      match find_entry hash key (search_start cur)
                       (drop (search_start cur) es) with
      | Some i => (Some (AtNode i), es)
      | None =>
          if negb malloc_ok then (None, es)
          else if negb strdup_ok then (None, es)
          else (Some (AtNode (length es)),
                es ++ [add_entry key st type hash])
      end
  end.

End Dirlist.

(** ** The order of directory entries *)

(** [swap] exchanges [A] and [B]: [A] has the greater name, or the same
    name and the greater type. *)
Definition out_of_order (A B : dir_entry) : bool :=
  let s := strcmp (entry_name A) (entry_name B) in
  if s =? 0 then entry_type A >? entry_type B else s >? 0.

(** [A] may stand before [B]: by name under [strcmp], then by type. *)
Definition entry_le (A B : dir_entry) : Prop := out_of_order A B = false.

(** the entries of [l] that [z] is out of order with *)
Fixpoint count_after (z : dir_entry) (l : list dir_entry) : nat :=
  match l with
  | [] => 0%nat
  | y :: l' => ((if out_of_order z y then 1 else 0) + count_after z l')%nat
  end.

(** the pairs of entries that stand in the wrong order *)
Fixpoint inversions (l : list dir_entry) : nat :=
  match l with
  | [] => 0%nat
  | x :: l' => (count_after x l' + inversions l')%nat
  end.

(** The entry holds the key: its hash is the hash of the key and its name
    compares equal to it. *)
Definition holds_key (get_hash : cstring -> Z -> Z) (key : cstring)
  (e : dir_entry) : Prop :=
  entry_hash e = get_hash key 0 /\ strcmp key (entry_name e) = 0.

(** The pointer designates the head or a node of the list. *)
Definition cursor_valid (es : list dir_entry) (cur : cursor) : Prop :=
  match cur with
  | AtHead => True
  | AtNode k => (k < length es)%nat
  end.

(** the entry [b] of the node after [a], once the second loop of
    [dir_list_close] has looked at the pair *)
Definition marked_entry (DIR_E_NRM : Z) (a b : dir_entry) : dir_entry :=
  if is_duplicate DIR_E_NRM a b then set_entry_valid 0 b else b.

(** the same entry but for the valid flag *)
Definition same_entry (a b : dir_entry) : Prop :=
  entry_name a = entry_name b /\ entry_hash a = entry_hash b /\
  entry_st a = entry_st b /\ entry_type a = entry_type b.

(** ** rarconfig.c *)

Record alias_entry := mk_alias { alias_file : cstring; alias_alias : cstring }.

Record config_entry := mk_config {
  seek_length : Z;
  save_eof : Z;
  password : option cstring;
  aliases : list alias_entry;   (* the [n_aliases] entries in use *)
  n_aliases : Z;
  mask : Z
}.

Section Rarconfig.

(** [__gnu_dirname] (dirname.h) is not among the sources. *)
Variable __gnu_dirname : cstring -> cstring.
(** The [sscanf] of [__entry_set_alias], which reads two quoted strings
    separated by a comma from [cnode->value] into [file] and [alias]:
    [Some (file, alias)] when it returns 2. *)
Variable sscanf_alias : cstring -> option (cstring * cstring).

Import Alloc.

(** The [while (strcmp(tmp, "/"))] loop of [__dirlevels]. *)
Fixpoint dirlevels_loop (fuel : nat) (tmp : cstring) (count : Z)
  : option Z :=
  match fuel with
  | O => None
  | S fuel' =>
      if negb (strcmp tmp (cstr "/") =? 0)
      then dirlevels_loop fuel' (__gnu_dirname tmp) (int32 (count + 1))
      else Some count
  end.

Definition __dirlevels (fuel : nat) (path : cstring) : M Z :=
  let* ok := request in
  if negb ok then ret 0
  else match dirlevels_loop fuel path 0 with
       | Some count => ret count
       | None => stuck
       end.

(** [__check_paths(a, b)]; the two [__dirlevels] calls are taken in the
    order they are written. *)
Definition __check_paths (fuel : nat) (a b : cstring) : M Z :=
  if negb (peek a 0 =? uchar "/") || negb (peek b 0 =? uchar "/") then ret 1
  else if (strlen a <? 2) || (strlen b <? 2) then ret 1
  else
    let* la := __dirlevels fuel a in
    let* lb := __dirlevels fuel b in
    if negb (la =? lb) then ret 1
    else
      let* a_ok := request in
      if negb a_ok then ret 1
      else
        let* b_ok := request in
        if negb b_ok then ret 1
        else if negb (strcmp (__gnu_dirname a) (__gnu_dirname b) =? 0)
             then ret 1
             else ret 0.

Definition __set_alias (e : config_entry) (file alias : cstring)
  : M config_entry :=
  let* realloc_ok := request in
  if negb realloc_ok then ret e
  else
    let* file_ok := request in
    if negb file_ok then ret e
    else
      let* alias_ok := request in
      if negb alias_ok then ret e
      else ret (mk_config (seek_length e) (save_eof e) (password e)
                          (aliases e ++ [mk_alias file alias])
                          (uint64 (n_aliases e + 1)) (mask e)).

(** [__entry_set_alias(e, cnode)] on [cnode->value]. *)
Definition __entry_set_alias (fuel : nat) (e : config_entry)
  (value : cstring) : M config_entry :=
  let* file_ok := request in
  if negb file_ok then ret e
  else
    let* alias_ok := request in
    if negb alias_ok then ret e
    else
      match sscanf_alias value with
      | Some (file, alias) =>
          let* r := __check_paths fuel file alias in
          if negb (r =? 0) then ret e
          else __set_alias e file alias
      | None => ret e
      end.

End Rarconfig.

(** ** Invariants of the recursion context *)

(** The two arrays have their declared size. *)
Definition arrays_wf (c : recursion_context) : Prop :=
  length (visited c) = Z.to_nat MAX_RECURSION_DEPTH /\
  length (archive_chain c) = Z.to_nat MAX_RECURSION_DEPTH.

Definition depth_inv (c : recursion_context) : Prop :=
  0 <= depth c <= max_depth c /\ max_depth c <= MAX_RECURSION_DEPTH.

Definition size_inv (c : recursion_context) : Prop :=
  0 <= total_unpacked_size c <= max_unpacked_size c /\
  max_unpacked_size c <= OFF_MAX.

Definition context_wf (c : recursion_context) : Prop :=
  arrays_wf c /\ depth_inv c /\ size_inv c.

(** The contexts a caller can hold: initialised, then used through the
    functions of recursion.h with arbitrary arguments and allocation
    outcomes. *)
Inductive reachable : recursion_context -> Prop :=
| reach_init opts now :
    reachable (recursion_context_init opts now)
| reach_push c fp path strdup_ok :
    reachable c ->
    reachable (snd (recursion_push_archive c fp path strdup_ok))
| reach_pop c :
    reachable c -> reachable (recursion_pop_archive c)
| reach_size c archive_size :
    in_off_t archive_size ->
    reachable c -> reachable (snd (check_unpack_size_limit c archive_size)).

(** ** Alias conditions *)

(** The entry with the alias recorded. *)
Definition with_alias (e : config_entry) (file alias : cstring) : config_entry :=
  mk_config (seek_length e) (save_eof e) (password e)
            (aliases e ++ [mk_alias file alias])
            (uint64 (n_aliases e + 1)) (mask e).

Section AliasConditions.

Variable __gnu_dirname : cstring -> cstring.

(** Both paths begin with a slash and have at least two characters. *)
Definition rooted_paths (a b : cstring) : Prop :=
  peek a 0 = uchar "/" /\ peek b 0 = uchar "/" /\
  2 <= strlen a /\ 2 <= strlen b.

(** Both paths are rooted, have the same number of directory levels and
    the same directory part. *)
Definition alias_allowed (fuel : nat) (a b : cstring) : Prop :=
  rooted_paths a b /\
  (exists n, dirlevels_loop __gnu_dirname fuel a 0 = Some n /\
             dirlevels_loop __gnu_dirname fuel b 0 = Some n) /\
  strcmp (__gnu_dirname a) (__gnu_dirname b) = 0.

(** The counting loops of [__dirlevels], when they are reached, end within
    the fuel. *)
Definition levels_counted (fuel : nat) (a b : cstring) : Prop :=
  rooted_paths a b ->
  dirlevels_loop __gnu_dirname fuel a 0 <> None /\
  dirlevels_loop __gnu_dirname fuel b 0 <> None.

End AliasConditions.

(** ** Path components *)

Definition no_slash (c : ascii) : Prop := is_slash c = false.
Definition no_backslash (c : ascii) : Prop := is_backslash c = false.

(** The components of a path: the maximal runs of characters between
    slashes (a/b has two, a/ has a and the empty one). *)
Fixpoint components (s : cstring) : list cstring :=
  match s with
  | [] => [[]]
  | c :: s' =>
      if is_slash c then [] :: components s'
      else match components s' with
           | comp :: rest => (c :: comp) :: rest
           | [] => [[c]]
           end
  end.

(** The path with the given components. *)
Fixpoint join (cs : list cstring) : cstring :=
  match cs with
  | [] => []
  | [c] => c
  | c :: rest => c ++ "/"%char :: join rest
  end.

(** the component is exactly two dots *)
Definition is_dotdot (comp : cstring) : bool :=
  match comp with
  | [a; b] => is_dot a && is_dot b
  | _ => false
  end.

Definition has_dotdot_component (s : cstring) : bool :=
  existsb is_dotdot (components s).

(** the last two characters of the component are dots *)
Definition ends_with_dotdot (comp : cstring) : bool :=
  match rev comp with
  | a :: b :: _ => is_dot a && is_dot b
  | _ => false
  end.

(** the component is two dots, or does not end in two dots *)
Definition tidy (comp : cstring) : bool :=
  is_dotdot comp || negb (ends_with_dotdot comp).

(** No component other than the two-dot one ends in two dots. *)
Definition dotdot_only_whole (s : cstring) : bool :=
  forallb tidy (components s).

(** ** What the UTF-8 check rules out *)

(** A byte [b] followed by [next] (0 at the end of the string) is none of:
    the start bytes C0 and C1 of overlong two-byte forms, a start byte above
    F4, E0 followed by 80..9F, F0 followed by 80..8F (overlong three- and
    four-byte forms). *)
Definition utf8_byte_ok (b next : Z) : bool :=
  negb (b =? 0xC0) && negb (b =? 0xC1) && (b <=? 0xF4)
  && negb ((b =? 0xE0) && (0x80 <=? next) && (next <=? 0x9F))
  && negb ((b =? 0xF0) && (0x80 <=? next) && (next <=? 0x8F)).

Fixpoint no_overlong (s : cstring) : bool :=
  match s with
  | [] => true
  | b :: q => utf8_byte_ok (uchar b) (peek q 0) && no_overlong q
  end.

(** a continuation byte 10xxxxxx *)
Definition is_continuation (a : ascii) : bool :=
  Z.land (uchar a) 0xC0 =? 0x80.

(** every character value *)
Definition all_ascii : list ascii := map ascii_of_nat (seq 0 256).

(** What is left of a path when every two-dot component is taken out
    together with the slash that follows it. *)
Fixpoint remove_dotdot_components (cs : list cstring) : cstring :=
  match cs with
  | [] => []
  | [c] => if is_dotdot c then [] else c
  | c :: rest =>
      (if is_dotdot c then [] else c ++ ["/"%char])
      ++ remove_dotdot_components rest
  end.

(** ** Sample inputs *)

Module Samples.

Definition default_opts : optdb := mk_optdb None None.
Definition epoch : timespec := mk_timespec 0 0.

(** a fresh context: depth 0, limit 5 *)
Definition fresh : recursion_context := recursion_context_init default_opts epoch.

Definition fp_a : archive_fingerprint := mk_fingerprint 0xAAAA 100 1700000000.
Definition fp_b : archive_fingerprint := mk_fingerprint 0xBBBB 200 1700000001.
(** same hash and size as [fp_a], another mtime *)
Definition fp_a_touched : archive_fingerprint :=
  mk_fingerprint 0xAAAA 100 1700000009.

(** a data chunk of four bytes, as the decoder hands it over *)
Definition magic_chunk : callback_call :=
  mk_call UCM_PROCESSDATA (Some [Byte.x52; Byte.x61; Byte.x72; Byte.x21]) 4 true.

(** a buffer that holds exactly 1 GiB *)
Definition full_buffer : extract_buffer :=
  mk_buffer (replicate (Z.to_nat ONE_GIB) Byte.x00) ONE_GIB ONE_GIB 0.

(** one name three times: from the file system (type 0), then from two
    archives (type 1) *)
Definition triple : list dir_entry :=
  [ mk_dir_entry (cstr "a.txt") 7 1000 1 1;
    mk_dir_entry (cstr "a.txt") 7 2000 0 1;
    mk_dir_entry (cstr "a.txt") 7 3000 1 1 ].

Definition listing : list dir_entry :=
  [ mk_dir_entry (cstr "b.txt") 8 1000 1 1;
    mk_dir_entry (cstr "a.txt") 7 2000 1 1;
    mk_dir_entry (cstr "a.txt") 7 3000 0 1 ].

(** a stand-in for the string hash of hash.h: the length of the key *)
Definition length_hash (key : cstring) (seed : Z) : Z :=
  uint32 (seed + strlen key).

Definition two_names : list dir_entry :=
  [ mk_dir_entry (cstr "a.txt") 5 1000 0 1;
    mk_dir_entry (cstr "bb.txt") 6 2000 1 1 ].

(** A directory part for the examples: the path up to its last slash,
    the root for a name directly under it, a dot for a name without
    slash. *)
Definition sample_dirname (p : cstring) : cstring :=
  match join (removelast (components p)) with
  | [] => if existsb is_slash p then cstr "/" else cstr "."
  | dir => dir
  end.

Definition is_space (c : ascii) : bool :=
  (uchar c =? 32) || ((9 <=? uchar c) && (uchar c <=? 13)).
Definition not_quote (c : ascii) : bool := negb (Ascii.eqb c (ascii_of_nat 34)).
Definition not_comma (c : ascii) : bool := negb (Ascii.eqb c ",").

Fixpoint span (f : ascii -> bool) (s : cstring) : cstring * cstring :=
  match s with
  | [] => ([], [])
  | c :: s' => if f c then let '(x, y) := span f s' in (c :: x, y)
               else ([], s)
  end.

(** A scanner for the examples: white space, a quote, the file name up
    to the next quote, something up to a comma, something up to a quote,
    the quote, white space, the alias up to the next quote. *)
Definition sample_scan (value : cstring) : option (cstring * cstring) :=
  match snd (span is_space value) with
  | q :: s1 =>
      if not_quote q then None
      else
        let '(file, s2) := span not_quote s1 in
        let '(skip1, s3) := span not_comma s2 in
        let '(skip2, s4) := span not_quote s3 in
        match file, skip1, skip2, s4 with
        | _ :: _, _ :: _, _ :: _, _ :: s5 =>
            match fst (span not_quote (snd (span is_space s5))) with
            | [] => None
            | alias => Some (file, alias)
            end
        | _, _, _, _ => None
        end
  | [] => None
  end.

(** the value of a configuration line that renames a.txt to b.txt *)
Definition alias_line : cstring :=
  cstr " " ++ [ascii_of_nat 34] ++ cstr "/dir/a.txt" ++ [ascii_of_nat 34]
  ++ cstr ", " ++ [ascii_of_nat 34] ++ cstr "/dir/b.txt" ++ [ascii_of_nat 34].

(** and one that would move it to another directory *)
Definition move_line : cstring :=
  cstr " " ++ [ascii_of_nat 34] ++ cstr "/dir/a.txt" ++ [ascii_of_nat 34]
  ++ cstr ", " ++ [ascii_of_nat 34] ++ cstr "/tmp/a.txt" ++ [ascii_of_nat 34].

Definition no_config : config_entry := mk_config 0 0 None [] 0 0.

(** the four bytes of the text Rar! *)
Definition rar_magic : list Byte.byte :=
  [Byte.x52; Byte.x61; Byte.x72; Byte.x21].

(** [fp_a] then [fp_b] pushed on a fresh context *)
Definition two_deep : recursion_context :=
  snd (recursion_push_archive
         (snd (recursion_push_archive fresh (Some fp_a) (Some (cstr "outer.rar")) true))
         (Some fp_b) (Some (cstr "mid.rar")) true).

End Samples.

(** ** recursion.c: cleanup and the stack of visited archives *)

(** The [for (int i = 0; i < MAX_RECURSION_DEPTH; i++)] loop of
    [recursion_context_cleanup]: a slot that holds a string is freed and set
    to NULL; [n] is the number of iterations left. *)
Fixpoint cleanup_loop (n : nat) (i : Z) (c : recursion_context)
  : recursion_context :=
  match n with
  | O => c
  | S n' =>
      let c1 :=
        match archive_chain c !! Z.to_nat i with
        | Some (Some _) => set_archive_chain i None c
        | _ => c
        end in
      cleanup_loop n' (int32 (i + 1)) c1
  end.

Definition recursion_context_cleanup (c : recursion_context)
  : recursion_context :=
  cleanup_loop (Z.to_nat MAX_RECURSION_DEPTH) 0 c.

(** The fingerprints [is_cycle_detected] compares with: the first [depth]
    slots of [visited], the oldest first. *)
Definition visited_stack (c : recursion_context) : list archive_fingerprint :=
  take (Z.to_nat (depth c)) (visited c).

(** A caller that descends through a chain of archives, pushing each in
    turn with every [strdup] succeeding: the status of each push and the
    context at the end. *)
Fixpoint push_all (c : recursion_context)
  (chain : list (archive_fingerprint * option cstring))
  : list Z * recursion_context :=
  match chain with
  | [] => ([], c)
  | (fp, path) :: rest =>
      let '(r, c1) := recursion_push_archive c (Some fp) path true in
      let '(rs, c2) := push_all c1 rest in
      (r :: rs, c2)
  end.

(** A caller that submits the sizes of successive archives to
    [check_unpack_size_limit]: the status of each call and the context at
    the end. *)
Fixpoint check_all (c : recursion_context) (sizes : list Z)
  : list Z * recursion_context :=
  match sizes with
  | [] => ([], c)
  | s :: rest =>
      let '(r, c1) := check_unpack_size_limit c s in
      let '(rs, c2) := check_all c1 rest in
      (r :: rs, c2)
  end.

(** The sum of the sizes whose call returned 0. *)
Fixpoint accepted_total (rs sizes : list Z) : Z :=
  match rs, sizes with
  | r :: rs', s :: sizes' =>
      (if r =? 0 then s else 0) + accepted_total rs' sizes'
  | _, _ => 0
  end.

(** Every slot of [archive_chain] from index [depth] on is NULL. *)
Definition chain_clear_above (c : recursion_context) : Prop :=
  forall i, depth c <= i < MAX_RECURSION_DEPTH ->
            archive_chain c !! Z.to_nat i = Some None.

(** ** recursion.c: what the extraction callback has stored *)

(** The bytes one invocation hands over: the chunk behind [P1] of a
    [UCM_PROCESSDATA] message, nothing for any other message. *)
Definition payload (c : callback_call) : list Byte.byte :=
  if call_msg c =? UCM_PROCESSDATA then default [] (call_P1 c) else [].

(** ** recursion.c: the language of the UTF-8 check *)

Definition byte_in (lo hi : Z) (a : ascii) : Prop := lo <= uchar a <= hi.

(** One encoded character as [is_valid_utf8] takes it: a byte below 80; a
    start byte C2..DF, E0..EF or F0..F4 followed by one, two or three
    continuation bytes 80..BF, where the byte after E0 is at least A0 and
    the byte after F0 at least 90. *)
Inductive utf8_sequence : cstring -> Prop :=
| seq_one a :
    byte_in 0x00 0x7F a -> utf8_sequence [a]
| seq_two a b :
    byte_in 0xC2 0xDF a -> byte_in 0x80 0xBF b -> utf8_sequence [a; b]
| seq_three a b c :
    byte_in 0xE0 0xEF a -> byte_in 0x80 0xBF b -> byte_in 0x80 0xBF c ->
    (uchar a = 0xE0 -> 0xA0 <= uchar b) ->
    utf8_sequence [a; b; c]
| seq_four a b c d :
    byte_in 0xF0 0xF4 a -> byte_in 0x80 0xBF b -> byte_in 0x80 0xBF c ->
    byte_in 0x80 0xBF d ->
    (uchar a = 0xF0 -> 0x90 <= uchar b) ->
    utf8_sequence [a; b; c; d].

(** A string of such characters. *)
Inductive utf8_text : cstring -> Prop :=
| text_nil : utf8_text []
| text_app q s : utf8_sequence q -> utf8_text s -> utf8_text (q ++ s).

(** The string [r] is [s] with some characters below 80 left out. *)
Inductive ascii_removed : cstring -> cstring -> Prop :=
| removed_nil : ascii_removed [] []
| removed_keep a s r : ascii_removed s r -> ascii_removed (a :: s) (a :: r)
| removed_drop a s r :
    byte_in 0x00 0x7F a -> ascii_removed s r -> ascii_removed (a :: s) r.

(** ** recursion.c: the multiplication of FNV-1a *)

(** The inverse of [FNV_64_PRIME] modulo [2 ^ 64]. *)
Definition fnv_prime_inverse : Z := 0xce965057aff6957b.

(** Two archives of 8193 bytes that differ in the byte in the middle. *)
Module Archives.

Definition block : list Byte.byte := replicate 4096 Byte.x00.
Definition zeros : list Byte.byte := block ++ Byte.x00 :: block.
Definition marked : list Byte.byte := block ++ Byte.x01 :: block.

End Archives.

(** A path whose first component is a two-byte character (C3 A9). *)
Definition accented_path : cstring :=
  ascii_of_nat 195 :: ascii_of_nat 169 :: cstr "\..\x.rar".

(** ** dirlist.c: copying and appending lists *)

(** [dir_list_open(root)]: the list behind the head is empty. *)
Definition dir_list_open : list dir_entry := [].

(** The node [dir_list_append] returns on success: the last node of the
    list, the head when the list has no entries. *)
Definition last_cursor (es : list dir_entry) : cursor :=
  match length es with
  | O => AtHead
  | S k => AtNode k
  end.

(** What [dir_list_append(list1, list2)] leaves behind.
    - [Appended last es]: [last] is returned and [list1] holds [es].
    - [NoNode es]: a [malloc] failed, NULL is returned, [list1] holds [es].
    - [NoName es e shared]: a [strdup] failed and NULL is returned; [list1]
      holds [es] followed by one more node, a byte copy of the node of
      [list2] with the entry [e] but with a NULL name, whose [next] pointer
      is the one of that node of [list2]: the nodes of [list2] with the
      entries [shared] are now reachable from both lists. *)
Inductive append_result :=
| Appended (last : cursor) (es : list dir_entry)
| NoNode (es : list dir_entry)
| NoName (es : list dir_entry) (e : dir_entry) (shared : list dir_entry).

(** What [dir_list_dup(src)] does.
    - [Copied es]: the head of a new list with the entries [es] is
      returned.
    - [DupNull]: a [malloc] failed; what had been copied is freed and NULL
      is returned.
    - [DupUndefined]: a [strdup] failed; [dir_list_free] then follows the
      [next] pointer of the node allocated last, which was never
      initialised, so the behaviour is undefined. *)
Inductive dup_result :=
| Copied (es : list dir_entry)
| DupNull
| DupUndefined.

Section DirlistCopy.

Import Alloc.

(** The [while (next)] loop of [dir_list_dup]: [next] are the entries of
    the source still to copy, [l] the entries of the copy so far.  When the
    [malloc] of a node fails the copy so far ends in a NULL pointer and is
    freed.  When the [strdup] of a name fails [dir_list_free] is called as
    well, but the [next] pointer of the node just allocated has not been
    written yet. *)
Fixpoint dup_loop (next : list dir_entry) (l : list dir_entry)
  : M dup_result :=
  match next with
  | [] => ret (Copied l)
  | e :: next' =>
      let* node_ok := request in
      if negb node_ok then ret DupNull
      else
        let* name_ok := request in
        if negb name_ok then ret DupUndefined
        else dup_loop next'
               (l ++ [mk_dir_entry (entry_name e) (entry_hash e) (entry_st e)
                                   (entry_type e) (entry_valid e)])
  end.

(** [dir_list_dup(src)] on the entries behind [src]. *)
Definition dir_list_dup (src : list dir_entry) : M dup_result :=
  let* root_ok := request in
  if negb root_ok then ret DupNull
  else dup_loop src dir_list_open.

(** The second loop of [dir_list_append]: [next2] are the entries of
    [list2] still to copy, [es] the entries of [list1] so far. *)
Fixpoint append_loop (next2 : list dir_entry) (es : list dir_entry)
  : M append_result :=
  match next2 with
  | [] => ret (Appended (last_cursor es) es)
  | e :: rest =>
      let* node_ok := request in
      if negb node_ok then ret (NoNode es)
      else
        let* name_ok := request in
        if negb name_ok then ret (NoName es e rest)
        else append_loop rest (es ++ [e])
  end.

(** [dir_list_append(list1, list2)] on the entries behind the two heads;
    the first loop walks to the last node of [list1]. *)
Definition dir_list_append (es1 es2 : list dir_entry) : M append_result :=
  append_loop es2 es1.

End DirlistCopy.

(** ** Properties of directory lists *)

(** The two entries hold the same key: same hash, names that compare
    equal. *)
Definition same_key (a b : dir_entry) : Prop :=
  entry_hash a = entry_hash b /\
  strcmp (entry_name a) (entry_name b) = 0.

(** No two entries of the list hold the same key. *)
Definition unique_keys (es : list dir_entry) : Prop :=
  forall i j a b, (i < j)%nat -> es !! i = Some a -> es !! j = Some b ->
                  ~ same_key a b.

(** The entries that sort like [k]: the name compares equal and the type
    is the same. *)
Definition sorts_like (k e : dir_entry) : bool :=
  (strcmp (entry_name e) (entry_name k) =? 0)
  && (entry_type e =? entry_type k).

(** No two entries of the list have names that compare equal. *)
Fixpoint distinct_names (es : list dir_entry) : Prop :=
  match es with
  | [] => True
  | a :: es' =>
      Forall (fun b => strcmp (entry_name a) (entry_name b) <> 0) es'
      /\ distinct_names es'
  end.

(** ** rarconfig.c: properties and lookups *)

(** [tolower] in the C locale *)
Definition tolower (c : Z) : Z :=
  if (65 <=? c) && (c <=? 90) then c + 32 else c.

(** [strcasecmp]: as [strcmp], on the lower-case forms of the characters. *)
Fixpoint strcasecmp (a b : cstring) : Z :=
  match a, b with
  | [], [] => 0
  | [], d :: _ => 0 - tolower (uchar d)
  | c :: _, [] => tolower (uchar c) - 0
  | c :: a', d :: b' =>
      if tolower (uchar c) =? tolower (uchar d)
      then (if uchar c =? 0 then 0 else strcasecmp a' b')
      else tolower (uchar c) - tolower (uchar d)
  end.

(** [__alloc]: the entry after the [memset]. *)
Definition config_zero : config_entry := mk_config 0 0 None [] 0 0.

(** [e->mask & prop], as a truth value. *)
Definition has_prop (e : config_entry) (prop : Z) : bool :=
  negb (Z.land (mask e) (uint32 prop) =? 0).

(** [e->mask |= prop] *)
Definition set_prop (e : config_entry) (prop : Z) : Z :=
  uint32 (Z.lor (mask e) (uint32 prop)).

(** The [for (n = 0; n < e->n_aliases; n++)] loop of [rarconfig_getalias];
    [k] is the number of iterations left.  ([aliases[n]] is read inside the
    array as long as [n_aliases] is the number of aliases stored.) *)
Fixpoint getalias_loop (k : nat) (n : Z) (e : config_entry) (file : cstring)
  : option cstring :=
  match k with
  | O => None
  | S k' =>
      match aliases e !! Z.to_nat n with
      | Some ax =>
          if strcmp file (alias_file ax) =? 0 then Some (alias_alias ax)
          else getalias_loop k' (uint64 (n + 1)) e file
      | None => None
      end
  end.

Section RarconfigLookup.

(** rarconfig.h is not among the sources: the property bits, which are
    also the case labels of the [switch]. *)
Variable RAR_SEEK_LENGTH_PROP : Z.
Variable RAR_SAVE_EOF_PROP : Z.
(** [strtoul(s, NULL, 0)] *)
Variable strtoul : cstring -> Z.
(** The [user_data] of [ht ? hashtable_entry_get(ht, path) : NULL], [None]
    for NULL; hashtable.h is not among the sources. *)
Variable entry_of : cstring -> option config_entry.

Definition rarconfig_getprop_int (path : cstring) (prop : Z) : Z :=
  match entry_of path with
  | Some e =>
      if prop =? RAR_SEEK_LENGTH_PROP then
        (if has_prop e RAR_SEEK_LENGTH_PROP then seek_length e else -1)
      else if prop =? RAR_SAVE_EOF_PROP then
        (if has_prop e RAR_SAVE_EOF_PROP then save_eof e else -1)
      else -1
  | None => -1
  end.

Definition rarconfig_getalias (path file : cstring) : option cstring :=
  match entry_of path with
  | Some e => getalias_loop (Z.to_nat (n_aliases e)) 0 e file
  | None => None
  end.

(** [__entry_set_seek_length(e, cnode)] on [cnode->value] *)
Definition __entry_set_seek_length (e : config_entry) (value : cstring)
  : config_entry :=
  mk_config (int32 (strtoul value)) (save_eof e) (password e) (aliases e)
            (n_aliases e) (set_prop e RAR_SEEK_LENGTH_PROP).

(** [__entry_set_save_eof(e, cnode)] on [cnode->value] *)
Definition __entry_set_save_eof (e : config_entry) (value : cstring)
  : config_entry :=
  if strcasecmp value (cstr "true") =? 0 then
    mk_config (seek_length e) 1 (password e) (aliases e) (n_aliases e)
              (set_prop e RAR_SAVE_EOF_PROP)
  else if strcasecmp value (cstr "false") =? 0 then
    mk_config (seek_length e) 0 (password e) (aliases e) (n_aliases e)
              (set_prop e RAR_SAVE_EOF_PROP)
  else e.

End RarconfigLookup.

(** [n_aliases] is the number of aliases stored. *)
Definition aliases_wf (e : config_entry) : Prop :=
  n_aliases e = Z.of_nat (length (aliases e)).

(** The alias of the first stored pair whose file name compares equal. *)
Definition first_alias (e : config_entry) (file : cstring) : option cstring :=
  option_map alias_alias
    (List.find (fun ax => strcmp file (alias_file ax) =? 0) (aliases e)).

(** ** common.h *)

(** [snprintf(s, n, ...)] with [n > 0]: the string stored in [s] is the
    formatted text cut off after [n - 1] characters. *)
Definition snprintf (n : Z) (text : cstring) : cstring :=
  take (Z.to_nat (n - 1)) text.

(** [ABS_ROOT(s, path)]: the string left in [s]; [src] is
    [OPT_STR2(OPT_KEY_SRC, 0)]. *)
Definition ABS_ROOT (src path : cstring) : cstring :=
  let __root_len := strlen src in
  let __path_len := strlen path in
  let __total := uint64 (uint64 (__root_len + __path_len) + 1) in
  snprintf __total (src ++ path).

(** [ABS_MP_(s, path, file, __alloc)]: the string left in [s], for an
    allocation that succeeds. *)
Definition ABS_MP_ (path file : cstring) : cstring :=
  let __path_len := strlen path in
  let __file_len := strlen file in
  let __total := uint64 (uint64 (__path_len + __file_len) + 2) in
  if negb (__path_len =? 0)
     && negb (peek path (Z.to_nat (uint64 (__path_len - 1))) =? uchar "/")
  then snprintf __total (path ++ "/"%char :: file)
  else snprintf __total (path ++ file).

(** The separator [ABS_MP_] puts between the two parts: a slash after a
    non-empty path that does not end in one. *)
Definition separator (path : cstring) : cstring :=
  match rev path with
  | [] => []
  | c :: _ => if is_slash c then [] else ["/"%char]
  end.

(** Stand-ins for the constants of rarconfig.h and for [strtoul] in the
    examples. *)
Module Props.

Definition seek_length_bit : Z := 1.
Definition save_eof_bit : Z := 2.
Definition no_number (s : cstring) : Z := 0.

End Props.

(** ** recursion.c: writing the buffer to a temporary file *)

Definition EIO : Z := 5.

(** The temporary files, by name: [None] for a name that does not exist. *)
Definition tempfiles := cstring -> option (list Byte.byte).

Definition same_name (a b : cstring) : {a = b} + {a <> b} :=
  List.list_eq_dec ascii_dec a b.

Definition set_file (name : cstring) (content : option (list Byte.byte))
  (files : tempfiles) : tempfiles :=
  fun n => if same_name n name then content else files n.

(** What the operating system answers to the calls of one
    [write_buffer_to_tempfile]: the name [mkstemp] put in place of the
    template ([None] when it returned -1; then [mkstemp_left] is what it
    left in the template and [mkstemp_errno] the value of [errno] that the
    [return] reads), the return values of [write] and of [fsync]. *)
Record tempfile_calls := mk_tempfile_calls {
  mkstemp_name : option cstring;
  mkstemp_left : cstring;
  mkstemp_errno : Z;
  write_result : Z;
  fsync_result : Z
}.

(** [write_buffer_to_tempfile(buffer, out_path)]: the status, the files
    afterwards and the string left in [out_path] ([None] when nothing was
    stored there).  [buffer] is [None] for a NULL pointer; [data_given] and
    [out_path_given] tell whether [buffer->data] and [out_path] are
    non-NULL.  [write] stores the first [write_result] bytes when that is a
    number between 0 and the size. *)
Definition write_buffer_to_tempfile (sys : tempfile_calls)
  (files : tempfiles) (buffer : option extract_buffer)
  (data_given out_path_given : bool)
  : Z * tempfiles * option cstring :=
  match buffer with
  | None => (- EINVAL, files, None)
  | Some b =>
      if negb data_given || (buf_size b =? 0) || negb out_path_given
      then (- EINVAL, files, None)
      else
        match mkstemp_name sys with
        | None =>
            (int32 (- mkstemp_errno sys), files, Some (mkstemp_left sys))
        | Some name =>
            let created := set_file name (Some []) files in
            let written := write_result sys in
            let stored :=
              if (0 <=? written) && (written <=? buf_size b)
              then set_file name
                     (Some (take (Z.to_nat written) (buf_data b))) created
              else created in
            if negb (written =? int64 (buf_size b))
            then (- EIO, set_file name None stored, Some name)
            else (0, stored, Some name)
        end
  end.

(** A buffer holding one chunk, no files yet, and calls that all succeed. *)
Module Tempfiles.

Definition filled : extract_buffer :=
  run_calls empty_buffer [Samples.magic_chunk].
Definition nothing : tempfiles := fun _ => None.
Definition calls : tempfile_calls :=
  mk_tempfile_calls (Some (cstr "/tmp/rar2fs_nested_a1B2c3")) [] 0
    (buf_size filled) 0.

End Tempfiles.


(** * Proofs *)

Section Wrap.

Lemma int32_small z : - 2 ^ 31 <= z < 2 ^ 31 -> int32 z = z.
Proof.
  intros H. unfold int32, wrap_signed.
  change (2 ^ (32 - 1)) with (2 ^ 31).
  rewrite Z.mod_small; lia.
Qed.

Lemma int64_small z : - 2 ^ 63 <= z < 2 ^ 63 -> int64 z = z.
Proof.
  intros H. unfold int64, wrap_signed.
  change (2 ^ (64 - 1)) with (2 ^ 63).
  rewrite Z.mod_small; lia.
Qed.

Lemma uint64_small z : 0 <= z < 2 ^ 64 -> uint64 z = z.
Proof. intros H. unfold uint64, wrap_unsigned. apply Z.mod_small. exact H. Qed.

Lemma int32_range z : - 2 ^ 31 <= int32 z < 2 ^ 31.
Proof.
  unfold int32, wrap_signed. change (2 ^ (32 - 1)) with (2 ^ 31).
  pose proof (Z.mod_pos_bound (z + 2 ^ 31) (2 ^ 32)). lia.
Qed.

Lemma int64_range z : - 2 ^ 63 <= int64 z < 2 ^ 63.
Proof.
  unfold int64, wrap_signed. change (2 ^ (64 - 1)) with (2 ^ 63).
  pose proof (Z.mod_pos_bound (z + 2 ^ 63) (2 ^ 64)). lia.
Qed.

Lemma uint64_range z : 0 <= uint64 z < 2 ^ 64.
Proof. unfold uint64, wrap_unsigned. apply Z.mod_pos_bound. lia. Qed.

(** [int] addition in a running sum: only the last wrap matters. *)
Lemma int32_add_l a b : int32 (int32 a + b) = int32 (a + b).
Proof.
  unfold int32, wrap_signed. change (2 ^ (32 - 1)) with (2 ^ 31).
  f_equal.
  replace ((a + 2 ^ 31) mod 2 ^ 32 - 2 ^ 31 + b + 2 ^ 31)
    with ((a + 2 ^ 31) mod 2 ^ 32 + b) by lia.
  rewrite Zplus_mod_idemp_l. f_equal. lia.
Qed.

End Wrap.

(** ** The invariant of the recursion context *)

Lemma init_wf opts now : context_wf (recursion_context_init opts now).
Proof.
  unfold context_wf, arrays_wf, depth_inv, size_inv, recursion_context_init.
  cbn [visited archive_chain depth max_depth total_unpacked_size
       max_unpacked_size].
  rewrite !length_replicate.
  assert (Hd : 1 <= match opt_recursion_depth opts with
               | Some v =>
                   if (1 <=? int32 v) && (int32 v <=? MAX_RECURSION_DEPTH)
                   then int32 v else DEFAULT_MAX_RECURSION_DEPTH
               | None => DEFAULT_MAX_RECURSION_DEPTH
               end <= MAX_RECURSION_DEPTH).
  { unfold MAX_RECURSION_DEPTH, DEFAULT_MAX_RECURSION_DEPTH.
    destruct (opt_recursion_depth opts) as [v|]; [|lia].
    destruct (1 <=? int32 v) eqn:E1; destruct (int32 v <=? 10) eqn:E2;
      cbn [andb]; lia. }
  assert (Hs : 0 < match opt_max_unpack_size opts with
               | Some v =>
                   if 0 <? int64 v then int64 v else 10 * 1024 * 1024 * 1024
               | None => 10 * 1024 * 1024 * 1024
               end <= OFF_MAX).
  { unfold OFF_MAX.
    destruct (opt_max_unpack_size opts) as [v|]; [|lia].
    pose proof (int64_range v).
    destruct (0 <? int64 v) eqn:E; lia. }
  repeat split; try reflexivity; lia.
Qed.

Ltac unfold_wf :=
  unfold context_wf, arrays_wf, depth_inv, size_inv in *.

(** Boolean comparisons in the hypotheses, as propositions for [lia]. *)
Ltac zify_bool :=
  repeat match goal with
  | H : (_ >=? _) = _ |- _ => rewrite Z.geb_leb in H
  | H : (_ >? _) = _ |- _ => rewrite Z.gtb_ltb in H
  | H : (_ <=? _) = true |- _ => apply Z.leb_le in H
  | H : (_ <=? _) = false |- _ => apply Z.leb_gt in H
  | H : (_ <? _) = true |- _ => apply Z.ltb_lt in H
  | H : (_ <? _) = false |- _ => apply Z.ltb_ge in H
  | H : (_ =? _) = true |- _ => apply Z.eqb_eq in H
  | H : (_ =? _) = false |- _ => apply Z.eqb_neq in H
  end.

Lemma push_wf c fp path strdup_ok :
  context_wf c -> context_wf (snd (recursion_push_archive c fp path strdup_ok)).
Proof.
  intros H. unfold recursion_push_archive.
  destruct fp as [f|]; [|exact H].
  destruct (depth c >=? max_depth c) eqn:E1; [exact H|].
  destruct (depth c >=? MAX_RECURSION_DEPTH) eqn:E2; [exact H|].
  unfold_wf. zify_bool.
  assert (Hw : int32 (depth c + 1) = depth c + 1).
  { apply int32_small. unfold MAX_RECURSION_DEPTH in *. lia. }
  destruct path as [p|]; [destruct strdup_ok|]; cbn;
    rewrite ?length_insert, ?Hw; intuition lia.
Qed.

Lemma pop_wf c : context_wf c -> context_wf (recursion_pop_archive c).
Proof.
  intros H. unfold recursion_pop_archive.
  destruct (depth c <=? 0) eqn:E; [exact H|].
  unfold_wf. zify_bool.
  assert (Hw : int32 (depth c - 1) = depth c - 1).
  { apply int32_small. unfold MAX_RECURSION_DEPTH in *. lia. }
  cbn. rewrite ?length_insert, ?Hw. intuition lia.
Qed.

Lemma size_limit_wf c archive_size :
  in_off_t archive_size ->
  context_wf c -> context_wf (snd (check_unpack_size_limit c archive_size)).
Proof.
  intros Hsz H. unfold check_unpack_size_limit. unfold in_off_t, OFF_MIN in Hsz.
  destruct (archive_size <? 0) eqn:E0; [exact H|].
  assert (Hw : int64 (max_unpacked_size c - archive_size)
               = max_unpacked_size c - archive_size).
  { unfold_wf. zify_bool. unfold OFF_MAX in *. apply int64_small; lia. }
  rewrite Hw.
  destruct (total_unpacked_size c >? max_unpacked_size c - archive_size) eqn:E1;
    [exact H|].
  unfold_wf. unfold OFF_MAX in *. zify_bool. cbn.
  rewrite int64_small by lia. intuition lia.
Qed.

Lemma reachable_wf c : reachable c -> context_wf c.
Proof.
  induction 1;
    auto using init_wf, push_wf, pop_wf, size_limit_wf.
Qed.

(** ** Cycle detection *)

Lemma fingerprint_match_true v fp :
  fingerprint_match v fp = true <->
  fp_hash v = fp_hash fp /\ fp_size v = fp_size fp /\ fp_mtime v = fp_mtime fp.
Proof.
  unfold fingerprint_match. rewrite !andb_true_iff, !Z.eqb_eq. tauto.
Qed.

Lemma cycle_loop_spec n : forall i c fp,
  0 <= i -> i + Z.of_nat n <= INT_MAX ->
  cycle_loop n i c fp = true <->
  exists j, i <= j < i + Z.of_nat n /\
            fingerprint_match (visited_at c j) fp = true.
Proof.
  unfold INT_MAX.
  induction n as [|n IH]; intros i c fp Hi Hn.
  - cbn. split; [discriminate|]. intros (j & Hj & _). lia.
  - cbn [cycle_loop].
    destruct (fingerprint_match (visited_at c i) fp) eqn:E.
    + split; [|reflexivity]. intros _. exists i. split; [lia|exact E].
    + rewrite int32_small by lia. rewrite IH by lia. split.
      * intros (j & Hj & Hm). exists j. split; [lia|exact Hm].
      * intros (j & Hj & Hm). exists j. split; [|exact Hm].
        destruct (Z.eq_dec j i) as [->|]; [congruence|lia].
Qed.

(** C2. With a context and a fingerprint that are both present,
    [is_cycle_detected] answers true exactly when one of the first [depth]
    slots of [visited] has the fingerprint's hash, size and mtime, all
    three; a fingerprint that differs from every such slot in at least one
    of the three is not reported. *)
Theorem is_cycle_detected_iff (c : recursion_context) (fp : archive_fingerprint) :
  arrays_wf c -> depth c <= MAX_RECURSION_DEPTH ->
  (is_cycle_detected (Some c) (Some fp) = true <->
   exists i v, 0 <= i < depth c /\ visited c !! Z.to_nat i = Some v /\
               fp_hash v = fp_hash fp /\ fp_size v = fp_size fp /\
               fp_mtime v = fp_mtime fp) /\
  ((forall i v, 0 <= i < depth c -> visited c !! Z.to_nat i = Some v ->
                fp_hash v <> fp_hash fp \/ fp_size v <> fp_size fp \/
                fp_mtime v <> fp_mtime fp) ->
   is_cycle_detected (Some c) (Some fp) = false).
Proof.
  intros [Hlen _] Hd. unfold MAX_RECURSION_DEPTH in *.
  assert (Hiff : is_cycle_detected (Some c) (Some fp) = true <->
    exists i v, 0 <= i < depth c /\ visited c !! Z.to_nat i = Some v /\
                fp_hash v = fp_hash fp /\ fp_size v = fp_size fp /\
                fp_mtime v = fp_mtime fp).
  { cbn [is_cycle_detected].
    rewrite cycle_loop_spec by (unfold INT_MAX; lia). split.
    - intros (j & Hj & Hm).
      destruct (lookup_lt_is_Some_2 (visited c) (Z.to_nat j)) as [v Hv]; [lia|].
      exists j, v. split; [lia|]. split; [exact Hv|].
      apply fingerprint_match_true. unfold visited_at in Hm.
      rewrite Hv in Hm. exact Hm.
    - intros (i & v & Hi & Hv & Hm). exists i. split; [lia|].
      unfold visited_at. rewrite Hv. apply fingerprint_match_true. exact Hm. }
  split; [exact Hiff|]. intros Hall.
  apply not_true_is_false. intros E.
  apply Hiff in E. destruct E as (i & v & Hi & Hv & Hm).
  destruct (Hall i v Hi Hv) as [H|[H|H]]; tauto.
Qed.

Lemma is_cycle_detected_iff_witness :
  arrays_wf Samples.two_deep /\ depth Samples.two_deep <= MAX_RECURSION_DEPTH /\
  is_cycle_detected (Some Samples.two_deep) (Some Samples.fp_a) = true /\
  is_cycle_detected (Some Samples.two_deep) (Some Samples.fp_a_touched) = false.
Proof.
  assert (Ha : arrays_wf Samples.two_deep) by (split; reflexivity).
  assert (Hd : depth Samples.two_deep <= MAX_RECURSION_DEPTH)
    by (vm_compute; discriminate).
  destruct (is_cycle_detected_iff Samples.two_deep Samples.fp_a Ha Hd) as [Hiff _].
  destruct (is_cycle_detected_iff Samples.two_deep Samples.fp_a_touched Ha Hd)
    as [_ Hnot].
  split; [exact Ha|]. split; [exact Hd|]. split.
  - apply Hiff. exists 0, Samples.fp_a. repeat split; vm_compute; congruence.
  - apply Hnot. intros i v Hi Hv.
    assert (Hc : i = 0 \/ i = 1) by (change (depth Samples.two_deep) with 2 in Hi; lia).
    destruct Hc as [-> | ->]; vm_compute in Hv; inversion Hv; subst v;
      cbn; right; right; discriminate.
Defined.

(** A NULL context or fingerprint is treated as a cycle. *)
Lemma is_cycle_detected_null c fp :
  is_cycle_detected None fp = true /\ is_cycle_detected c None = true.
Proof. split; [reflexivity|]. destruct c; reflexivity. Qed.

(** ** Push and pop *)

Lemma push_at_limit c fp path strdup_ok :
  depth c >= max_depth c ->
  recursion_push_archive c (Some fp) path strdup_ok = (- ELOOP, c).
Proof.
  intros H. unfold recursion_push_archive.
  destruct (depth c >=? max_depth c) eqn:E; [reflexivity|].
  zify_bool. lia.
Qed.

Lemma push_below_limit c fp path strdup_ok :
  context_wf c -> depth c < max_depth c ->
  recursion_push_archive c (Some fp) path strdup_ok =
  match path with
  | Some p =>
      if strdup_ok
      then (0, set_depth (depth c + 1)
                 (set_archive_chain (depth c) (Some p)
                    (set_visited (depth c) fp c)))
      else (- ENOMEM, set_archive_chain (depth c) None
                        (set_visited (depth c) fp c))
  | None => (0, set_depth (depth c + 1) (set_visited (depth c) fp c))
  end.
Proof.
  intros Hwf Hlt. unfold recursion_push_archive. unfold_wf.
  unfold MAX_RECURSION_DEPTH in *.
  destruct (depth c >=? max_depth c) eqn:E1; [zify_bool; lia|].
  destruct (depth c >=? 10) eqn:E2; [zify_bool; lia|].
  rewrite int32_small by lia. reflexivity.
Qed.

(** C3 (amended). On a context obtained from [recursion_context_init]
    through the functions of recursion.h, [recursion_push_archive] with a
    fingerprint returns [-ELOOP] and leaves the context as it is whenever
    [depth >= max_depth]; otherwise it stores the fingerprint at index
    [depth] and, when the archive path is NULL or its copy could be
    allocated, returns 0 with [depth] incremented, while a failed copy
    makes it return [-ENOMEM] with [depth] as before.  In every case
    [0 <= depth <= max_depth <= MAX_RECURSION_DEPTH = 10] holds before and
    after the push, and after a pop. *)
Theorem push_archive_depth_limit (c : recursion_context)
  (fp : archive_fingerprint) (path : option cstring) (strdup_ok : bool) :
  reachable c ->
  let r := recursion_push_archive c (Some fp) path strdup_ok in
  (depth c >= max_depth c -> r = (- ELOOP, c)) /\
  (depth c < max_depth c ->
     visited (snd r) = <[Z.to_nat (depth c) := fp]> (visited c) /\
     visited (snd r) !! Z.to_nat (depth c) = Some fp /\
     (path = None \/ strdup_ok = true ->
        fst r = 0 /\ depth (snd r) = depth c + 1) /\
     (path <> None -> strdup_ok = false ->
        fst r = - ENOMEM /\ depth (snd r) = depth c)) /\
  MAX_RECURSION_DEPTH = 10 /\
  depth_inv c /\ depth_inv (snd r) /\ depth_inv (recursion_pop_archive c).
Proof.
  intros Hr r. pose proof (reachable_wf c Hr) as Hwf.
  split; [intros H; apply push_at_limit; exact H|].
  split.
  - intros Hlt. subst r. rewrite (push_below_limit c fp path strdup_ok Hwf Hlt).
    assert (Hi : (Z.to_nat (depth c) < length (visited c))%nat).
    { unfold_wf. unfold MAX_RECURSION_DEPTH in *. lia. }
    destruct path as [p|]; [destruct strdup_ok|]; cbn;
      (split; [reflexivity|]);
      (split; [apply list_lookup_insert_eq; exact Hi|]);
      split; intros; try tauto; try congruence; intuition congruence.
  - split; [reflexivity|]. split; [apply Hwf|]. split.
    + apply (push_wf c (Some fp) path strdup_ok Hwf).
    + apply (pop_wf c Hwf).
Qed.

Lemma push_archive_depth_limit_witness :
  reachable Samples.fresh /\
  recursion_push_archive Samples.fresh (Some Samples.fp_a) None true
  = (0, set_depth 1 (set_visited 0 Samples.fp_a Samples.fresh)) /\
  depth_inv (snd (recursion_push_archive Samples.fresh (Some Samples.fp_a) None true)).
Proof.
  assert (Hr : reachable Samples.fresh) by apply reach_init.
  pose proof (push_archive_depth_limit Samples.fresh Samples.fp_a None true Hr)
    as (_ & _ & _ & _ & Hinv & _).
  split; [exact Hr|]. split; [reflexivity|exact Hinv].
Defined.

(** C3 as stated fails when the copy of the archive path cannot be
    allocated: below the limit the push neither returns [-ELOOP] nor
    increments [depth]. *)
Lemma push_archive_enomem_counterexample :
  reachable Samples.fresh /\
  depth Samples.fresh < max_depth Samples.fresh /\
  fst (recursion_push_archive Samples.fresh (Some Samples.fp_a)
         (Some (cstr "outer.rar")) false) = - ENOMEM /\
  depth (snd (recursion_push_archive Samples.fresh (Some Samples.fp_a)
                (Some (cstr "outer.rar")) false)) = depth Samples.fresh /\
  visited (snd (recursion_push_archive Samples.fresh (Some Samples.fp_a)
                  (Some (cstr "outer.rar")) false)) !! 0%nat = Some Samples.fp_a /\
  fst (recursion_push_archive Samples.fresh (Some Samples.fp_a)
         (Some (cstr "outer.rar")) false) <> - ELOOP /\
  depth (snd (recursion_push_archive Samples.fresh (Some Samples.fp_a)
                (Some (cstr "outer.rar")) false)) <> depth Samples.fresh + 1.
Proof.
  split; [apply reach_init|]. repeat split; try reflexivity; vm_compute; discriminate.
Qed.

(** C10. A push that returns 0 followed by a pop gives back the depth, all
    fingerprints below it and every other field; the slot that was written
    holds the zero fingerprint and its path is NULL.  When that slot was
    clear before, the context is back as it was.  A pop at depth 0 changes
    nothing. *)
Theorem push_pop_inverse (c c1 : recursion_context)
  (fp : option archive_fingerprint) (path : option cstring) (strdup_ok : bool) :
  context_wf c ->
  recursion_push_archive c fp path strdup_ok = (0, c1) ->
  let c2 := recursion_pop_archive c1 in
  depth c2 = depth c /\
  visited c2 = <[Z.to_nat (depth c) := fp_zero]> (visited c) /\
  visited c2 !! Z.to_nat (depth c) = Some fp_zero /\
  take (Z.to_nat (depth c)) (visited c2) = take (Z.to_nat (depth c)) (visited c) /\
  archive_chain c2 = <[Z.to_nat (depth c) := None]> (archive_chain c) /\
  max_depth c2 = max_depth c /\
  total_unpacked_size c2 = total_unpacked_size c /\
  max_unpacked_size c2 = max_unpacked_size c /\
  start_time c2 = start_time c /\
  (visited c !! Z.to_nat (depth c) = Some fp_zero ->
   archive_chain c !! Z.to_nat (depth c) = Some None -> c2 = c) /\
  (forall c0, depth c0 <= 0 -> recursion_pop_archive c0 = c0).
Proof.
  intros Hwf Hpush c2.
  assert (Hpop0 : forall c0, depth c0 <= 0 -> recursion_pop_archive c0 = c0).
  { intros c0 H0. unfold recursion_pop_archive.
    destruct (depth c0 <=? 0) eqn:E; [reflexivity|]. zify_bool. lia. }
  assert (Hlt : depth c < max_depth c /\ exists f, fp = Some f).
  { unfold recursion_push_archive in Hpush.
    destruct fp as [f|]; [|inversion Hpush].
    destruct (depth c >=? max_depth c) eqn:E1; [inversion Hpush|].
    zify_bool. split; [lia|eauto]. }
  destruct Hlt as [Hlt [f ->]].
  rewrite (push_below_limit c f path strdup_ok Hwf Hlt) in Hpush.
  assert (Hc1 : depth c1 = depth c + 1 /\
                visited c1 = <[Z.to_nat (depth c) := f]> (visited c) /\
                (exists q, archive_chain c1
                           = <[Z.to_nat (depth c) := q]> (archive_chain c)) /\
                max_depth c1 = max_depth c /\
                total_unpacked_size c1 = total_unpacked_size c /\
                max_unpacked_size c1 = max_unpacked_size c /\
                start_time c1 = start_time c).
  { destruct path as [p|]; [destruct strdup_ok|]; inversion Hpush; subst c1; cbn;
      repeat split; try reflexivity.
    - eexists; reflexivity.
    - exists (default None (archive_chain c !! Z.to_nat (depth c))).
      symmetry. apply list_insert_id'. intros Hi.
      destruct (lookup_lt_is_Some_2 _ _ Hi) as [x Hx]. rewrite Hx. reflexivity. }
  destruct Hc1 as (Hd1 & Hv1 & [q Ha1] & Hm1 & Ht1 & Hs1 & Hst1).
  unfold_wf. unfold MAX_RECURSION_DEPTH in *.
  assert (Hi : (Z.to_nat (depth c) < length (visited c))%nat) by lia.
  assert (Hc2 : c2 = set_archive_chain (depth c) None
                       (set_visited (depth c) fp_zero
                          (set_depth (depth c) c1))).
  { subst c2. unfold recursion_pop_archive.
    destruct (depth c1 <=? 0) eqn:E; [zify_bool; lia|].
    rewrite Hd1. replace (depth c + 1 - 1) with (depth c) by lia.
    rewrite int32_small by lia. reflexivity. }
  assert (Hvis : visited c2 = <[Z.to_nat (depth c) := fp_zero]> (visited c)).
  { rewrite Hc2. cbn. rewrite Hv1. apply list_insert_insert_eq. }
  assert (Hch : archive_chain c2 = <[Z.to_nat (depth c) := None]> (archive_chain c)).
  { rewrite Hc2. cbn. rewrite Ha1. apply list_insert_insert_eq. }
  assert (Hdep : depth c2 = depth c) by (rewrite Hc2; reflexivity).
  assert (Hmax : max_depth c2 = max_depth c) by (rewrite Hc2; exact Hm1).
  assert (Htot : total_unpacked_size c2 = total_unpacked_size c)
    by (rewrite Hc2; exact Ht1).
  assert (Hms : max_unpacked_size c2 = max_unpacked_size c)
    by (rewrite Hc2; exact Hs1).
  assert (Hstt : start_time c2 = start_time c) by (rewrite Hc2; exact Hst1).
  repeat split; try assumption.
  - rewrite Hvis. apply list_lookup_insert_eq. exact Hi.
  - rewrite Hvis. apply take_insert_ge. lia.
  - intros Hz Hn.
    rewrite (list_insert_id _ _ _ Hz) in Hvis.
    rewrite (list_insert_id _ _ _ Hn) in Hch.
    destruct c2, c; cbn in *; congruence.
Qed.

Lemma push_pop_inverse_witness :
  context_wf Samples.fresh /\
  recursion_pop_archive
    (snd (recursion_push_archive Samples.fresh (Some Samples.fp_a)
            (Some (cstr "outer.rar")) true))
  = Samples.fresh.
Proof.
  assert (Hwf : context_wf Samples.fresh) by apply init_wf.
  split; [exact Hwf|].
  pose proof (push_pop_inverse Samples.fresh _ (Some Samples.fp_a)
                (Some (cstr "outer.rar")) true Hwf eq_refl)
    as (_ & _ & _ & _ & _ & _ & _ & _ & _ & Hback & _).
  apply Hback; reflexivity.
Defined.

(** ** Cumulative size limit *)

(** C4. For a context whose size fields satisfy the invariant and a
    non-negative [archive_size], [check_unpack_size_limit] returns [-EFBIG]
    exactly when [total_unpacked_size + archive_size] exceeds
    [max_unpacked_size] as integers (the subtraction that tests it does not
    overflow), and then the context is unchanged; otherwise it returns 0 and
    [total_unpacked_size] grows by exactly [archive_size] without wrapping.
    Either way [total_unpacked_size <= max_unpacked_size] afterwards. *)
Theorem check_unpack_size_limit_spec (c : recursion_context) (archive_size : Z) :
  size_inv c -> 0 <= archive_size <= OFF_MAX ->
  let r := check_unpack_size_limit c archive_size in
  int64 (max_unpacked_size c - archive_size) = max_unpacked_size c - archive_size /\
  (fst r = - EFBIG <-> total_unpacked_size c + archive_size > max_unpacked_size c) /\
  (fst r = - EFBIG -> snd r = c) /\
  (fst r = 0 <-> total_unpacked_size c + archive_size <= max_unpacked_size c) /\
  (fst r = 0 ->
     snd r = set_total_unpacked_size (total_unpacked_size c + archive_size) c /\
     total_unpacked_size (snd r) = total_unpacked_size c + archive_size) /\
  size_inv (snd r).
Proof.
  intros [Ht Hm] Hsz r. unfold OFF_MAX in *.
  assert (Hsub : int64 (max_unpacked_size c - archive_size)
                 = max_unpacked_size c - archive_size)
    by (apply int64_small; lia).
  split; [exact Hsub|].
  subst r. unfold check_unpack_size_limit. rewrite Hsub.
  destruct (archive_size <? 0) eqn:E0; [zify_bool; lia|].
  destruct (total_unpacked_size c >? max_unpacked_size c - archive_size) eqn:E1;
    zify_bool; cbn [fst snd].
  - unfold EFBIG, size_inv, OFF_MAX. repeat split; intros; try lia; try tauto.
  - rewrite int64_small by lia.
    unfold EFBIG, size_inv, OFF_MAX. cbn.
    repeat split; intros; try lia; try reflexivity.
Qed.

Lemma check_unpack_size_limit_spec_witness :
  size_inv Samples.fresh /\ 0 <= 4096 <= OFF_MAX /\
  check_unpack_size_limit Samples.fresh 4096
  = (0, set_total_unpacked_size 4096 Samples.fresh).
Proof.
  assert (Hinv : size_inv Samples.fresh) by apply (init_wf Samples.default_opts Samples.epoch).
  assert (Hsz : 0 <= 4096 <= OFF_MAX) by (unfold OFF_MAX; lia).
  pose proof (check_unpack_size_limit_spec Samples.fresh 4096 Hinv Hsz)
    as (_ & _ & _ & H0 & Hres & _).
  split; [exact Hinv|]. split; [exact Hsz|].
  assert (Hfst : fst (check_unpack_size_limit Samples.fresh 4096) = 0)
    by (apply H0; vm_compute; discriminate).
  destruct (Hres Hfst) as [Hsnd _].
  rewrite (surjective_pairing (check_unpack_size_limit Samples.fresh 4096)).
  rewrite Hfst, Hsnd. reflexivity.
Defined.

(** A negative size is refused without touching the context. *)
Lemma check_unpack_size_limit_negative c archive_size :
  archive_size < 0 -> check_unpack_size_limit c archive_size = (- EINVAL, c).
Proof.
  intros H. unfold check_unpack_size_limit.
  destruct (archive_size <? 0) eqn:E; [reflexivity|]. zify_bool. lia.
Qed.

(** ** Fingerprints *)

Lemma fnv1a_loop_fold n : forall i p h,
  0 <= i -> i + Z.of_nat n <= Z.of_nat (length p) ->
  Z.of_nat (length p) < 2 ^ 64 ->
  fnv1a_loop n i p h
  = fold_left fnv1a_step (take n (drop (Z.to_nat i) p)) h.
Proof.
  induction n as [|n IH]; intros i p h Hi Hn Hp; [reflexivity|].
  cbn [fnv1a_loop].
  destruct (lookup_lt_is_Some_2 p (Z.to_nat i)) as [b Hb]; [lia|].
  unfold byte_at. rewrite Hb.
  rewrite (drop_S _ _ _ Hb). cbn [take firstn fold_left].
  rewrite uint64_small by lia.
  rewrite IH by lia.
  replace (Z.to_nat (i + 1)) with (S (Z.to_nat i)) by lia.
  reflexivity.
Qed.

(** The loop of the source computes FNV-1a of the first [len] bytes. *)
Lemma fnv1a_hash_64_reference data len :
  0 <= len <= Z.of_nat (length data) -> Z.of_nat (length data) < 2 ^ 64 ->
  fnv1a_hash_64 data len = fnv1a_reference (take (Z.to_nat len) data).
Proof.
  intros Hlen Hp. unfold fnv1a_hash_64, fnv1a_reference.
  rewrite fnv1a_loop_fold by lia. reflexivity.
Qed.

Lemma fnv1a_reference_range bytes : 0 <= fnv1a_reference bytes < 2 ^ 64.
Proof.
  unfold fnv1a_reference.
  assert (H0 : 0 <= FNV_64_OFFSET_BASIS < 2 ^ 64)
    by (unfold FNV_64_OFFSET_BASIS; lia).
  revert H0. generalize FNV_64_OFFSET_BASIS as h.
  induction bytes as [|b bytes IH]; intros h Hh; [exact Hh|].
  cbn [fold_left]. apply IH. unfold fnv1a_step. apply Z.mod_pos_bound. lia.
Qed.

Lemma last_bytes_drop n data :
  (n <= length data)%nat -> last_bytes n data = drop (length data - n) data.
Proof.
  intros Hn. unfold last_bytes. rewrite firstn_rev, rev_involutive. reflexivity.
Qed.

Lemma last_bytes_suffix n data :
  (n <= length data)%nat ->
  length (last_bytes n data) = n /\
  data = take (length data - n) data ++ last_bytes n data.
Proof.
  intros Hn. rewrite last_bytes_drop by exact Hn. split.
  - rewrite length_drop. lia.
  - symmetry. apply take_drop.
Qed.

Lemma byte_val_of_Z z : byte_val (byte_of_Z z) = z mod 256.
Proof.
  unfold byte_val, byte_of_Z.
  pose proof (Z.mod_pos_bound z 256 ltac:(lia)) as Hm.
  destruct (Byte.of_N (Z.to_N (z mod 256))) as [b|] eqn:E.
  - apply Byte.to_of_N in E. change (default Byte.x00 (Some b)) with b.
    rewrite E. lia.
  - apply Byte.of_N_None_iff in E. lia.
Qed.

(** The object representation of a [uint64_t] holds its value. *)
Lemma uint64_bytes_value bo x :
  0 <= x < 2 ^ 64 ->
  length (uint64_bytes bo x) = 8%nat /\
  uint64_of_bytes bo (uint64_bytes bo x) = x.
Proof.
  intros Hx.
  assert (Hle : le_value (uint64_bytes LittleEndian x) = x).
  { unfold uint64_bytes, le_value. cbn [map fold_right].
    rewrite !byte_val_of_Z, !Z.shiftr_div_pow2 by lia.
    change (2 ^ (8 * 0)) with 1. rewrite Z.div_1_r.
    change (2 ^ (8 * 1)) with 256. change (2 ^ (8 * 2)) with (256 * 256).
    change (2 ^ (8 * 3)) with (256 * 256 * 256).
    change (2 ^ (8 * 4)) with (256 * 256 * 256 * 256).
    change (2 ^ (8 * 5)) with (256 * 256 * 256 * 256 * 256).
    change (2 ^ (8 * 6)) with (256 * 256 * 256 * 256 * 256 * 256).
    change (2 ^ (8 * 7)) with (256 * 256 * 256 * 256 * 256 * 256 * 256).
    rewrite <- !Z.div_div by lia.
    set (x1 := x / 256). set (x2 := x1 / 256). set (x3 := x2 / 256).
    set (x4 := x3 / 256). set (x5 := x4 / 256). set (x6 := x5 / 256).
    set (x7 := x6 / 256).
    assert (x7 / 256 = 0).
    { subst x7 x6 x5 x4 x3 x2 x1. rewrite !Z.div_div by lia.
      apply Z.div_small. lia. }
    pose proof (Z.div_mod x 256 ltac:(lia)).
    pose proof (Z.div_mod x1 256 ltac:(lia)).
    pose proof (Z.div_mod x2 256 ltac:(lia)).
    pose proof (Z.div_mod x3 256 ltac:(lia)).
    pose proof (Z.div_mod x4 256 ltac:(lia)).
    pose proof (Z.div_mod x5 256 ltac:(lia)).
    pose proof (Z.div_mod x6 256 ltac:(lia)).
    pose proof (Z.div_mod x7 256 ltac:(lia)).
    fold x1 in H0. fold x2 in H1. fold x3 in H2. fold x4 in H3.
    fold x5 in H4. fold x6 in H5. fold x7 in H6.
    lia. }
  destruct bo; cbn [uint64_of_bytes].
  - split; [reflexivity|exact Hle].
  - split; [reflexivity|].
    unfold uint64_bytes at 1. rewrite rev_involutive. exact Hle.
Qed.

(** C5. For a non-empty buffer of [n] bytes and an mtime [t] the
    fingerprint has size [n], mtime [t], and as hash the FNV-1a hash of the
    eight bytes that hold, in the machine's byte order, the 64-bit value
    (FNV-1a of the first [min n 4096] bytes) xor (FNV-1a of the last 4096
    bytes when [n > 4096], else 0). *)
Theorem compute_archive_fingerprint_spec (bo : byte_order)
  (data : list Byte.byte) (t : Z) :
  let n := Z.of_nat (length data) in
  0 < n <= OFF_MAX ->
  let fp := compute_archive_fingerprint bo (Some data) n t in
  let h1 := fnv1a_reference (take (Z.to_nat (Z.min n 4096)) data) in
  let h2 := if n >? 4096 then fnv1a_reference (last_bytes 4096 data) else 0 in
  let combined := uint64_bytes bo (Z.lxor h1 h2) in
  fp_size fp = n /\
  fp_mtime fp = t /\
  fp_hash fp = fnv1a_reference combined /\
  length combined = 8%nat /\
  uint64_of_bytes bo combined = Z.lxor h1 h2 /\
  0 <= fp_hash fp < 2 ^ 64.
Proof.
  intros n Hn fp h1 h2 combined. unfold OFF_MAX in Hn.
  assert (Hh1 : fnv1a_hash_64 data
                  (if n <? FINGERPRINT_CHUNK_SIZE then n else FINGERPRINT_CHUNK_SIZE)
                = h1).
  { unfold FINGERPRINT_CHUNK_SIZE. subst h1.
    destruct (n <? 4096) eqn:E; zify_bool.
    - rewrite fnv1a_hash_64_reference by (fold n; lia).
      rewrite Z.min_l by lia. reflexivity.
    - rewrite fnv1a_hash_64_reference by (fold n; lia).
      rewrite Z.min_r by lia. reflexivity. }
  assert (Hh2 : (if n >? FINGERPRINT_CHUNK_SIZE
                 then fnv1a_hash_64
                        (drop (Z.to_nat (n - FINGERPRINT_CHUNK_SIZE)) data)
                        FINGERPRINT_CHUNK_SIZE
                 else 0) = h2).
  { unfold FINGERPRINT_CHUNK_SIZE. subst h2.
    destruct (n >? 4096) eqn:E; [|reflexivity]. zify_bool.
    rewrite fnv1a_hash_64_reference
      by (rewrite length_drop; fold n; lia).
    rewrite last_bytes_drop by lia.
    replace (Z.to_nat (n - 4096)) with (length data - 4096)%nat by lia.
    rewrite take_ge by (rewrite length_drop; lia). reflexivity. }
  assert (Hx : 0 <= Z.lxor h1 h2 < 2 ^ 64).
  { assert (Hr1 : 0 <= h1 < 2 ^ 64) by apply fnv1a_reference_range.
    assert (Hr2 : 0 <= h2 < 2 ^ 64).
    { subst h2. destruct (n >? 4096); [apply fnv1a_reference_range|lia]. }
    split.
    - apply Z.lxor_nonneg. lia.
    - destruct (Z.eq_dec (Z.lxor h1 h2) 0) as [->|Hne]; [lia|].
      apply Z.log2_lt_pow2; [pose proof (proj2 (Z.lxor_nonneg h1 h2)); lia|].
      eapply Z.le_lt_trans; [apply Z.log2_lxor; lia|].
      apply Z.max_lub_lt.
      + destruct (Z.eq_dec h1 0) as [->|]; [cbn; lia|].
        apply Z.log2_lt_pow2; lia.
      + destruct (Z.eq_dec h2 0) as [->|]; [cbn; lia|].
        apply Z.log2_lt_pow2; lia. }
  destruct (uint64_bytes_value bo _ Hx) as [Hlen Hval].
  fold combined in Hlen, Hval.
  assert (Hfp : fp = mk_fingerprint (fnv1a_reference combined) n t).
  { subst fp. unfold compute_archive_fingerprint.
    destruct (n =? 0) eqn:E0; [zify_bool; lia|].
    rewrite Hh1, Hh2. fold combined.
    rewrite fnv1a_hash_64_reference by (rewrite Hlen; lia).
    change (Z.to_nat 8) with 8%nat. rewrite take_ge by (rewrite Hlen; lia).
    rewrite int64_small by lia. reflexivity. }
  rewrite Hfp. cbn [fp_size fp_mtime fp_hash].
  repeat split; try assumption; try reflexivity; apply fnv1a_reference_range.
Qed.

Lemma compute_archive_fingerprint_spec_witness :
  0 < Z.of_nat (length Samples.rar_magic) <= OFF_MAX /\
  compute_archive_fingerprint LittleEndian (Some Samples.rar_magic) 4 1700000000
  = mk_fingerprint
      (fnv1a_reference
         (uint64_bytes LittleEndian (fnv1a_reference Samples.rar_magic)))
      4 1700000000.
Proof.
  assert (Hn : 0 < Z.of_nat (length Samples.rar_magic) <= OFF_MAX)
    by (unfold OFF_MAX; cbn; lia).
  pose proof (compute_archive_fingerprint_spec LittleEndian Samples.rar_magic
                1700000000 Hn) as (Hs & Hm & Hh & _).
  split; [exact Hn|].
  change (Z.of_nat (length Samples.rar_magic)) with 4 in Hs, Hm, Hh.
  destruct (compute_archive_fingerprint LittleEndian (Some Samples.rar_magic) 4
              1700000000) as [h s m].
  cbv beta iota delta [fp_size fp_mtime fp_hash] in Hs, Hm, Hh.
  rewrite Hs, Hm, Hh. vm_compute. reflexivity.
Defined.

(** A NULL or empty buffer gives the zero fingerprint. *)
Lemma compute_archive_fingerprint_invalid bo data t :
  compute_archive_fingerprint bo None 0 t = fp_zero /\
  compute_archive_fingerprint bo (Some data) 0 t = fp_zero.
Proof. split; reflexivity. Qed.

Example fnv1a_hash_64_test_vector :
  fnv1a_hash_64 [] 0 = 0xcbf29ce484222325 /\
  fnv1a_hash_64 [Byte.x61] 1 = 0xaf63dc4c8601ec8c.
Proof. split; vm_compute; reflexivity. Qed.

(** ** Extraction to memory *)

Section Callback.

Variable b : extract_buffer.
Variable c : callback_call.
Hypothesis Hb : buffer_wf b.
Hypothesis Hc : chunk_wf c.

(** What one invocation does, by cases, with the [size_t] arithmetic
    resolved. *)
Lemma run_call_cases :
  run_call b c =
  if negb (call_msg c =? UCM_PROCESSDATA) then (1, b)
  else if negb (buf_error b =? 0) then (-1, b)
  else match call_P1 c with
       | None => (1, b)
       | Some d =>
           let n := Z.of_nat (length d) in
           if n =? 0 then (1, b)
           else if buf_size b + n >? buf_capacity b then
             if grown_capacity b n >? ONE_GIB then (-1, set_buf_error 1 b)
             else if negb (call_realloc_ok c) then (-1, set_buf_error 1 b)
             else (1, mk_buffer (buf_data b ++ d) (buf_size b + n)
                                (grown_capacity b n) (buf_error b))
           else (1, mk_buffer (buf_data b ++ d) (buf_size b + n)
                              (buf_capacity b) (buf_error b))
       end.
Proof using Hb Hc.
  unfold run_call, extract_to_memory_callback, copy_chunk, set_buf_capacity.
  cbn [buf_data buf_size buf_capacity buf_error].
  destruct (negb (call_msg c =? UCM_PROCESSDATA)); [reflexivity|].
  destruct (negb (buf_error b =? 0)); [reflexivity|].
  unfold chunk_wf in Hc. destruct (call_P1 c) as [d|]; [|reflexivity].
  destruct Hc as [HP2 Hmax]. destruct Hb as [Hsz [Hle Hcap]].
  unfold LONG_MAX, ONE_GIB in *. cbv zeta.
  rewrite HP2 in *.
  rewrite (uint64_small (Z.of_nat (length d))) by lia.
  destruct (Z.of_nat (length d) =? 0); [reflexivity|].
  rewrite !(uint64_small (buf_size b + Z.of_nat (length d))) by lia.
  rewrite (uint64_small (buf_capacity b * 2)) by lia.
  assert (Hg : (if buf_capacity b * 2 <? buf_size b + Z.of_nat (length d)
                then buf_size b + Z.of_nat (length d)
                else buf_capacity b * 2)
               = grown_capacity b (Z.of_nat (length d))).
  { unfold grown_capacity.
    destruct (buf_capacity b * 2 <? buf_size b + Z.of_nat (length d)) eqn:E;
      zify_bool; lia. }
  rewrite Hg, Nat2Z.id, take_ge by lia. reflexivity.
Qed.

Lemma run_call_wf : buffer_wf (snd (run_call b c)).
Proof using Hb Hc.
  rewrite run_call_cases.
  destruct (negb (call_msg c =? UCM_PROCESSDATA)); [exact Hb|].
  destruct (negb (buf_error b =? 0)); [exact Hb|].
  destruct (call_P1 c) as [d|]; [|exact Hb]. cbv zeta.
  destruct (Z.of_nat (length d) =? 0); [exact Hb|].
  destruct Hb as [Hsz [Hle Hcap]]. unfold ONE_GIB in *.
  destruct (buf_size b + Z.of_nat (length d) >? buf_capacity b) eqn:E1.
  - destruct (grown_capacity b (Z.of_nat (length d)) >? 1024 * 1024 * 1024)
      eqn:E2; [split; [exact Hsz|split; assumption]|].
    destruct (negb (call_realloc_ok c));
      [split; [exact Hsz|split; assumption]|].
    zify_bool. unfold buffer_wf, grown_capacity, ONE_GIB in *. cbn.
    rewrite length_app. lia.
  - zify_bool. unfold buffer_wf, ONE_GIB. cbn. rewrite length_app. lia.
Qed.

End Callback.

Lemma run_calls_wf cs : forall b,
  buffer_wf b -> Forall chunk_wf cs -> buffer_wf (run_calls b cs).
Proof.
  induction cs as [|c cs IH]; intros b Hb Hcs; [exact Hb|].
  inversion Hcs as [|? ? Hc Hcs']; subst.
  unfold run_calls. cbn [fold_left]. apply IH; [|exact Hcs'].
  apply run_call_wf; assumption.
Qed.

(** With the error flag set an invocation leaves the buffer as it is. *)
Lemma run_call_flagged b c :
  buf_error b <> 0 ->
  snd (run_call b c) = b /\
  (call_msg c = UCM_PROCESSDATA -> fst (run_call b c) = -1).
Proof.
  intros Herr. unfold run_call, extract_to_memory_callback.
  destruct (call_msg c =? UCM_PROCESSDATA) eqn:Em; cbn [negb].
  - destruct (buf_error b =? 0) eqn:Ee; [zify_bool; congruence|].
    cbn [negb]. split; reflexivity.
  - split; [reflexivity|]. zify_bool. congruence.
Qed.

Lemma run_calls_flagged cs : forall b,
  buf_error b <> 0 -> run_calls b cs = b.
Proof.
  induction cs as [|c cs IH]; intros b Herr; [reflexivity|].
  unfold run_calls. cbn [fold_left].
  rewrite (proj1 (run_call_flagged b c Herr)). apply IH. exact Herr.
Qed.

(** C6. Starting from a well-formed buffer (such as the empty one), after
    any number of invocations of the callback with chunks of the
    announced length the buffer holds at most 1 GiB.  A chunk that does not
    fit and for which the callback would ask for more than 1 GiB is
    answered with -1: the error flag of the buffer is 1 afterwards, its
    data, size and capacity are those from before (the chunk is not
    copied), and whatever is fed to the callback after it, the buffer stays
    as that call left it and every data chunk is answered with -1.  In
    general, with the error flag set, no invocation changes the buffer and
    every data chunk is answered with -1. *)
Theorem extract_buffer_capped (b : extract_buffer) (cs : list callback_call) :
  buffer_wf b -> Forall chunk_wf cs ->
  (forall k, buffer_wf (run_calls b (take k cs)) /\
             buf_size (run_calls b (take k cs)) <= ONE_GIB /\
             Z.of_nat (length (buf_data (run_calls b (take k cs)))) <= ONE_GIB) /\
  (forall c d, chunk_wf c -> call_msg c = UCM_PROCESSDATA -> call_P1 c = Some d ->
     forall b0, buffer_wf b0 -> buf_error b0 = 0 ->
     d <> [] ->
     buf_size b0 + Z.of_nat (length d) > buf_capacity b0 ->
     grown_capacity b0 (Z.of_nat (length d)) > ONE_GIB ->
     let b1 := snd (run_call b0 c) in
     fst (run_call b0 c) = -1 /\
     buf_error b1 = 1 /\
     buf_data b1 = buf_data b0 /\
     buf_size b1 = buf_size b0 /\
     buf_capacity b1 = buf_capacity b0 /\
     forall later,
       run_calls b1 later = b1 /\
       forall c', In c' later -> call_msg c' = UCM_PROCESSDATA ->
                  run_call b1 c' = (-1, b1)) /\
  (forall c b0, buf_error b0 <> 0 ->
     snd (run_call b0 c) = b0 /\
     (call_msg c = UCM_PROCESSDATA -> fst (run_call b0 c) = -1)).
Proof.
  intros Hb Hcs. split; [|split].
  - intros k.
    assert (Hwf : buffer_wf (run_calls b (take k cs))).
    { apply run_calls_wf; [exact Hb|]. apply Forall_take. exact Hcs. }
    split; [exact Hwf|]. destruct Hwf as [Hsz [Hle Hcap]]. lia.
  - intros c d Hc Hmsg HP1 b0 Hb0 Herr Hd Hfit Hgrow b1.
    assert (Hrun : run_call b0 c = (-1, set_buf_error 1 b0)).
    { rewrite (run_call_cases b0 c Hb0 Hc), Hmsg, Herr, HP1. cbn [negb Z.eqb].
      rewrite Z.eqb_refl. cbn [negb]. cbv zeta.
      destruct (Z.of_nat (length d) =? 0) eqn:E0;
        [zify_bool; destruct d; [congruence|cbn in E0; lia]|].
      destruct (buf_size b0 + Z.of_nat (length d) >? buf_capacity b0) eqn:E1;
        [|zify_bool; lia].
      destruct (grown_capacity b0 (Z.of_nat (length d)) >? ONE_GIB) eqn:E2;
        [reflexivity|zify_bool; lia]. }
    assert (Hflag : buf_error b1 = 1) by (subst b1; rewrite Hrun; reflexivity).
    split; [rewrite Hrun; reflexivity|]. split; [exact Hflag|].
    split; [subst b1; rewrite Hrun; reflexivity|].
    split; [subst b1; rewrite Hrun; reflexivity|].
    split; [subst b1; rewrite Hrun; reflexivity|].
    assert (Hset : buf_error b1 <> 0) by lia.
    intros later. split; [apply run_calls_flagged; exact Hset|].
    intros c' _ Hmsg'.
    destruct (run_call_flagged b1 c' Hset) as [Hsnd Hfst].
    specialize (Hfst Hmsg').
    destruct (run_call b1 c') as [r b2]. cbn [fst snd] in Hsnd, Hfst.
    congruence.
  - intros c b0 Herr. apply run_call_flagged. exact Herr.
Qed.

(** Two chunks into the empty buffer; and a chunk of four bytes offered
    to a buffer that holds 1 GiB, which would need a capacity of 2 GiB. *)
Lemma extract_buffer_capped_witness :
  buffer_wf empty_buffer /\
  Forall chunk_wf [Samples.magic_chunk; Samples.magic_chunk] /\
  buf_size (run_calls empty_buffer [Samples.magic_chunk; Samples.magic_chunk]) = 8 /\
  buf_size (run_calls empty_buffer [Samples.magic_chunk; Samples.magic_chunk])
  <= ONE_GIB /\
  buffer_wf Samples.full_buffer /\
  buf_error Samples.full_buffer = 0 /\
  grown_capacity Samples.full_buffer 4 = 2 * ONE_GIB /\
  fst (run_call Samples.full_buffer Samples.magic_chunk) = -1 /\
  buf_error (snd (run_call Samples.full_buffer Samples.magic_chunk)) = 1 /\
  buf_size (snd (run_call Samples.full_buffer Samples.magic_chunk)) = ONE_GIB /\
  buf_size (run_calls (snd (run_call Samples.full_buffer Samples.magic_chunk))
                      [Samples.magic_chunk; Samples.magic_chunk]) = ONE_GIB.
Proof.
  assert (Hb : buffer_wf empty_buffer) by (unfold buffer_wf, ONE_GIB; cbn; lia).
  assert (Hc : chunk_wf Samples.magic_chunk)
    by (unfold chunk_wf, LONG_MAX; cbn; lia).
  assert (Hcs : Forall chunk_wf [Samples.magic_chunk; Samples.magic_chunk])
    by (apply Forall_cons; split; [exact Hc|];
        apply Forall_cons; split; [exact Hc|apply Forall_nil_2]).
  assert (Hfull : buffer_wf Samples.full_buffer).
  { unfold buffer_wf, Samples.full_buffer.
    cbn [buf_data buf_size buf_capacity].
    rewrite length_replicate, Z2Nat.id by (unfold ONE_GIB; lia).
    unfold ONE_GIB. lia. }
  pose proof (extract_buffer_capped empty_buffer _ Hb Hcs) as (Hcap & Hover & _).
  destruct (Hcap 2%nat) as (_ & Hle & _).
  assert (Hgrow : grown_capacity Samples.full_buffer 4 = 2 * ONE_GIB)
    by reflexivity.
  destruct (Hover Samples.magic_chunk
              [Byte.x52; Byte.x61; Byte.x72; Byte.x21] Hc eq_refl eq_refl
              Samples.full_buffer Hfull eq_refl
              ltac:(discriminate) ltac:(reflexivity) ltac:(reflexivity))
    as (Hret & Hflag & _ & Hsize & _ & Hlater).
  split; [exact Hb|]. split; [exact Hcs|]. split; [reflexivity|].
  split; [exact Hle|]. split; [exact Hfull|]. split; [reflexivity|].
  split; [exact Hgrow|]. split; [exact Hret|]. split; [exact Hflag|].
  split; [exact Hsize|].
  rewrite (proj1 (Hlater [Samples.magic_chunk; Samples.magic_chunk])).
  exact Hsize.
Defined.

(** ** Path sanitization *)

Section Characters.

Lemma is_slash_eq c : is_slash c = true <-> c = "/"%char.
Proof. apply Ascii.eqb_eq. Qed.

Lemma is_dot_eq c : is_dot c = true <-> c = "."%char.
Proof. apply Ascii.eqb_eq. Qed.

Lemma is_backslash_eq c : is_backslash c = true <-> c = "\"%char.
Proof. apply Ascii.eqb_eq. Qed.

Lemma dot_not_separator c :
  is_dot c = true -> is_slash c = false /\ is_backslash c = false.
Proof. intros H. apply is_dot_eq in H. subst c. split; reflexivity. Qed.

End Characters.

Lemma normalize_no_backslash s : Forall no_backslash (normalize_slashes s).
Proof.
  unfold normalize_slashes. apply Forall_forall. intros c Hc.
  apply list_elem_of_In, in_map_iff in Hc. destruct Hc as (x & Hx & _).
  unfold no_backslash. destruct (is_backslash x) eqn:E; subst c;
    [reflexivity|exact E].
Qed.

Lemma normalize_length s : length (normalize_slashes s) = length s.
Proof. apply length_map. Qed.

(** One turn of the scanning loop. *)
Lemma strip_scan_step s :
  strip_scan s =
  match s with
  | [] => []
  | c0 :: t1 =>
      if dotdot_here s then strip_scan (drop 3 s) else c0 :: strip_scan t1
  end.
Proof.
  destruct s as [|c0 [|c1 [|c2 t3]]]; try reflexivity.
  change (strip_scan (c0 :: c1 :: c2 :: t3))
    with (if dotdot_here (c0 :: c1 :: c2 :: t3)
          then (if is_slash c2 || is_backslash c2
                then strip_scan t3 else strip_scan (c2 :: t3))
          else c0 :: strip_scan (c1 :: c2 :: t3)).
  unfold dotdot_here.
  destruct (is_dot c0 && is_dot c1); cbn [andb drop]; [|reflexivity].
  destruct (is_slash c2 || is_backslash c2); reflexivity.
Qed.

(** The scan only deletes: what it keeps is in the source, in order. *)
Lemma strip_scan_sublist s : sublist (strip_scan s) s.
Proof.
  remember (length s) as n eqn:Hn. revert s Hn.
  induction n as [n IH] using lt_wf_ind. intros s Hn.
  rewrite strip_scan_step. destruct s as [|c0 t1]; [constructor|].
  destruct (dotdot_here (c0 :: t1)).
  - etransitivity; [apply (IH (length (drop 3 (c0 :: t1))))|].
    + subst n. rewrite length_drop. cbn. lia.
    + reflexivity.
    + apply sublist_drop.
  - apply sublist_skip. apply (IH (length t1)); [subst n; cbn; lia|reflexivity].
Qed.

Lemma strip_scan_no_backslash s :
  Forall no_backslash s -> Forall no_backslash (strip_scan s).
Proof.
  intros H. rewrite Forall_forall in *. intros c Hc.
  apply H. eapply elem_of_sublist; [exact Hc|apply strip_scan_sublist].
Qed.

(** *** Components *)

Lemma components_nonempty s : components s <> [].
Proof.
  destruct s as [|c s']; cbn; [discriminate|].
  destruct (is_slash c); [discriminate|].
  destruct (components s'); discriminate.
Qed.

Lemma components_cons_noslash c s :
  is_slash c = false ->
  components (c :: s)
  = (c :: hd [] (components s)) :: tl (components s).
Proof.
  intros H. cbn [components]. rewrite H.
  pose proof (components_nonempty s).
  destruct (components s); [congruence|reflexivity].
Qed.

Lemma components_app_slash comp t :
  Forall no_slash comp ->
  components (comp ++ "/"%char :: t) = comp :: components t.
Proof.
  induction 1 as [|c comp Hc Hcomp IH]; [reflexivity|].
  change ((c :: comp) ++ "/"%char :: t) with (c :: (comp ++ "/"%char :: t)).
  rewrite components_cons_noslash by exact Hc. rewrite IH. reflexivity.
Qed.

Lemma components_noslash comp :
  Forall no_slash comp -> components comp = [comp].
Proof.
  induction 1 as [|c comp Hc Hcomp IH]; [reflexivity|].
  rewrite components_cons_noslash by exact Hc. rewrite IH. reflexivity.
Qed.

Lemma components_noslash_each s : Forall (Forall no_slash) (components s).
Proof.
  induction s as [|c s IH]; [repeat constructor|].
  cbn [components]. destruct (is_slash c) eqn:E.
  - constructor; [constructor|exact IH].
  - pose proof (components_nonempty s).
    destruct (components s) as [|comp rest]; [congruence|].
    inversion IH; subst. constructor; [constructor; assumption|assumption].
Qed.

Lemma components_forall (P : ascii -> Prop) s :
  Forall P s -> Forall (Forall P) (components s).
Proof.
  induction 1 as [|c s Hc Hs IH]; [repeat constructor|].
  cbn [components]. destruct (is_slash c).
  - constructor; [constructor|exact IH].
  - pose proof (components_nonempty s).
    destruct (components s) as [|comp rest]; [congruence|].
    inversion IH; subst. constructor; [constructor; assumption|assumption].
Qed.

Lemma join_components s : join (components s) = s.
Proof.
  induction s as [|c s IH]; [reflexivity|].
  cbn [components]. destruct (is_slash c) eqn:E.
  - apply is_slash_eq in E. subst c.
    pose proof (components_nonempty s).
    destruct (components s) as [|comp rest] eqn:Ec; [congruence|].
    cbn [join app]. cbn [join] in IH. rewrite IH. reflexivity.
  - pose proof (components_nonempty s).
    destruct (components s) as [|comp rest] eqn:Ec; [congruence|].
    destruct rest as [|comp2 rest]; cbn [join app] in *; rewrite IH; reflexivity.
Qed.

Lemma hd_components_noslash c s :
  is_slash c = false ->
  hd [] (components (c :: s)) = c :: hd [] (components s).
Proof. intros H. rewrite components_cons_noslash by exact H. reflexivity. Qed.

Lemma hd_components_slash c s :
  is_slash c = true -> hd [] (components (c :: s)) = [].
Proof. intros H. cbn [components]. rewrite H. reflexivity. Qed.

(** The check after the scan looks at the first component. *)
Lemma leading_dotdot_first_component r :
  leading_dotdot r = is_dotdot (hd [] (components r)).
Proof.
  destruct r as [|c0 r1]; [reflexivity|].
  destruct (is_slash c0) eqn:S0.
  { rewrite hd_components_slash by exact S0.
    apply is_slash_eq in S0. subst c0. destruct r1; reflexivity. }
  rewrite hd_components_noslash by exact S0.
  destruct r1 as [|c1 r2]; [reflexivity|].
  destruct (is_slash c1) eqn:S1.
  { rewrite hd_components_slash by exact S1.
    apply is_slash_eq in S1. subst c1. cbn.
    rewrite andb_false_r. reflexivity. }
  rewrite hd_components_noslash by exact S1.
  destruct r2 as [|c2 r3]; [cbn; rewrite andb_true_r; reflexivity|].
  destruct (is_slash c2) eqn:S2.
  { rewrite hd_components_slash by exact S2. cbn.
    rewrite S2, andb_true_r. reflexivity. }
  rewrite hd_components_noslash by exact S2.
  cbn. rewrite S2. apply andb_false_r.
Qed.

(** *** The scan on paths whose two-dot runs are whole components *)

Lemma is_dotdot_inv comp :
  is_dotdot comp = true -> comp = cstr "..".
Proof.
  destruct comp as [|a [|b [|c q]]]; cbn; try discriminate.
  intros H. apply andb_true_iff in H. destruct H as [Ha Hb].
  apply is_dot_eq in Ha, Hb. subst. reflexivity.
Qed.

Lemma ends_with_dotdot_cons x comp :
  ends_with_dotdot comp = true -> ends_with_dotdot (x :: comp) = true.
Proof.
  unfold ends_with_dotdot. cbn [rev].
  destruct (rev comp) as [|a [|b q]]; try discriminate.
  intros H. exact H.
Qed.

Lemma is_dotdot_ends comp : is_dotdot comp = true -> ends_with_dotdot comp = true.
Proof. intros H. apply is_dotdot_inv in H. subst. reflexivity. Qed.

Lemma scan_slash t : strip_scan ("/"%char :: t) = "/"%char :: strip_scan t.
Proof. rewrite strip_scan_step. destruct t; reflexivity. Qed.

Lemma scan_dotdot_slash comp t :
  is_dotdot comp = true -> strip_scan (comp ++ "/"%char :: t) = strip_scan t.
Proof.
  intros H. apply is_dotdot_inv in H. subst comp.
  rewrite strip_scan_step. reflexivity.
Qed.

Lemma scan_dotdot_end comp : is_dotdot comp = true -> strip_scan comp = [].
Proof. intros H. apply is_dotdot_inv in H. subst comp. reflexivity. Qed.

(** A component that does not end in two dots is copied as it is. *)
Lemma scan_component comp : forall tail,
  Forall no_slash comp -> Forall no_backslash comp ->
  ends_with_dotdot comp = false ->
  tail = [] \/ (exists t, tail = "/"%char :: t) ->
  strip_scan (comp ++ tail) = comp ++ strip_scan tail.
Proof.
  induction comp as [|x comp IH]; intros tail Hs Hb He Ht; [reflexivity|].
  inversion Hs as [|? ? Hsx Hs']; subst. inversion Hb as [|? ? Hbx Hb']; subst.
  assert (He' : ends_with_dotdot comp = false).
  { destruct (ends_with_dotdot comp) eqn:E; [|reflexivity].
    rewrite (ends_with_dotdot_cons x comp E) in He. discriminate. }
  rewrite strip_scan_step.
  change ((x :: comp) ++ tail) with (x :: (comp ++ tail)).
  assert (Hd : dotdot_here (x :: (comp ++ tail)) = false).
  { destruct comp as [|y [|z w]].
    - destruct Ht as [-> | [t ->]]; cbn; [reflexivity|].
      rewrite andb_false_r. reflexivity.
    - cbn in He. cbn [app dotdot_here].
      rewrite (andb_comm (is_dot x)), He. reflexivity.
    - inversion Hs' as [|? ? _ Hs'']; subst. inversion Hs'' as [|? ? Hsz _]; subst.
      inversion Hb' as [|? ? _ Hb'']; subst. inversion Hb'' as [|? ? Hbz _]; subst.
      cbn [app dotdot_here]. unfold no_slash, no_backslash in *.
      rewrite Hsz, Hbz. cbn. apply andb_false_r. }
  rewrite Hd. cbn [app]. f_equal. apply IH; assumption.
Qed.

Theorem strip_scan_components cs :
  cs <> [] ->
  Forall (Forall no_slash) cs -> Forall (Forall no_backslash) cs ->
  forallb tidy cs = true ->
  strip_scan (join cs) = remove_dotdot_components cs.
Proof.
  induction cs as [|c [|c' rest] IH]; intros Hne Hs Hb Ht; [congruence| |].
  - cbn in Ht. rewrite andb_true_r in Ht. cbn [join remove_dotdot_components].
    destruct (is_dotdot c) eqn:E; [apply scan_dotdot_end; exact E|].
    unfold tidy in Ht. rewrite E in Ht. cbn in Ht. apply negb_true_iff in Ht.
    inversion Hs; subst. inversion Hb; subst.
    rewrite <- (app_nil_r c) at 1. rewrite scan_component; auto.
    cbn. apply app_nil_r.
  - cbn [forallb] in Ht. apply andb_true_iff in Ht. destruct Ht as [Htc Ht].
    inversion Hs as [|? ? Hsc Hs']; subst. inversion Hb as [|? ? Hbc Hb']; subst.
    specialize (IH ltac:(discriminate) Hs' Hb' Ht).
    change (join (c :: c' :: rest)) with (c ++ "/"%char :: join (c' :: rest)).
    change (remove_dotdot_components (c :: c' :: rest))
      with ((if is_dotdot c then [] else c ++ ["/"%char])
            ++ remove_dotdot_components (c' :: rest)).
    destruct (is_dotdot c) eqn:E.
    + rewrite scan_dotdot_slash by exact E. exact IH.
    + unfold tidy in Htc. rewrite E in Htc. cbn in Htc. apply negb_true_iff in Htc.
      rewrite scan_component; eauto.
      rewrite scan_slash, IH, <- app_assoc. reflexivity.
Qed.

Lemma remove_dotdot_components_clean cs :
  cs <> [] -> Forall (Forall no_slash) cs ->
  has_dotdot_component (remove_dotdot_components cs) = false.
Proof.
  unfold has_dotdot_component.
  induction cs as [|c [|c' rest] IH]; intros Hne Hs; [congruence| |].
  - cbn [remove_dotdot_components]. inversion Hs; subst.
    destruct (is_dotdot c) eqn:E; [reflexivity|].
    rewrite components_noslash by assumption. cbn. rewrite E. reflexivity.
  - inversion Hs as [|? ? Hsc Hs']; subst.
    specialize (IH ltac:(discriminate) Hs').
    change (remove_dotdot_components (c :: c' :: rest))
      with ((if is_dotdot c then [] else c ++ ["/"%char])
            ++ remove_dotdot_components (c' :: rest)).
    destruct (is_dotdot c) eqn:E; [exact IH|].
    rewrite <- app_assoc. cbn [app].
    rewrite components_app_slash by exact Hsc.
    cbn [existsb]. rewrite E, IH. reflexivity.
Qed.

(** *** The UTF-8 check *)

Lemma forall_ascii (P : ascii -> bool) :
  forallb P all_ascii = true -> forall a, P a = true.
Proof.
  intros H a. rewrite forallb_forall in H. apply H.
  unfold all_ascii. apply in_map_iff. exists (nat_of_ascii a). split.
  - apply ascii_nat_embedding.
  - apply in_seq. pose proof (nat_ascii_bounded a). lia.
Qed.

Lemma forall_ascii2 (P : ascii -> ascii -> bool) :
  forallb (fun a => forallb (P a) all_ascii) all_ascii = true ->
  forall a b, P a b = true.
Proof.
  intros H a b.
  apply (forall_ascii (P a)). apply (forall_ascii _ H).
Qed.

Lemma peek_cons_0 a q : peek (a :: q) 0 = uchar a.
Proof. reflexivity. Qed.

Lemma peek_cons_S a q k : peek (a :: q) (S k) = peek q k.
Proof. reflexivity. Qed.

(** The end of the string is not a continuation byte. *)
Lemma continuation_peek q :
  (Z.land (peek q 0) 0xC0 =? 0x80) = true ->
  exists a q', q = a :: q' /\ is_continuation a = true.
Proof.
  destruct q as [|a q']; [discriminate|]. intros H. exists a, q'. split;
    [reflexivity|exact H].
Qed.

Lemma peek_is_uchar q : exists a, peek q 0 = uchar a.
Proof.
  destruct q as [|a q']; [exists zero; reflexivity|exists a; reflexivity].
Qed.

Lemma ok_ascii_byte : forall a nx,
  implb (Z.land (uchar a) 0x80 =? 0) (utf8_byte_ok (uchar a) (uchar nx)) = true.
Proof. apply forall_ascii2. vm_compute. reflexivity. Qed.

Lemma ok_continuation_byte : forall a nx,
  implb (is_continuation a) (utf8_byte_ok (uchar a) (uchar nx)) = true.
Proof. apply forall_ascii2. vm_compute. reflexivity. Qed.

Lemma ok_two_byte_start : forall a nx,
  implb ((Z.land (uchar a) 0xE0 =? 0xC0)
         && negb (Z.land (uchar a) 0xFE =? 0xC0))
        (utf8_byte_ok (uchar a) (uchar nx)) = true.
Proof. apply forall_ascii2. vm_compute. reflexivity. Qed.

Lemma ok_three_byte_start : forall a nx,
  implb ((Z.land (uchar a) 0xF0 =? 0xE0)
         && negb ((uchar a =? 0xE0) && (Z.land (uchar nx) 0xE0 =? 0x80)))
        (utf8_byte_ok (uchar a) (uchar nx)) = true.
Proof. apply forall_ascii2. vm_compute. reflexivity. Qed.

Lemma ok_four_byte_start : forall a nx,
  implb ((Z.land (uchar a) 0xF8 =? 0xF0)
         && negb ((uchar a =? 0xF0) && (Z.land (uchar nx) 0xF0 =? 0x80))
         && negb (uchar a >? 0xF4))
        (utf8_byte_ok (uchar a) (uchar nx)) = true.
Proof. apply forall_ascii2. vm_compute. reflexivity. Qed.

Lemma implb_elim (a b : bool) : implb a b = true -> a = true -> b = true.
Proof. destruct a, b; cbn; congruence. Qed.

Lemma no_overlong_continuation a q :
  is_continuation a = true -> no_overlong q = true ->
  no_overlong (a :: q) = true.
Proof.
  intros Ha Hq. cbn [no_overlong]. rewrite Hq, andb_true_r.
  destruct (peek_is_uchar q) as [nx ->].
  exact (implb_elim _ _ (ok_continuation_byte a nx) Ha).
Qed.

(** A string that passes the check has no overlong form and no start byte
    above F4. *)
Lemma utf8_loop_no_overlong s : utf8_loop s = true -> no_overlong s = true.
Proof.
  remember (length s) as n eqn:Hn. revert s Hn.
  induction n as [n IH] using lt_wf_ind. intros s Hn Hs.
  destruct s as [|b0 t1]; [reflexivity|].
  cbn [utf8_loop] in Hs. cbv zeta in Hs.
  rewrite !peek_cons_S in Hs.
  cbn [no_overlong].
  destruct (Z.land (uchar b0) 0x80 =? 0) eqn:C1.
  { apply andb_true_iff. split.
    - destruct (peek_is_uchar t1) as [nx ->].
      exact (implb_elim _ _ (ok_ascii_byte b0 nx) C1).
    - apply (IH (length t1)); [subst n; cbn; lia|reflexivity|exact Hs]. }
  destruct (Z.land (uchar b0) 0xE0 =? 0xC0) eqn:C2.
  { destruct (Z.land (peek t1 0) 0xC0 =? 0x80) eqn:K1; [|discriminate].
    cbn [negb] in Hs.
    destruct (Z.land (uchar b0) 0xFE =? 0xC0) eqn:O2; [discriminate|].
    destruct (continuation_peek _ K1) as (a1 & t2 & -> & Ha1).
    apply andb_true_iff. split.
    - rewrite peek_cons_0.
      apply (implb_elim _ _ (ok_two_byte_start b0 a1)). rewrite C2, O2. reflexivity.
    - apply no_overlong_continuation; [exact Ha1|].
      apply (IH (length t2)); [subst n; cbn; lia|reflexivity|exact Hs]. }
  destruct (Z.land (uchar b0) 0xF0 =? 0xE0) eqn:C3.
  { destruct (Z.land (peek t1 0) 0xC0 =? 0x80) eqn:K1; [|discriminate].
    destruct (continuation_peek _ K1) as (a1 & t2 & -> & Ha1).
    rewrite peek_cons_S, peek_cons_0 in Hs.
    destruct (Z.land (peek t2 0) 0xC0 =? 0x80) eqn:K2; [|discriminate].
    destruct (continuation_peek _ K2) as (a2 & t3 & -> & Ha2).
    cbn [negb orb] in Hs.
    destruct ((uchar b0 =? 0xE0) && (Z.land (uchar a1) 0xE0 =? 0x80)) eqn:O3;
      [discriminate|].
    apply andb_true_iff. split.
    - rewrite peek_cons_0.
      apply (implb_elim _ _ (ok_three_byte_start b0 a1)). rewrite C3, O3. reflexivity.
    - do 2 (apply no_overlong_continuation; [assumption|]).
      apply (IH (length t3)); [subst n; cbn; lia|reflexivity|exact Hs]. }
  destruct (Z.land (uchar b0) 0xF8 =? 0xF0) eqn:C4; [|discriminate].
  destruct (Z.land (peek t1 0) 0xC0 =? 0x80) eqn:K1; [|discriminate].
  destruct (continuation_peek _ K1) as (a1 & t2 & -> & Ha1).
  rewrite !peek_cons_S, !peek_cons_0 in Hs.
  destruct (Z.land (peek t2 0) 0xC0 =? 0x80) eqn:K2; [|discriminate].
  destruct (continuation_peek _ K2) as (a2 & t3 & -> & Ha2).
  rewrite !peek_cons_S in Hs.
  destruct (Z.land (peek t3 0) 0xC0 =? 0x80) eqn:K3; [|discriminate].
  destruct (continuation_peek _ K3) as (a3 & t4 & -> & Ha3).
  cbn [negb orb] in Hs.
  destruct ((uchar b0 =? 0xF0) && (Z.land (uchar a1) 0xF0 =? 0x80)) eqn:O4;
    [discriminate|].
  destruct (uchar b0 >? 0xF4) eqn:H4; [discriminate|].
  apply andb_true_iff. split.
  - rewrite peek_cons_0.
    apply (implb_elim _ _ (ok_four_byte_start b0 a1)). rewrite C4, O4, H4. reflexivity.
  - do 3 (apply no_overlong_continuation; [assumption|]).
    apply (IH (length t4)); [subst n; cbn; lia|reflexivity|exact Hs].
Qed.

(** *** The sanitizer *)

Lemma is_absolute_path_iff s :
  is_absolute_path (Some s) = true <->
  exists c rest, s = c :: rest /\ (c = "/"%char \/ c = "\"%char).
Proof.
  destruct s as [|c rest]; cbn.
  - split; [discriminate|]. intros (c & rest & H & _). discriminate.
  - rewrite orb_true_iff, is_slash_eq, is_backslash_eq. split.
    + intros H. exists c, rest. split; [reflexivity|exact H].
    + intros (c' & rest' & H & Hc). inversion H; subst. exact Hc.
Qed.

Lemma is_windows_absolute_path_iff s :
  is_windows_absolute_path (Some s) = true <->
  exists c0 c2 rest, s = c0 :: ":"%char :: c2 :: rest /\
                     isalpha (uchar c0) = true /\
                     (c2 = "\"%char \/ c2 = "/"%char).
Proof.
  unfold is_windows_absolute_path, strlen.
  destruct s as [|c0 [|c1 [|c2 rest]]];
    try (split; [discriminate|intros (? & ? & ? & H & _); discriminate]).
  destruct (Z.of_nat (length (c0 :: c1 :: c2 :: rest)) <? 3) eqn:E;
    [zify_bool; cbn [length] in E; lia|].
  rewrite !andb_true_iff, orb_true_iff, is_slash_eq, is_backslash_eq, Ascii.eqb_eq.
  split.
  - intros [[Ha Hc] Hs]. subst c1. exists c0, c2, rest. auto.
  - intros (a & b & r & H & Ha & Hs). inversion H; subst. auto.
Qed.

(** The sanitizer as one test: the checks in the order of the source. *)
Lemma sanitize_nested_path_cases s strdup_ok malloc_ok :
  sanitize_nested_path (Some s) strdup_ok malloc_ok =
  let stripped := strip_scan (normalize_slashes s) in
  if (strlen s =? 0) || (strlen s >? MAX_NESTED_PATH_LENGTH)
     || is_absolute_path (Some s) || is_windows_absolute_path (Some s)
     || negb (is_valid_utf8 (Some s)) || negb strdup_ok || negb malloc_ok
     || leading_dotdot stripped
     || match stripped with [] => true | _ => false end
  then None else Some stripped.
Proof.
  unfold sanitize_nested_path, strip_dotdot_components. cbv zeta.
  destruct (strlen s =? 0); [reflexivity|].
  destruct (strlen s >? MAX_NESTED_PATH_LENGTH); [reflexivity|].
  destruct (is_absolute_path (Some s)); [reflexivity|].
  destruct (is_windows_absolute_path (Some s)); [reflexivity|].
  destruct (is_valid_utf8 (Some s)); [|reflexivity].
  destruct strdup_ok; [|reflexivity].
  destruct malloc_ok; [|reflexivity].
  cbn [negb orb].
  destruct (leading_dotdot (strip_scan (normalize_slashes s))); [reflexivity|].
  destruct (strip_scan (normalize_slashes s)); reflexivity.
Qed.

Lemma remove_dotdot_components_first cs :
  cs <> [] -> Forall (Forall no_slash) cs ->
  leading_dotdot (remove_dotdot_components cs) = false.
Proof.
  intros Hne Hs. rewrite leading_dotdot_first_component.
  pose proof (remove_dotdot_components_clean cs Hne Hs) as Hc.
  unfold has_dotdot_component in Hc.
  pose proof (components_nonempty (remove_dotdot_components cs)) as Hn.
  destruct (components (remove_dotdot_components cs)) as [|c0 q]; [congruence|].
  cbn [existsb] in Hc. apply orb_false_iff in Hc. apply Hc.
Qed.

(** What [sanitize_nested_path] does as it is written.  For every input
    string it returns NULL exactly when the string is empty, longer than 4096 bytes, absolute
    (first character a slash or a backslash), a drive-letter path, refused
    by the UTF-8 check, when one of its two allocations fails, or when what
    the strip loop leaves of the normalized string is empty or still begins
    with a two-dot component; a result is non-empty, is made of characters
    of the input in their order with every backslash turned into a slash,
    and does not begin with a two-dot component, and the input then has no
    overlong UTF-8 form and no start byte above F4.  For every input string
    in which no component other than the two-dot one ends in two dots: NULL
    is returned exactly when the string is empty, too long, absolute, a
    drive-letter path, refused by the UTF-8 check, when an allocation
    fails, or when nothing is left once the two-dot components are removed;
    otherwise the result is the input with every backslash replaced by a
    slash and every two-dot component removed with the slash after it, and
    it has no two-dot component. *)
Theorem sanitize_nested_path_spec (s : cstring) (strdup_ok malloc_ok : bool) :
  let stripped := strip_scan (normalize_slashes s) in
  let expected := remove_dotdot_components (components (normalize_slashes s)) in
  (sanitize_nested_path (Some s) strdup_ok malloc_ok = None <->
     s = [] \/ strlen s > MAX_NESTED_PATH_LENGTH \/
     is_absolute_path (Some s) = true \/
     is_windows_absolute_path (Some s) = true \/
     is_valid_utf8 (Some s) = false \/
     strdup_ok = false \/ malloc_ok = false \/
     leading_dotdot stripped = true \/ stripped = []) /\
  (forall r, sanitize_nested_path (Some s) strdup_ok malloc_ok = Some r ->
     r = stripped /\ r <> [] /\
     sublist r (normalize_slashes s) /\
     Forall no_backslash r /\
     is_dotdot (hd [] (components r)) = false /\
     no_overlong s = true) /\
  (dotdot_only_whole (normalize_slashes s) = true ->
     stripped = expected /\
     (sanitize_nested_path (Some s) strdup_ok malloc_ok = None <->
        s = [] \/ strlen s > MAX_NESTED_PATH_LENGTH \/
        is_absolute_path (Some s) = true \/
        is_windows_absolute_path (Some s) = true \/
        is_valid_utf8 (Some s) = false \/
        strdup_ok = false \/ malloc_ok = false \/ expected = []) /\
     (forall r, sanitize_nested_path (Some s) strdup_ok malloc_ok = Some r ->
        r = expected /\ has_dotdot_component r = false)).
Proof.
  intros stripped expected.
  assert (Hnull : sanitize_nested_path (Some s) strdup_ok malloc_ok = None <->
     s = [] \/ strlen s > MAX_NESTED_PATH_LENGTH \/
     is_absolute_path (Some s) = true \/
     is_windows_absolute_path (Some s) = true \/
     is_valid_utf8 (Some s) = false \/
     strdup_ok = false \/ malloc_ok = false \/
     leading_dotdot stripped = true \/ stripped = []).
  { rewrite sanitize_nested_path_cases. cbv zeta. fold stripped.
    destruct (strlen s =? 0) eqn:E0.
    { split; [|reflexivity]. intros _. left.
      zify_bool. destruct s; [reflexivity|]. unfold strlen in E0. cbn in E0. lia. }
    destruct (strlen s >? MAX_NESTED_PATH_LENGTH) eqn:E1.
    { split; [|reflexivity]. intros _. right. left. zify_bool. lia. }
    destruct (is_absolute_path (Some s)) eqn:E2; [split; [tauto|reflexivity]|].
    destruct (is_windows_absolute_path (Some s)) eqn:E3;
      [split; [tauto|reflexivity]|].
    destruct (is_valid_utf8 (Some s)) eqn:E4; [|split; [tauto|reflexivity]].
    destruct strdup_ok; [|split; [tauto|reflexivity]].
    destruct malloc_ok; [|split; [tauto|reflexivity]].
    cbn [negb orb].
    destruct (leading_dotdot stripped) eqn:E5; [split; [tauto|reflexivity]|].
    cbn [orb].
    assert (Hs0 : s <> []).
    { intros ->. unfold strlen in E0. cbn in E0. discriminate. }
    assert (Hlen : ~ strlen s > MAX_NESTED_PATH_LENGTH) by (zify_bool; lia).
    destruct stripped as [|x r']; [split; [tauto|reflexivity]|].
    split; [discriminate|].
    intros [H|[H|[H|[H|[H|[H|[H|[H|H]]]]]]]]; congruence. }
  assert (Hsome : forall r,
     sanitize_nested_path (Some s) strdup_ok malloc_ok = Some r ->
     r = stripped /\ r <> [] /\ leading_dotdot r = false /\
     is_valid_utf8 (Some s) = true).
  { intros r. rewrite sanitize_nested_path_cases. cbv zeta. fold stripped.
    destruct (strlen s =? 0); [discriminate|].
    destruct (strlen s >? MAX_NESTED_PATH_LENGTH); [discriminate|].
    destruct (is_absolute_path (Some s)); [discriminate|].
    destruct (is_windows_absolute_path (Some s)); [discriminate|].
    destruct (is_valid_utf8 (Some s)); [|discriminate].
    destruct strdup_ok; [|discriminate]. destruct malloc_ok; [|discriminate].
    cbn [negb orb].
    destruct (leading_dotdot stripped) eqn:E5; [discriminate|]. cbn [orb].
    destruct stripped as [|x r'] eqn:Es; [discriminate|].
    intros H. inversion H; subst r. repeat split; try assumption. discriminate. }
  split; [exact Hnull|]. split.
  - intros r Hr. destruct (Hsome r Hr) as (-> & Hne & Hlead & Hutf).
    split; [reflexivity|]. split; [exact Hne|].
    split; [apply strip_scan_sublist|].
    split; [apply strip_scan_no_backslash, normalize_no_backslash|].
    split; [rewrite <- leading_dotdot_first_component; exact Hlead|].
    apply utf8_loop_no_overlong. exact Hutf.
  - intros Ht. unfold dotdot_only_whole in Ht.
    assert (Heq : stripped = expected).
    { subst stripped expected.
      rewrite <- (join_components (normalize_slashes s)) at 1.
      apply strip_scan_components.
      - apply components_nonempty.
      - apply components_noslash_each.
      - apply components_forall, normalize_no_backslash.
      - exact Ht. }
    split; [exact Heq|]. split.
    + rewrite Hnull, Heq.
      assert (Hl : leading_dotdot expected = false).
      { apply remove_dotdot_components_first;
          [apply components_nonempty|apply components_noslash_each]. }
      rewrite Hl. intuition congruence.
    + intros r Hr. destruct (Hsome r Hr) as (-> & _).
      split; [exact Heq|]. rewrite Heq.
      apply remove_dotdot_components_clean;
        [apply components_nonempty|apply components_noslash_each].
Qed.

(** C1.  The strip loop of [strip_dotdot_components] tests for two dots
    before a separator or the end at every position, not only where a
    component begins.  Of a name made of four dots it leaves two: the path
    returned has a two-dot component which the input did not have, where
    removing the two-dot components would have returned the input.  Before
    two separators the same name leaves a leading two-dot component, and
    the path is refused though it is none of empty, too long, absolute,
    ill-encoded or reduced to nothing.  The UTF-8 check lets F4 90 80 80
    through, an encoding above U+10FFFF. *)
Theorem sanitize_nested_path_four_dots :
  sanitize_nested_path (Some (cstr "a/....")) true true = Some (cstr "a/..") /\
  has_dotdot_component (cstr "a/..") = true /\
  has_dotdot_component (cstr "a/....") = false /\
  remove_dotdot_components (components (normalize_slashes (cstr "a/....")))
    = cstr "a/...." /\
  sanitize_nested_path (Some (cstr "a/....//x")) true true
    = Some (cstr "a/../x") /\
  has_dotdot_component (cstr "a/../x") = true /\
  sanitize_nested_path
    (Some (map ascii_of_nat [0xF4; 0x90; 0x80; 0x80]%nat)) true true
    = Some (map ascii_of_nat [0xF4; 0x90; 0x80; 0x80]%nat) /\
  sanitize_nested_path (Some (cstr "....//x")) true true = None /\
  strlen (cstr "....//x") <= MAX_NESTED_PATH_LENGTH /\
  is_absolute_path (Some (cstr "....//x")) = false /\
  is_windows_absolute_path (Some (cstr "....//x")) = false /\
  is_valid_utf8 (Some (cstr "....//x")) = true /\
  has_dotdot_component (cstr "....//x") = false /\
  remove_dotdot_components (components (normalize_slashes (cstr "....//x")))
    = cstr "....//x" /\
  strip_scan (normalize_slashes (cstr "....//x")) = cstr "../x".
Proof.
  repeat split; try reflexivity. vm_compute. discriminate.
Qed.

(** The scan does not look for the start of a component: two dots that end
    a longer name go too, and a slash left in front makes the result
    absolute. *)
Example sanitize_nested_path_examples :
  sanitize_nested_path (Some (cstr "dir\..\file.rar")) true true
    = Some (cstr "dir/file.rar") /\
  sanitize_nested_path (Some (cstr "../../etc/passwd")) true true
    = Some (cstr "etc/passwd") /\
  sanitize_nested_path (Some (cstr "backup../data")) true true
    = Some (cstr "backupdata") /\
  sanitize_nested_path (Some (cstr "..//etc/passwd")) true true
    = Some (cstr "/etc/passwd") /\
  sanitize_nested_path (Some (cstr "C:\Windows")) true true = None /\
  sanitize_nested_path (Some (cstr "/etc/passwd")) true true = None /\
  sanitize_nested_path (Some (cstr "..")) true true = None.
Proof. repeat split; reflexivity. Qed.

(** The check lets through encodings above U+10FFFF that start with F4, and
    surrogates; it refuses start bytes above F4 and the overlong forms. *)
Example is_valid_utf8_examples :
  is_valid_utf8 (Some (map ascii_of_nat [0xF4; 0x90; 0x80; 0x80]%nat)) = true /\
  is_valid_utf8 (Some (map ascii_of_nat [0xED; 0xA0; 0x80]%nat)) = true /\
  is_valid_utf8 (Some (map ascii_of_nat [0xF5; 0x80; 0x80; 0x80]%nat)) = false /\
  is_valid_utf8 (Some (map ascii_of_nat [0xC0; 0xAF]%nat)) = false /\
  is_valid_utf8 (Some (map ascii_of_nat [0xE0; 0x80; 0xAF]%nat)) = false /\
  is_valid_utf8 (Some (map ascii_of_nat [0xF0; 0x80; 0x80; 0xAF]%nat)) = false /\
  is_valid_utf8 (Some (map ascii_of_nat [0xC3; 0xA9]%nat)) = true /\
  is_valid_utf8 (Some (map ascii_of_nat [0xC3]%nat)) = false.
Proof. repeat split; reflexivity. Qed.

(** ** String comparison *)

Lemma uchar_range c : 0 <= uchar c < 256.
Proof.
  unfold uchar. pose proof (N_ascii_bounded c) as H.
  apply N2Z.inj_lt in H. cbn in H. lia.
Qed.

(** the range of every character in the context *)
Ltac uchar_ranges :=
  repeat match goal with
  | c : ascii |- _ =>
      lazymatch goal with
      | _ : 0 <= uchar c < 256 |- _ => fail
      | _ => pose proof (uchar_range c)
      end
  end.

Lemma strcmp_refl a : strcmp a a = 0.
Proof.
  induction a as [|c a IH]; [reflexivity|]. cbn [strcmp].
  rewrite Z.eqb_refl. destruct (uchar c =? 0); [reflexivity|exact IH].
Qed.

Lemma strcmp_antisym a : forall b, strcmp b a = - strcmp a b.
Proof.
  induction a as [|c a IH]; intros [|d b]; cbn [strcmp]; try lia.
  rewrite (Z.eqb_sym (uchar d) (uchar c)).
  destruct (uchar c =? uchar d) eqn:E; [|lia].
  zify_bool. rewrite E. destruct (uchar d =? 0); [reflexivity|apply IH].
Qed.

Lemma strcmp_trans a : forall b c,
  strcmp a b <= 0 -> strcmp b c <= 0 ->
  strcmp a c <= 0 /\ (strcmp a c = 0 -> strcmp a b = 0 /\ strcmp b c = 0).
Proof.
  induction a as [|x a IH]; intros [|y b] [|z c]; cbn [strcmp];
    uchar_ranges; try lia.
  - (* [], y :: b, z :: c *)
    destruct (uchar y =? uchar z) eqn:E; zify_bool; [|lia].
    destruct (uchar y =? 0) eqn:E0; zify_bool; lia.
  - (* x :: a, [], z :: c *)
    destruct (uchar x =? uchar z) eqn:E; zify_bool; [|lia].
    destruct (uchar x =? 0) eqn:E0; zify_bool; lia.
  - (* x :: a, y :: b, [] *)
    destruct (uchar x =? uchar y) eqn:E; zify_bool; [|lia].
    destruct (uchar x =? 0) eqn:E0; zify_bool; lia.
  - (* x :: a, y :: b, z :: c *)
    destruct (uchar x =? uchar y) eqn:Exy; destruct (uchar y =? uchar z) eqn:Eyz;
      zify_bool.
    + rewrite Exy, Eyz, Z.eqb_refl.
      destruct (uchar z =? 0) eqn:E0; [lia|]. apply IH.
    + rewrite Exy. destruct (uchar y =? uchar z) eqn:E'; zify_bool; [lia|].
      destruct (uchar y =? 0); lia.
    + rewrite <- Eyz. destruct (uchar x =? uchar y) eqn:E'; zify_bool; [lia|].
      destruct (uchar y =? 0); lia.
    + destruct (uchar x =? uchar z) eqn:Exz; zify_bool; [|lia].
      intros; lia.
Qed.

Lemma uchar_inj c d : uchar c = uchar d -> c = d.
Proof.
  unfold uchar. intros H. apply N2Z.inj in H.
  rewrite <- (ascii_N_embedding c), <- (ascii_N_embedding d), H. reflexivity.
Qed.

(** On strings proper, which hold no NUL, [strcmp] is 0 for equal strings
    only. *)
Lemma strcmp_zero_iff a : forall b,
  Forall (fun c => uchar c <> 0) a -> Forall (fun c => uchar c <> 0) b ->
  (strcmp a b = 0 <-> a = b).
Proof.
  induction a as [|x a IH]; intros [|y b] Ha Hb.
  - split; reflexivity.
  - apply Forall_cons in Hb. destruct Hb as [Hy _]. cbn. split; [lia|discriminate].
  - apply Forall_cons in Ha. destruct Ha as [Hx _]. cbn. split; [lia|discriminate].
  - apply Forall_cons in Ha, Hb. destruct Ha as [Hx Ha], Hb as [Hy Hb].
    cbn [strcmp]. destruct (uchar x =? uchar y) eqn:E; zify_bool.
    + destruct (uchar x =? 0) eqn:E0; zify_bool; [contradiction|].
      rewrite (IH b Ha Hb). apply uchar_inj in E. subst y.
      split; [intros ->; reflexivity|intros H; inversion H; reflexivity].
    + split; [lia|]. intros H. inversion H; subst. contradiction.
Qed.

(** ** Sorting the directory list *)

Lemma swap_out_of_order A B :
  swap A B = if out_of_order A B then (1, (B, A)) else (0, (A, B)).
Proof.
  unfold swap, out_of_order.
  destruct (strcmp (entry_name A) (entry_name B) =? 0).
  - destruct (entry_type A >? entry_type B); reflexivity.
  - reflexivity.
Qed.

Lemma out_of_order_asym A B : out_of_order A B = true -> out_of_order B A = false.
Proof.
  unfold out_of_order. rewrite (strcmp_antisym (entry_name A) (entry_name B)).
  destruct (strcmp (entry_name A) (entry_name B) =? 0) eqn:E; zify_bool.
  - rewrite E. cbn. intros H. zify_bool.
    destruct (entry_type B >? entry_type A) eqn:E'; [zify_bool; lia|reflexivity].
  - intros H. zify_bool.
    destruct (- strcmp (entry_name A) (entry_name B) =? 0) eqn:E1; zify_bool; [lia|].
    destruct (- strcmp (entry_name A) (entry_name B) >? 0) eqn:E2; zify_bool;
      [lia|reflexivity].
Qed.

Lemma entry_le_iff A B :
  entry_le A B <->
  strcmp (entry_name A) (entry_name B) < 0 \/
  (strcmp (entry_name A) (entry_name B) = 0 /\ entry_type A <= entry_type B).
Proof.
  unfold entry_le, out_of_order.
  destruct (strcmp (entry_name A) (entry_name B) =? 0) eqn:E; zify_bool.
  - destruct (entry_type A >? entry_type B) eqn:E'; zify_bool;
      split; intros; try lia; try discriminate; reflexivity.
  - destruct (strcmp (entry_name A) (entry_name B) >? 0) eqn:E'; zify_bool;
      split; intros; try lia; try discriminate; reflexivity.
Qed.

Lemma entry_le_refl A : entry_le A A.
Proof. apply entry_le_iff. right. split; [apply strcmp_refl|lia]. Qed.

Lemma entry_le_trans A B C : entry_le A B -> entry_le B C -> entry_le A C.
Proof.
  rewrite !entry_le_iff. intros HAB HBC.
  destruct (strcmp_trans (entry_name A) (entry_name B) (entry_name C))
    as [Hle Heq]; [lia|lia|].
  destruct (Z.eq_dec (strcmp (entry_name A) (entry_name C)) 0) as [H0|Hn]; [|lia].
  right. destruct (Heq H0). split; [exact H0|lia].
Qed.

Lemma entry_le_total A B : entry_le A B \/ entry_le B A.
Proof.
  unfold entry_le. destruct (out_of_order A B) eqn:E; [|left; reflexivity].
  right. apply out_of_order_asym. exact E.
Qed.

Lemma count_after_perm z l l' :
  Permutation l l' -> count_after z l = count_after z l'.
Proof. induction 1; cbn [count_after]; lia. Qed.

(** One pass: it permutes the entries, and each exchange it makes takes one
    pair out of the wrong order; a pass without exchange has found the list
    sorted. *)
Lemma bubble_pass_spec rest : forall next n,
  in_int n ->
  exists k l,
    bubble_pass next rest n = (int32 (n + Z.of_nat k), l) /\
    (k <= length rest)%nat /\
    Permutation (next :: rest) l /\
    (inversions l + k = inversions (next :: rest))%nat /\
    (k = 0%nat -> l = next :: rest /\ Sorted entry_le (next :: rest)).
Proof.
  unfold in_int, INT_MAX.
  induction rest as [|nn rest IH]; intros next n Hn.
  - exists 0%nat, [next]. cbn [bubble_pass].
    change (Z.of_nat 0) with 0. rewrite Z.add_0_r, int32_small by lia.
    repeat split; auto.
  - cbn [bubble_pass]. rewrite swap_out_of_order.
    pose proof (int32_range (n + 1)) as Hr1.
    pose proof (int32_range (n + 0)) as Hr0.
    destruct (out_of_order next nn) eqn:E.
    + destruct (IH next (int32 (n + 1)) ltac:(lia)) as (k & l & Hp & Hk & Hperm & Hinv & _).
      rewrite Hp. exists (S k), (nn :: l).
      split; [|split; [|split; [|split]]].
      * rewrite int32_add_l. do 2 f_equal. lia.
      * cbn [length]. lia.
      * etransitivity; [apply perm_swap|]. apply perm_skip. exact Hperm.
      * cbn [inversions] in *. cbn [count_after].
        rewrite <- (count_after_perm nn _ _ Hperm). cbn [count_after].
        rewrite E, (out_of_order_asym _ _ E). lia.
      * discriminate.
    + destruct (IH nn (int32 (n + 0)) ltac:(lia)) as (k & l & Hp & Hk & Hperm & Hinv & Hz).
      rewrite Hp. exists k, (next :: l).
      split; [|split; [|split; [|split]]].
      * rewrite int32_add_l. do 2 f_equal. lia.
      * cbn [length]. lia.
      * apply perm_skip. exact Hperm.
      * cbn [inversions] in *.
        rewrite <- (count_after_perm next _ _ Hperm). lia.
      * intros ->. destruct (Hz eq_refl) as [-> Hs]. split; [reflexivity|].
        constructor; [exact Hs|]. constructor. exact E.
Qed.

Lemma inversions_sorted l : Sorted entry_le l -> inversions l = 0%nat.
Proof.
  intros Hs. apply Sorted_StronglySorted in Hs;
    [|intros x y z; apply entry_le_trans].
  induction Hs as [|x l Hs IH Hall]; [reflexivity|].
  cbn [inversions]. rewrite IH.
  assert (count_after x l = 0%nat); [|lia].
  clear - Hall. induction Hall as [|y l Hy Hall IH]; [reflexivity|].
  cbn [count_after]. rewrite Hy, IH. reflexivity.
Qed.

(** The sorting loop ends: with more fuel than there are pairs in the wrong
    order it returns a sorted permutation. *)
Lemma sort_loop_terminates es :
  Z.of_nat (length es) <= INT_MAX ->
  forall fuel, (inversions es < fuel)%nat ->
  exists sorted,
    sort_loop fuel es = Some sorted /\
    Permutation es sorted /\ Sorted entry_le sorted.
Proof.
  unfold INT_MAX. intros Hlen fuel. revert es Hlen.
  induction fuel as [|fuel IH]; intros es Hlen Hfuel; [lia|].
  cbn [sort_loop]. destruct es as [|first rest].
  { exists []. repeat split; constructor. }
  destruct (bubble_pass_spec rest first 0) as (k & l & Hp & Hk & Hperm & Hinv & Hz).
  { unfold in_int, INT_MAX. lia. }
  cbn [length] in Hlen.
  rewrite Z.add_0_l, int32_small in Hp by lia. rewrite Hp.
  destruct (Z.of_nat k =? 0) eqn:E; zify_bool; cbn [negb].
  - assert (k = 0%nat) by lia. destruct (Hz H) as [-> Hs].
    exists (first :: rest). repeat split; [reflexivity|exact Hs].
  - destruct (IH l) as (sorted & Hsl & Hps & Hss).
    + rewrite <- (Permutation_length Hperm). cbn [length]. lia.
    + lia.
    + exists sorted. split; [exact Hsl|]. split; [|exact Hss].
      etransitivity; eassumption.
Qed.

Lemma sort_loop_fuel fuel : forall es r fuel',
  sort_loop fuel es = Some r -> (fuel <= fuel')%nat -> sort_loop fuel' es = Some r.
Proof.
  induction fuel as [|fuel IH]; intros es r fuel' H Hle; [discriminate|].
  destruct fuel' as [|fuel']; [lia|]. cbn [sort_loop] in *.
  destruct es as [|first rest]; [exact H|].
  destruct (bubble_pass first rest 0) as [n es'].
  destruct (negb (n =? 0)); [|exact H]. apply IH; [exact H|lia].
Qed.

(** ** Marking duplicates *)

Section Duplicates.

Variable DIR_E_NRM : Z.

Abbreviation is_dup := (is_duplicate DIR_E_NRM).
Abbreviation mark := (mark_duplicates DIR_E_NRM).
Abbreviation marked := (marked_entry DIR_E_NRM).

(** the test does not read the valid flag *)
Lemma is_duplicate_same a a' b b' :
  same_entry a a' -> same_entry b b' -> is_dup a b = is_dup a' b'.
Proof.
  intros (Hn & Hh & _ & Ht) (Hn' & Hh' & _ & _).
  unfold is_duplicate. rewrite Hn, Hh, Ht, Hn', Hh'. reflexivity.
Qed.

Lemma same_entry_refl a : same_entry a a.
Proof. repeat split. Qed.

Lemma same_entry_set_valid v a : same_entry a (set_entry_valid v a).
Proof. repeat split. Qed.

Lemma same_entry_marked a b : same_entry b (marked a b).
Proof.
  unfold marked_entry. destruct (is_dup a b);
    [apply same_entry_set_valid|apply same_entry_refl].
Qed.

(** Every node but the first is marked by looking at the node before
    it. *)
Lemma mark_duplicates_lookup rest : forall next i,
  mark next rest !! i =
  match i with
  | O => Some next
  | S j =>
      match (next :: rest) !! j, rest !! j with
      | Some a, Some b => Some (marked a b)
      | _, _ => None
      end
  end.
Proof.
  induction rest as [|nn rest IH]; intros next i.
  - destruct i as [|[|j]]; reflexivity.
  - cbn [mark_duplicates]. destruct i as [|j]; [reflexivity|].
    change ((next :: mark (if is_dup next nn then set_entry_valid 0 nn else nn)
                          rest) !! S j)
      with (mark (marked next nn) rest !! j).
    rewrite IH. destruct j as [|j]; [reflexivity|].
    change ((next :: nn :: rest) !! S j) with ((nn :: rest) !! j).
    change ((nn :: rest) !! S j) with (rest !! j).
    destruct j as [|j]; [|reflexivity].
    cbn [lookup list_lookup]. destruct rest as [|b rest']; [reflexivity|].
    cbn [lookup list_lookup]. unfold marked_entry at 1 3.
    rewrite (is_duplicate_same (marked next nn) nn b b);
      [reflexivity| |apply same_entry_refl].
    destruct (same_entry_marked next nn) as (H1 & H2 & H3 & H4).
    repeat split; congruence.
Qed.

Lemma mark_duplicates_same rest : forall next,
  Forall2 same_entry (next :: rest) (mark next rest).
Proof.
  induction rest as [|nn rest IH]; intros next.
  - repeat constructor.
  - cbn [mark_duplicates]. constructor; [apply same_entry_refl|].
    change (if is_dup next nn then set_entry_valid 0 nn else nn)
      with (marked next nn).
    specialize (IH (marked next nn)).
    inversion IH as [|? y ? l' Hy Hl Heq1 Heq2]; subst.
    constructor; [|assumption].
    destruct (same_entry_marked next nn) as (H1 & H2 & H3 & H4).
    destruct Hy as (G1 & G2 & G3 & G4).
    repeat split; congruence.
Qed.

End Duplicates.

Lemma entry_le_same a a' b b' :
  same_entry a a' -> same_entry b b' -> entry_le a b -> entry_le a' b'.
Proof.
  intros (Hn & _ & _ & Ht) (Hn' & _ & _ & Ht').
  unfold entry_le, out_of_order. rewrite Hn, Ht, Hn', Ht'. tauto.
Qed.

Lemma StronglySorted_lookup_lt (l : list dir_entry) :
  StronglySorted entry_le l ->
  forall i j a b, (i < j)%nat -> l !! i = Some a -> l !! j = Some b ->
                  entry_le a b.
Proof.
  induction 1 as [|x l Hs IH Hall]; intros i j a b Hij Ha Hb.
  - rewrite lookup_nil in Ha. discriminate.
  - destruct j as [|j]; [lia|]. destruct i as [|i].
    + inversion Ha; subst a. rewrite Forall_forall in Hall.
      apply Hall. eapply list_elem_of_lookup_2. exact Hb.
    + apply (IH i j); [lia|exact Ha|exact Hb].
Qed.

Lemma StronglySorted_same l l' :
  Forall2 same_entry l l' ->
  StronglySorted entry_le l -> StronglySorted entry_le l'.
Proof.
  induction 1 as [|a a' l l' Ha Hl IH]; intros Hs; [constructor|].
  inversion Hs as [|? ? Hs' Hall]; subst. constructor; [apply IH; exact Hs'|].
  clear - Ha Hl Hall. induction Hl as [|b b' l l' Hb Hl IH]; [constructor|].
  inversion Hall; subst. constructor; [|apply IH; assumption].
  eapply entry_le_same; eassumption.
Qed.

(** ** Closing a directory list *)

(** The test of the second loop fires on exactly the pairs with equal
    names, under [strcmp], whose first entry has the no-hash type or whose
    hashes are equal. *)
Lemma is_duplicate_true (DIR_E_NRM : Z) (a b : dir_entry) :
  is_duplicate DIR_E_NRM a b = true <->
  strcmp (entry_name a) (entry_name b) = 0 /\
  (entry_type a = DIR_E_NRM \/ entry_hash a = entry_hash b).
Proof.
  unfold is_duplicate.
  rewrite andb_true_iff, orb_true_iff, !Z.eqb_eq. tauto.
Qed.

Lemma is_duplicate_false (DIR_E_NRM : Z) (a b : dir_entry) :
  is_duplicate DIR_E_NRM a b = false <->
  strcmp (entry_name a) (entry_name b) <> 0 \/
  (entry_type a <> DIR_E_NRM /\ entry_hash a <> entry_hash b).
Proof.
  unfold is_duplicate.
  rewrite andb_false_iff, orb_false_iff, !Z.eqb_neq. tauto.
Qed.

(** C7 (amended). [dir_list_close] ends.  Afterwards the entries behind the
    head are those from before in nondecreasing order by name under
    [strcmp], then by type, the valid flags apart; in every adjacent pair
    with equal names whose first entry has the no-hash type or whose hashes
    are equal, the later entry has valid flag 0; the first entry, and every
    entry that does not form such a pair with the one before it, is left as
    it was, valid flag included. *)
Theorem dir_list_close_spec (DIR_E_NRM : Z) (es : list dir_entry) :
  Z.of_nat (length es) <= INT_MAX ->
  exists sorted closed,
    (forall fuel, (inversions es < fuel)%nat ->
       dir_list_close DIR_E_NRM fuel es = Some closed) /\
    Permutation es sorted /\
    StronglySorted entry_le sorted /\
    Forall2 same_entry sorted closed /\
    StronglySorted entry_le closed /\
    (forall i j a b, (i < j)%nat -> closed !! i = Some a -> closed !! j = Some b ->
       strcmp (entry_name a) (entry_name b) < 0 \/
       (strcmp (entry_name a) (entry_name b) = 0 /\
        entry_type a <= entry_type b)) /\
    (forall i a b, closed !! i = Some a -> closed !! S i = Some b ->
       strcmp (entry_name a) (entry_name b) = 0 ->
       entry_type a = DIR_E_NRM \/ entry_hash a = entry_hash b ->
       entry_valid b = 0) /\
    (forall b, closed !! 0%nat = Some b -> sorted !! 0%nat = Some b) /\
    (forall i a b, closed !! i = Some a -> closed !! S i = Some b ->
       strcmp (entry_name a) (entry_name b) <> 0 \/
       (entry_type a <> DIR_E_NRM /\ entry_hash a <> entry_hash b) ->
       sorted !! S i = Some b).
Proof.
  intros Hlen.
  destruct (sort_loop_terminates es Hlen (S (inversions es)) ltac:(lia))
    as (sorted & Hsort & Hperm & Hsorted).
  assert (Hstrong : StronglySorted entry_le sorted).
  { apply Sorted_StronglySorted; [|exact Hsorted].
    intros x y z. apply entry_le_trans. }
  set (closed := match sorted with
                 | [] => []
                 | first :: rest => mark_duplicates DIR_E_NRM first rest
                 end).
  assert (Hsame : Forall2 same_entry sorted closed).
  { subst closed. destruct sorted; [constructor|apply mark_duplicates_same]. }
  assert (Hlook : forall j a b, closed !! j = Some a -> closed !! S j = Some b ->
            exists a0 b0, sorted !! j = Some a0 /\ sorted !! S j = Some b0 /\
                          same_entry a0 a /\ b = marked_entry DIR_E_NRM a0 b0).
  { intros j a b Ha Hb. subst closed. destruct sorted as [|first rest].
    { rewrite lookup_nil in Ha. discriminate. }
    rewrite mark_duplicates_lookup in Hb.
    destruct ((first :: rest) !! j) as [a0|] eqn:Ea; [|discriminate].
    change ((first :: rest) !! S j) with (rest !! j).
    destruct (rest !! j) as [b0|] eqn:Eb; [|discriminate].
    inversion Hb; subst b. exists a0, b0. repeat split; try reflexivity.
    all: pose proof (mark_duplicates_same DIR_E_NRM rest first) as HF;
      destruct (Forall2_lookup_lr _ _ _ j a0 a HF Ea Ha) as (H1 & H2 & H3 & H4);
      assumption. }
  assert (Hclosed : StronglySorted entry_le closed)
    by (eapply StronglySorted_same; eassumption).
  exists sorted, closed.
  split; [|split; [|split; [|split; [|split; [|split; [|split; [|split]]]]]]].
  - intros fuel Hfuel. unfold dir_list_close.
    rewrite (sort_loop_fuel _ _ _ fuel Hsort) by lia.
    destruct es as [|e es'].
    + apply Permutation_nil in Hperm. subst sorted. reflexivity.
    + subst closed. destruct sorted; reflexivity.
  - exact Hperm.
  - exact Hstrong.
  - exact Hsame.
  - exact Hclosed.
  - intros i j a b Hij Ha Hb. apply entry_le_iff.
    eapply StronglySorted_lookup_lt; eassumption.
  - intros i a b Ha Hb Hname Hkind.
    assert (Hdup : is_duplicate DIR_E_NRM a b = true)
      by (apply is_duplicate_true; split; assumption).
    destruct (Hlook i a b Ha Hb) as (a0 & b0 & _ & _ & Hsa & ->).
    unfold marked_entry in *.
    rewrite <- (is_duplicate_same DIR_E_NRM a0 a b0
                  (if is_duplicate DIR_E_NRM a0 b0 then set_entry_valid 0 b0 else b0))
      in Hdup; [|exact Hsa|].
    + rewrite Hdup. reflexivity.
    + destruct (is_duplicate DIR_E_NRM a0 b0);
        [apply same_entry_set_valid|apply same_entry_refl].
  - intros b Hb. subst closed. destruct sorted as [|first rest].
    + rewrite lookup_nil in Hb. discriminate.
    + rewrite mark_duplicates_lookup in Hb. exact Hb.
  - intros i a b Ha Hb Hnot.
    assert (Hdup : is_duplicate DIR_E_NRM a b = false)
      by (apply is_duplicate_false; exact Hnot).
    destruct (Hlook i a b Ha Hb) as (a0 & b0 & _ & Hb0 & Hsa & ->).
    unfold marked_entry in *.
    rewrite <- (is_duplicate_same DIR_E_NRM a0 a b0
                  (if is_duplicate DIR_E_NRM a0 b0 then set_entry_valid 0 b0 else b0))
      in Hdup; [|exact Hsa|].
    + rewrite Hdup. exact Hb0.
    + destruct (is_duplicate DIR_E_NRM a0 b0);
        [apply same_entry_set_valid|apply same_entry_refl].
Qed.

(** A listing in which one name occurs twice, from the file system (type
    0) and from an archive: the archive's entry follows and is not valid. *)
Lemma dir_list_close_spec_witness :
  Z.of_nat (length Samples.listing) <= INT_MAX /\
  exists closed,
    dir_list_close 0 (S (inversions Samples.listing)) Samples.listing = Some closed /\
    StronglySorted entry_le closed /\
    exists a b, closed !! 0%nat = Some a /\ closed !! 1%nat = Some b /\
                entry_name a = cstr "a.txt" /\ entry_name b = cstr "a.txt" /\
                entry_type a = 0 /\ entry_valid a = 1 /\ entry_valid b = 0.
Proof.
  assert (Hlen : Z.of_nat (length Samples.listing) <= INT_MAX)
    by (unfold INT_MAX; cbn; lia).
  split; [exact Hlen|].
  destruct (dir_list_close_spec 0 Samples.listing Hlen)
    as (sorted & closed & Hclose & _ & _ & _ & Hs & _ & Hdup & _).
  exists closed. split; [apply Hclose; lia|]. split; [exact Hs|].
  assert (Hrun : dir_list_close 0 (S (inversions Samples.listing))
                   Samples.listing
                 = Some [ mk_dir_entry (cstr "a.txt") 7 3000 0 1;
                          mk_dir_entry (cstr "a.txt") 7 2000 1 0;
                          mk_dir_entry (cstr "b.txt") 8 1000 1 1 ])
    by (vm_compute; reflexivity).
  rewrite (Hclose (S (inversions Samples.listing))) in Hrun by lia.
  inversion Hrun as [Hc]. rewrite Hc in Hdup.
  exists (mk_dir_entry (cstr "a.txt") 7 3000 0 1),
         (mk_dir_entry (cstr "a.txt") 7 2000 1 0).
  split; [reflexivity|]. split; [reflexivity|]. split; [reflexivity|].
  split; [reflexivity|]. split; [reflexivity|]. split; [reflexivity|].
  apply (Hdup 0%nat (mk_dir_entry (cstr "a.txt") 7 3000 0 1)
              (mk_dir_entry (cstr "a.txt") 7 2000 1 0) eq_refl eq_refl eq_refl).
  left. reflexivity.
Defined.

(** C7 as stated fails on a name that occurs three times: the second of
    the three is the earlier entry of the pair it forms with the third, and
    it is not valid. *)
Lemma dir_list_close_counterexample :
  dir_list_close 0 4 Samples.triple
  = Some [ mk_dir_entry (cstr "a.txt") 7 2000 0 1;
           mk_dir_entry (cstr "a.txt") 7 1000 1 0;
           mk_dir_entry (cstr "a.txt") 7 3000 1 0 ] /\
  Forall (fun e => entry_valid e = 1) Samples.triple /\
  is_duplicate 0 (mk_dir_entry (cstr "a.txt") 7 1000 1 0)
                 (mk_dir_entry (cstr "a.txt") 7 3000 1 0) = true /\
  strcmp (cstr "a.txt") (cstr "a.txt") = 0 /\
  entry_valid (mk_dir_entry (cstr "a.txt") 7 1000 1 0) = 0 /\
  entry_valid (mk_dir_entry (cstr "a.txt") 7 1000 1 0) <> 1.
Proof.
  split; [vm_compute; reflexivity|]. split; [|repeat split; discriminate].
  repeat (apply Forall_cons; split; [reflexivity|]). apply Forall_nil_2.
Qed.

(** ** Adding to a directory list *)

Section Add.

Variable get_hash : cstring -> Z -> Z.

Abbreviation holds := (holds_key get_hash).

Lemma find_entry_some key l : forall k i,
  find_entry (get_hash key 0) key k l = Some i ->
  (k <= i)%nat /\
  (exists e, l !! (i - k)%nat = Some e /\ holds key e) /\
  (forall j e, (j < i - k)%nat -> l !! j = Some e -> ~ holds key e).
Proof.
  induction l as [|e l IH]; intros k i H; [discriminate|].
  cbn [find_entry] in H.
  destruct ((get_hash key 0 =? entry_hash e)
            && (strcmp key (entry_name e) =? 0)) eqn:E.
  - inversion H; subst i. apply andb_true_iff in E. destruct E as [E1 E2].
    zify_bool. split; [lia|]. split.
    + exists e. rewrite Nat.sub_diag. split; [reflexivity|]. split; congruence.
    + intros j e' Hj. lia.
  - destruct (IH _ _ H) as (Hk & (e0 & He0 & Hh) & Hfirst).
    split; [lia|]. split.
    + exists e0. split; [|exact Hh].
      replace (i - k)%nat with (S (i - S k)) by lia. exact He0.
    + intros j e' Hj Hl [Hh1 Hh2]. destruct j as [|j].
      * inversion Hl; subst e'. rewrite Hh1, Hh2, !Z.eqb_refl in E. discriminate.
      * apply (Hfirst j e'); [lia|exact Hl|split; assumption].
Qed.

Lemma find_entry_none key l : forall k,
  find_entry (get_hash key 0) key k l = None <->
  (forall j e, l !! j = Some e -> ~ holds key e).
Proof.
  induction l as [|e l IH]; intros k.
  - split; [|reflexivity]. intros _ j e H. rewrite lookup_nil in H. discriminate.
  - cbn [find_entry].
    destruct ((get_hash key 0 =? entry_hash e)
              && (strcmp key (entry_name e) =? 0)) eqn:E.
    + split; [discriminate|]. intros H. exfalso.
      apply andb_true_iff in E. destruct E as [E1 E2]. zify_bool.
      apply (H 0%nat e); [reflexivity|split; congruence].
    + rewrite IH. split.
      * intros H [|j] e' Hl [Hh1 Hh2].
        -- inversion Hl; subst e'.
           rewrite Hh1, Hh2, !Z.eqb_refl in E. discriminate.
        -- apply (H j e'); [exact Hl|split; assumption].
      * intros H j e' Hl. apply (H (S j) e'). exact Hl.
Qed.

Lemma find_entry_app key l1 l2 : forall k,
  find_entry (get_hash key 0) key k (l1 ++ l2) =
  match find_entry (get_hash key 0) key k l1 with
  | Some i => Some i
  | None => find_entry (get_hash key 0) key (k + length l1) l2
  end.
Proof.
  induction l1 as [|e l1 IH]; intros k.
  - cbn. rewrite Nat.add_0_r. reflexivity.
  - cbn [app find_entry length].
    destruct ((get_hash key 0 =? entry_hash e)
              && (strcmp key (entry_name e) =? 0)); [reflexivity|].
    rewrite IH. replace (S k + length l1)%nat with (k + S (length l1))%nat by lia.
    reflexivity.
Qed.

Lemma add_entry_holds key st type :
  holds key (add_entry key st type (get_hash key 0)).
Proof. split; [reflexivity|apply strcmp_refl]. Qed.

(** C9. In a non-empty list whose nodes from the one [l] designates
    onwards (all of them when [l] is the head) include an entry with the
    hash and the name of the key, [dir_entry_add] returns the first such
    node and leaves the list as it is, whatever the allocator would
    answer: it allocates nothing.  Hence after a call that returned a
    node, a further call for the same key on the same list returns a node
    holding the key, the same one when [l] was not NULL, and adds
    nothing. *)
Theorem dir_entry_add_existing (es : list dir_entry) (cur : cursor)
  (key : cstring) (i : nat) (e : dir_entry) :
  es <> [] -> cursor_valid es cur ->
  (search_start cur <= i)%nat -> es !! i = Some e ->
  entry_hash e = get_hash key 0 -> entry_name e = key ->
  (exists j e',
     (search_start cur <= j <= i)%nat /\ es !! j = Some e' /\ holds key e' /\
     (forall j' e'', (search_start cur <= j' < j)%nat -> es !! j' = Some e'' ->
                     ~ holds key e'') /\
     forall st type malloc_head_ok malloc_ok strdup_ok,
       dir_entry_add get_hash (InList es cur) key st type
                     malloc_head_ok malloc_ok strdup_ok
       = (Some (AtNode j), es)) /\
  (forall l st type m1 m2 m3 r es1,
     match l with
     | NullList => True
     | InList es0 cur0 => cursor_valid es0 cur0
     end ->
     dir_entry_add get_hash l key st type m1 m2 m3 = (Some r, es1) ->
     forall st' type' m1' m2' m3',
     exists j e',
       dir_entry_add get_hash
         (InList es1 match l with
                     | NullList => AtHead
                     | InList _ cur0 => cur0
                     end) key st' type' m1' m2' m3'
       = (Some (AtNode j), es1) /\
       es1 !! j = Some e' /\ holds key e' /\
       match l with
       | NullList => True
       | InList _ _ => r = AtNode j
       end).
Proof.
  intros Hne Hcur Hi He Hh Hn. split.
  - destruct (find_entry (get_hash key 0) key (search_start cur)
                (drop (search_start cur) es)) as [j|] eqn:Ef.
    + destruct (find_entry_some _ _ _ _ Ef) as (Hk & (e' & He' & Hhold) & Hfirst).
      rewrite lookup_drop in He'.
      replace (search_start cur + (j - search_start cur))%nat with j in He' by lia.
      assert (Hji : (j <= i)%nat).
      { destruct (Nat.le_gt_cases j i) as [|Hgt]; [assumption|]. exfalso.
        apply (Hfirst (i - search_start cur)%nat e); [lia| |].
        - rewrite lookup_drop.
          replace (search_start cur + (i - search_start cur))%nat with i by lia.
          exact He.
        - split; [exact Hh|]. rewrite Hn. apply strcmp_refl. }
      exists j, e'. split; [lia|]. split; [exact He'|]. split; [exact Hhold|].
      split.
      * intros j' e'' Hj' Hl. apply (Hfirst (j' - search_start cur)%nat e''); [lia|].
        rewrite lookup_drop.
        replace (search_start cur + (j' - search_start cur))%nat with j' by lia.
        exact Hl.
      * intros. unfold dir_entry_add. rewrite Ef. reflexivity.
    + exfalso. rewrite find_entry_none in Ef.
      apply (Ef (i - search_start cur)%nat e).
      * rewrite lookup_drop.
        replace (search_start cur + (i - search_start cur))%nat with i by lia.
        exact He.
      * split; [exact Hh|]. rewrite Hn. apply strcmp_refl.
  - clear es cur Hne Hcur i e Hi He Hh Hn.
    intros l st type m1 m2 m3 r es1 Hcur Hadd st' type' m1' m2' m3'.
    destruct l as [|es cur].
    + unfold dir_entry_add in Hadd.
      destruct m1; [|discriminate]. destruct m2; [|discriminate].
      destruct m3; [|discriminate]. cbn [negb] in Hadd.
      inversion Hadd; subst. exists 0%nat, (add_entry key st type (get_hash key 0)).
      split; [|split; [reflexivity|split; [apply add_entry_holds|exact I]]].
      unfold dir_entry_add. cbn [search_start drop find_entry add_entry entry_hash
                                 entry_name].
      rewrite Z.eqb_refl, strcmp_refl. reflexivity.
    + unfold dir_entry_add in Hadd.
      destruct (find_entry (get_hash key 0) key (search_start cur)
                  (drop (search_start cur) es)) as [j|] eqn:Ef.
      * inversion Hadd; subst r es1.
        destruct (find_entry_some _ _ _ _ Ef) as (Hk & (e' & He' & Hhold) & _).
        rewrite lookup_drop in He'.
        replace (search_start cur + (j - search_start cur))%nat with j in He' by lia.
        exists j, e'. split; [|split; [exact He'|split; [exact Hhold|reflexivity]]].
        unfold dir_entry_add. rewrite Ef. reflexivity.
      * destruct m2; [|discriminate]. destruct m3; [|discriminate].
        cbn [negb] in Hadd. inversion Hadd; subst r es1.
        assert (Hstart : (search_start cur <= length es)%nat).
        { destruct cur; cbn in *; lia. }
        exists (length es), (add_entry key st type (get_hash key 0)).
        split; [|split; [|split; [apply add_entry_holds|reflexivity]]].
        -- unfold dir_entry_add.
           rewrite drop_app_le by exact Hstart.
           rewrite find_entry_app, Ef, length_drop.
           replace (search_start cur + (length es - search_start cur))%nat
             with (length es) by lia.
           cbn [find_entry add_entry entry_hash entry_name].
           rewrite Z.eqb_refl, strcmp_refl. reflexivity.
        -- rewrite lookup_app_r by lia. rewrite Nat.sub_diag. reflexivity.
Qed.

End Add.

Lemma dir_entry_add_existing_witness :
  Samples.two_names <> [] /\ cursor_valid Samples.two_names AtHead /\
  Samples.two_names !! 1%nat = Some (mk_dir_entry (cstr "bb.txt") 6 2000 1 1) /\
  exists j,
    dir_entry_add Samples.length_hash (InList Samples.two_names AtHead)
                  (cstr "bb.txt") 3000 1 false false false
    = (Some (AtNode j), Samples.two_names).
Proof.
  assert (Hne : Samples.two_names <> []) by discriminate.
  assert (Hcur : cursor_valid Samples.two_names AtHead) by exact I.
  assert (Hl : Samples.two_names !! 1%nat
               = Some (mk_dir_entry (cstr "bb.txt") 6 2000 1 1)) by reflexivity.
  destruct (dir_entry_add_existing Samples.length_hash Samples.two_names AtHead
              (cstr "bb.txt") 1 _ Hne Hcur ltac:(cbn; lia) Hl eq_refl eq_refl)
    as [(j & e' & _ & _ & _ & _ & Hadd) _].
  split; [exact Hne|]. split; [exact Hcur|]. split; [exact Hl|].
  exists j. apply Hadd.
Defined.

(** Handed a node instead of the head, the search starts there: a key that
    only occurs before that node is added a second time. *)
Example dir_entry_add_from_tail :
  dir_entry_add Samples.length_hash (InList Samples.two_names (AtNode 1))
                (cstr "a.txt") 3000 1 true true true
  = (Some (AtNode 2),
     Samples.two_names ++ [mk_dir_entry (cstr "a.txt") 5 3000 1 1]).
Proof. reflexivity. Qed.

(** ** Aliases *)

Lemma request_granted m :
  all_granted m ->
  exists m', Alloc.request m = Some (true, m') /\ all_granted m'.
Proof.
  intros H. destruct m as [|b m].
  - exists []. split; [reflexivity|exact H].
  - apply Forall_cons in H. destruct H as [-> H]. exists m. split; [reflexivity|exact H].
Qed.

Section Alias.

Variable __gnu_dirname : cstring -> cstring.
Variable sscanf_alias : cstring -> option (cstring * cstring).

Abbreviation levels := (dirlevels_loop __gnu_dirname).
Abbreviation allowed := (alias_allowed __gnu_dirname).
Abbreviation check_paths := (__check_paths __gnu_dirname).
Abbreviation entry_set_alias := (__entry_set_alias __gnu_dirname sscanf_alias).

Lemma dirlevels_granted fuel path m :
  all_granted m ->
  exists m', all_granted m' /\
    __dirlevels __gnu_dirname fuel path m =
    match levels fuel path 0 with
    | Some count => Some (count, m')
    | None => None
    end.
Proof.
  intros H. destruct (request_granted m H) as (m' & Hr & H').
  exists m'. split; [exact H'|].
  unfold __dirlevels, Alloc.bind. rewrite Hr. cbn [negb].
  destruct (levels fuel path 0); reflexivity.
Qed.

Lemma rooted_paths_test a b :
  (negb (peek a 0 =? uchar "/") || negb (peek b 0 =? uchar "/")
   || ((strlen a <? 2) || (strlen b <? 2))) = false <-> rooted_paths a b.
Proof.
  unfold rooted_paths.
  rewrite !orb_false_iff, !negb_false_iff, !Z.eqb_eq, !Z.ltb_ge. tauto.
Qed.

(** With every allocation granted, [__check_paths] returns 0 exactly for
    the allowed pairs. *)
Lemma check_paths_granted fuel a b m :
  all_granted m -> levels_counted __gnu_dirname fuel a b ->
  exists r m',
    check_paths fuel a b m = Some (r, m') /\ all_granted m' /\
    (r = 0 \/ r = 1) /\ (r = 0 <-> allowed fuel a b).
Proof.
  intros Hm Hcount. unfold __check_paths.
  destruct (negb (peek a 0 =? uchar "/") || negb (peek b 0 =? uchar "/")) eqn:E1.
  { exists 1, m. split; [reflexivity|]. split; [exact Hm|]. split; [auto|].
    split; [discriminate|]. intros [Hr _]. apply rooted_paths_test in Hr.
    rewrite E1 in Hr. discriminate. }
  destruct ((strlen a <? 2) || (strlen b <? 2)) eqn:E2.
  { exists 1, m. split; [reflexivity|]. split; [exact Hm|]. split; [auto|].
    split; [discriminate|]. intros [Hr _]. apply rooted_paths_test in Hr.
    rewrite E1, E2 in Hr. discriminate. }
  assert (Hroot : rooted_paths a b)
    by (apply rooted_paths_test; rewrite E1, E2; reflexivity).
  destruct (Hcount Hroot) as [Ha Hb].
  destruct (levels fuel a 0) as [la|] eqn:Ela; [|congruence].
  destruct (levels fuel b 0) as [lb|] eqn:Elb; [|congruence].
  destruct (dirlevels_granted fuel a m Hm) as (m1 & Hm1 & Hda).
  destruct (dirlevels_granted fuel b m1 Hm1) as (m2 & Hm2 & Hdb).
  rewrite Ela in Hda. rewrite Elb in Hdb.
  unfold Alloc.bind at 1. rewrite Hda. unfold Alloc.bind at 1. rewrite Hdb.
  destruct (la =? lb) eqn:El; cbn [negb]; zify_bool.
  2:{ exists 1, m2. split; [reflexivity|]. split; [exact Hm2|]. split; [auto|].
      split; [discriminate|]. intros (_ & (n & Hn1 & Hn2) & _).
      rewrite Ela in Hn1. rewrite Elb in Hn2. congruence. }
  destruct (request_granted m2 Hm2) as (m3 & Hr3 & Hm3).
  destruct (request_granted m3 Hm3) as (m4 & Hr4 & Hm4).
  unfold Alloc.bind. rewrite Hr3. cbn [negb]. rewrite Hr4. cbn [negb].
  destruct (strcmp (__gnu_dirname a) (__gnu_dirname b) =? 0) eqn:Ed;
    cbn [negb]; zify_bool.
  - exists 0, m4. split; [reflexivity|]. split; [exact Hm4|]. split; [auto|].
    split; [|reflexivity]. intros _. split; [exact Hroot|]. split; [|exact Ed].
    exists la. subst lb. split; [exact Ela|exact Elb].
  - exists 1, m4. split; [reflexivity|]. split; [exact Hm4|]. split; [auto|].
    split; [discriminate|]. intros (_ & _ & Hd). congruence.
Qed.

(** Whatever the allocator answers, [__check_paths] returns 0 only for
    rooted paths with the same directory part. *)
Lemma check_paths_zero fuel a b m m' :
  check_paths fuel a b m = Some (0, m') ->
  rooted_paths a b /\ strcmp (__gnu_dirname a) (__gnu_dirname b) = 0.
Proof.
  unfold __check_paths.
  destruct (negb (peek a 0 =? uchar "/") || negb (peek b 0 =? uchar "/")) eqn:E1;
    [discriminate|].
  destruct ((strlen a <? 2) || (strlen b <? 2)) eqn:E2; [discriminate|].
  assert (Hroot : rooted_paths a b)
    by (apply rooted_paths_test; rewrite E1, E2; reflexivity).
  unfold Alloc.bind, Alloc.ret.
  destruct (__dirlevels __gnu_dirname fuel a m) as [[la m1]|]; [|discriminate].
  destruct (__dirlevels __gnu_dirname fuel b m1) as [[lb m2]|]; [|discriminate].
  destruct (negb (la =? lb)); [discriminate|].
  destruct (Alloc.request m2) as [[ok3 m3]|]; [|discriminate].
  destruct (negb ok3); [discriminate|].
  destruct (Alloc.request m3) as [[ok4 m4]|]; [|discriminate].
  destruct (negb ok4); [discriminate|].
  destruct (strcmp (__gnu_dirname a) (__gnu_dirname b) =? 0) eqn:Ed;
    cbn [negb]; [|discriminate].
  intros _. zify_bool. split; assumption.
Qed.

Lemma set_alias_granted e file alias m :
  all_granted m ->
  exists m', __set_alias e file alias m = Some (with_alias e file alias, m')
             /\ all_granted m'.
Proof.
  intros Hm.
  destruct (request_granted m Hm) as (m1 & Hr1 & Hm1).
  destruct (request_granted m1 Hm1) as (m2 & Hr2 & Hm2).
  destruct (request_granted m2 Hm2) as (m3 & Hr3 & Hm3).
  exists m3. split; [|exact Hm3].
  unfold __set_alias, Alloc.bind. rewrite Hr1. cbn [negb].
  rewrite Hr2. cbn [negb]. rewrite Hr3. reflexivity.
Qed.

Lemma set_alias_any e file alias m e' m' :
  __set_alias e file alias m = Some (e', m') ->
  e' = e \/ e' = with_alias e file alias.
Proof.
  unfold __set_alias, Alloc.bind, Alloc.ret.
  destruct (Alloc.request m) as [[ok1 m1]|]; [|discriminate].
  destruct ok1; cbn [negb]; [|intros H; inversion H; auto].
  destruct (Alloc.request m1) as [[ok2 m2]|]; [|discriminate].
  destruct ok2; cbn [negb]; [|intros H; inversion H; auto].
  destruct (Alloc.request m2) as [[ok3 m3]|]; [|discriminate].
  destruct ok3; cbn [negb]; intros H; inversion H; auto.
Qed.

Lemma with_alias_changes e file alias : with_alias e file alias <> e.
Proof.
  intros H. apply (f_equal aliases) in H. cbn in H.
  apply (f_equal (@length _)) in H. rewrite length_app in H. cbn in H. lia.
Qed.

(** C8 (amended). For a configuration line that the scanner splits into
    a source path [a] and a target path [b], and when the level counts
    are reached within the fuel: if no allocation fails,
    [__entry_set_alias] ends and records the alias on the entry exactly
    when [a] and [b] both begin with a slash, both have at least two
    characters, have the same number of directory levels and directory
    parts that compare equal, and otherwise leaves the entry as it is;
    whatever the allocator answers, the entry afterwards is the old one or
    the old one with this alias, and the alias is only recorded for
    rooted paths with equal directory parts: a cross-directory alias is
    never recorded. *)
Theorem entry_set_alias_spec (fuel : nat) (e : config_entry)
  (value a b : cstring) :
  sscanf_alias value = Some (a, b) ->
  levels_counted __gnu_dirname fuel a b ->
  (forall m, all_granted m ->
     exists e' m',
       entry_set_alias fuel e value m = Some (e', m') /\
       (e' = with_alias e a b <-> allowed fuel a b) /\
       (~ allowed fuel a b -> e' = e)) /\
  (forall m e' m',
     entry_set_alias fuel e value m = Some (e', m') ->
     e' = e \/
     (e' = with_alias e a b /\ rooted_paths a b /\
      strcmp (__gnu_dirname a) (__gnu_dirname b) = 0)).
Proof.
  intros Hscan Hcount. split.
  - intros m Hm.
    destruct (request_granted m Hm) as (m1 & Hr1 & Hm1).
    destruct (request_granted m1 Hm1) as (m2 & Hr2 & Hm2).
    destruct (check_paths_granted fuel a b m2 Hm2 Hcount)
      as (r & m3 & Hc & Hm3 & Hr & Hiff).
    unfold __entry_set_alias, Alloc.bind at 1. rewrite Hr1. cbn [negb].
    unfold Alloc.bind at 1. rewrite Hr2. cbn [negb]. rewrite Hscan.
    unfold Alloc.bind at 1. rewrite Hc.
    destruct Hr as [-> | ->]; cbn [Z.eqb negb].
    + destruct (set_alias_granted e a b m3 Hm3) as (m4 & Hs & _).
      exists (with_alias e a b), m4. split; [exact Hs|]. split.
      * split; [intros _; apply Hiff; reflexivity|reflexivity].
      * intros Hn. exfalso. apply Hn, Hiff. reflexivity.
    + exists e, m3. split; [reflexivity|]. split; [|reflexivity]. split.
      * intros H. symmetry in H. apply with_alias_changes in H. contradiction.
      * intros H. apply Hiff in H. discriminate.
  - intros m e' m'. unfold __entry_set_alias, Alloc.bind at 1, Alloc.ret.
    destruct (Alloc.request m) as [[ok1 m1]|]; [|discriminate].
    destruct ok1; cbn [negb]; [|intros H; inversion H; auto].
    unfold Alloc.bind at 1.
    destruct (Alloc.request m1) as [[ok2 m2]|]; [|discriminate].
    destruct ok2; cbn [negb]; [|intros H; inversion H; auto].
    rewrite Hscan. unfold Alloc.bind at 1.
    destruct (check_paths fuel a b m2) as [[r m3]|] eqn:Hc; [|discriminate].
    destruct (r =? 0) eqn:Er; cbn [negb]; [|intros H; inversion H; auto].
    zify_bool. subst r. intros Hs.
    destruct (set_alias_any _ _ _ _ _ _ Hs) as [->| ->]; [auto|].
    right. split; [reflexivity|]. eapply check_paths_zero. exact Hc.
Qed.

(** When [__gnu_dirname] maps every rooted path other than the root to a
    shorter rooted path, the counting loop of [__dirlevels] ends. *)
Lemma dirlevels_loop_terminates :
  (forall p, peek p 0 = uchar "/" -> strcmp p (cstr "/") <> 0 ->
             peek (__gnu_dirname p) 0 = uchar "/" /\
             (length (__gnu_dirname p) < length p)%nat) ->
  forall p fuel count,
    peek p 0 = uchar "/" -> (length p < fuel)%nat ->
    levels fuel p count <> None.
Proof.
  intros Hdir p fuel. revert p.
  induction fuel as [|fuel IH]; intros p count Hp Hlen; [lia|].
  cbn [dirlevels_loop].
  destruct (strcmp p (cstr "/") =? 0) eqn:E; cbn [negb]; [discriminate|].
  zify_bool. destruct (Hdir p Hp E) as [Hp' Hlen'].
  apply IH; [exact Hp'|lia].
Qed.

End Alias.

Lemma entry_set_alias_spec_witness :
  Samples.sample_scan Samples.alias_line
  = Some (cstr "/dir/a.txt", cstr "/dir/b.txt") /\
  levels_counted Samples.sample_dirname 10 (cstr "/dir/a.txt") (cstr "/dir/b.txt") /\
  alias_allowed Samples.sample_dirname 10 (cstr "/dir/a.txt") (cstr "/dir/b.txt") /\
  exists m',
    __entry_set_alias Samples.sample_dirname Samples.sample_scan 10
                      Samples.no_config Samples.alias_line []
    = Some (with_alias Samples.no_config (cstr "/dir/a.txt") (cstr "/dir/b.txt"), m').
Proof.
  assert (Hscan : Samples.sample_scan Samples.alias_line
                  = Some (cstr "/dir/a.txt", cstr "/dir/b.txt")) by reflexivity.
  assert (Hcount : levels_counted Samples.sample_dirname 10
                     (cstr "/dir/a.txt") (cstr "/dir/b.txt")).
  { intros _. split; vm_compute; discriminate. }
  assert (Hok : alias_allowed Samples.sample_dirname 10
                  (cstr "/dir/a.txt") (cstr "/dir/b.txt")).
  { split; [|split].
    - unfold rooted_paths, strlen. repeat split; vm_compute; congruence.
    - exists 2. split; reflexivity.
    - reflexivity. }
  destruct (entry_set_alias_spec Samples.sample_dirname Samples.sample_scan 10
              Samples.no_config Samples.alias_line _ _ Hscan Hcount)
    as [Hgranted _].
  destruct (Hgranted [] (Forall_nil_2 _)) as (e' & m' & Hrun & Hiff & _).
  split; [exact Hscan|]. split; [exact Hcount|]. split; [exact Hok|].
  exists m'. rewrite Hrun. f_equal. f_equal. apply Hiff. exact Hok.
Defined.

(** C8 as stated fails when memory runs out: the two paths satisfy every
    condition, yet no alias is recorded. *)
Lemma entry_set_alias_counterexample :
  Samples.sample_scan Samples.alias_line
  = Some (cstr "/dir/a.txt", cstr "/dir/b.txt") /\
  alias_allowed Samples.sample_dirname 10 (cstr "/dir/a.txt") (cstr "/dir/b.txt") /\
  __entry_set_alias Samples.sample_dirname Samples.sample_scan 10
                    Samples.no_config Samples.alias_line [false]
  = Some (Samples.no_config, []) /\
  __entry_set_alias Samples.sample_dirname Samples.sample_scan 10
                    Samples.no_config Samples.alias_line
                    [true; true; true; true; true; true; true; false]
  = Some (Samples.no_config, []) /\
  Samples.no_config
  <> with_alias Samples.no_config (cstr "/dir/a.txt") (cstr "/dir/b.txt").
Proof.
  split; [reflexivity|]. split; [|split; [|split]; try reflexivity; discriminate].
  split; [|split].
  - unfold rooted_paths, strlen. repeat split; vm_compute; congruence.
  - exists 2. split; reflexivity.
  - reflexivity.
Qed.

(** A line that would move the file to another directory records
    nothing. *)
Example entry_set_alias_cross_directory :
  Samples.sample_scan Samples.move_line
  = Some (cstr "/dir/a.txt", cstr "/tmp/a.txt") /\
  __entry_set_alias Samples.sample_dirname Samples.sample_scan 10
                    Samples.no_config Samples.move_line []
  = Some (Samples.no_config, []).
Proof. split; reflexivity. Qed.

Lemma sanitize_nested_path_spec_witness :
  dotdot_only_whole (normalize_slashes (cstr "dir\..\file.rar")) = true /\
  sanitize_nested_path (Some (cstr "dir\..\file.rar")) true true
  = Some (cstr "dir/file.rar") /\
  has_dotdot_component (cstr "dir/file.rar") = false.
Proof.
  pose proof (sanitize_nested_path_spec (cstr "dir\..\file.rar") true true)
    as (_ & _ & Htidy).
  destruct (Htidy eq_refl) as (_ & _ & Hclean).
  split; [reflexivity|]. split; [reflexivity|].
  apply (Hclean (cstr "dir/file.rar") eq_refl).
Defined.

(** * Further properties *)

(** ** The stack of visited archives *)

Lemma cycle_loop_existsb n : forall i c g,
  0 <= i -> (Z.to_nat i + n <= length (visited c))%nat ->
  i + Z.of_nat n <= INT_MAX ->
  cycle_loop n i c g
  = existsb (fun v => fingerprint_match v g)
            (take n (drop (Z.to_nat i) (visited c))).
Proof.
  unfold INT_MAX.
  induction n as [|n IH]; intros i c g Hi Hlen Hmax; [reflexivity|].
  cbn [cycle_loop].
  destruct (lookup_lt_is_Some_2 (visited c) (Z.to_nat i)) as [v Hv]; [lia|].
  rewrite (drop_S _ _ _ Hv). cbn [take existsb].
  unfold visited_at. rewrite Hv.
  change (default fp_zero (Some v)) with v.
  destruct (fingerprint_match v g); [reflexivity|]. cbn [orb].
  rewrite int32_small by lia. rewrite IH by lia.
  replace (Z.to_nat (i + 1)) with (S (Z.to_nat i)) by lia. reflexivity.
Qed.

Lemma is_cycle_detected_stack c g :
  arrays_wf c -> 0 <= depth c <= MAX_RECURSION_DEPTH ->
  is_cycle_detected (Some c) (Some g)
  = existsb (fun v => fingerprint_match v g) (visited_stack c).
Proof.
  intros [Hlen _] Hd. unfold MAX_RECURSION_DEPTH in *.
  cbn [is_cycle_detected]. unfold visited_stack.
  rewrite cycle_loop_existsb by (unfold INT_MAX; cbn; lia).
  reflexivity.
Qed.

Lemma visited_stack_push c fp path :
  context_wf c -> depth c < max_depth c ->
  forall c', c' = set_depth (depth c + 1) (set_visited (depth c) fp c) \/
             c' = set_depth (depth c + 1)
                    (set_archive_chain (depth c) path
                       (set_visited (depth c) fp c)) ->
  visited_stack c' = visited_stack c ++ [fp].
Proof.
  intros Hwf Hlt c' Hc'. unfold_wf. unfold MAX_RECURSION_DEPTH in *.
  assert (Hs : visited_stack c'
               = take (Z.to_nat (depth c + 1))
                      (<[Z.to_nat (depth c) := fp]> (visited c))).
  { destruct Hc' as [-> | ->]; reflexivity. }
  rewrite Hs. unfold visited_stack.
  replace (Z.to_nat (depth c + 1)) with (S (Z.to_nat (depth c))) by lia.
  destruct (lookup_lt_is_Some_2 (<[Z.to_nat (depth c) := fp]> (visited c))
              (Z.to_nat (depth c))) as [v Hv].
  { rewrite length_insert. lia. }
  rewrite (take_S_r _ _ _ Hv).
  rewrite list_lookup_insert_eq in Hv by lia. inversion Hv; subst v.
  rewrite take_insert_ge by lia. reflexivity.
Qed.

Lemma existsb_snoc {A} (f : A -> bool) l x :
  existsb f (l ++ [x]) = existsb f l || f x.
Proof. rewrite existsb_app. cbn. rewrite orb_false_r. reflexivity. Qed.

(** X1.  After a push that returned 0 the pushed fingerprint is on top of
    the stack of visited archives, it is itself reported as a cycle, and
    any other fingerprint is reported exactly when it was reported before
    or matches the pushed one. *)
Theorem push_then_cycle_detected (c c' : recursion_context)
  (fp : archive_fingerprint) (path : option cstring) (strdup_ok : bool) :
  context_wf c ->
  recursion_push_archive c (Some fp) path strdup_ok = (0, c') ->
  visited_stack c' = visited_stack c ++ [fp] /\
  is_cycle_detected (Some c') (Some fp) = true /\
  forall g, is_cycle_detected (Some c') (Some g)
            = is_cycle_detected (Some c) (Some g) || fingerprint_match fp g.
Proof.
  intros Hwf Hpush.
  assert (Hwf' : context_wf c').
  { pose proof (push_wf c (Some fp) path strdup_ok Hwf) as H.
    rewrite Hpush in H. exact H. }
  assert (Hlt : depth c < max_depth c).
  { destruct (Z.lt_ge_cases (depth c) (max_depth c)) as [H|H]; [exact H|].
    rewrite push_at_limit in Hpush by lia. inversion Hpush. }
  assert (Hstack : visited_stack c' = visited_stack c ++ [fp]).
  { rewrite (push_below_limit c fp path strdup_ok Hwf Hlt) in Hpush.
    apply (visited_stack_push c fp
             (match path with Some p => Some p | None => None end) Hwf Hlt).
    destruct path as [p|]; [destruct strdup_ok|]; inversion Hpush; auto. }
  assert (Hdet : forall g, is_cycle_detected (Some c') (Some g)
            = is_cycle_detected (Some c) (Some g) || fingerprint_match fp g).
  { intros g.
    rewrite !is_cycle_detected_stack by (unfold_wf; intuition lia).
    rewrite Hstack.
    exact (existsb_snoc (fun v => fingerprint_match v g) _ fp). }
  split; [exact Hstack|]. split; [|exact Hdet].
  rewrite Hdet.
  assert (Hm : fingerprint_match fp fp = true)
    by (apply fingerprint_match_true; auto).
  rewrite Hm. apply orb_true_r.
Qed.

Lemma push_then_cycle_detected_witness :
  context_wf Samples.fresh /\
  is_cycle_detected (Some Samples.fresh) (Some Samples.fp_a) = false /\
  is_cycle_detected
    (Some (snd (recursion_push_archive Samples.fresh (Some Samples.fp_a)
                  (Some (cstr "outer.rar")) true)))
    (Some Samples.fp_a) = true.
Proof.
  split; [apply init_wf|]. split; [reflexivity|].
  apply (push_then_cycle_detected Samples.fresh _ Samples.fp_a
           (Some (cstr "outer.rar")) true (init_wf _ _) eq_refl).
Defined.

(** X2.  A pop takes the topmost fingerprint off the stack of visited
    archives: afterwards a fingerprint is reported as a cycle exactly when
    it matches one of the archives below the popped one. *)
Theorem pop_forgets_top (c : recursion_context) :
  context_wf c -> 0 < depth c ->
  visited_stack (recursion_pop_archive c) = removelast (visited_stack c) /\
  length (visited_stack (recursion_pop_archive c))
  = (length (visited_stack c) - 1)%nat /\
  forall g, is_cycle_detected (Some (recursion_pop_archive c)) (Some g)
            = existsb (fun v => fingerprint_match v g)
                      (removelast (visited_stack c)).
Proof.
  intros Hwf Hpos.
  pose proof (pop_wf c Hwf) as Hwf'.
  assert (Hstack : visited_stack (recursion_pop_archive c)
                   = removelast (visited_stack c)).
  { unfold recursion_pop_archive.
    destruct (depth c <=? 0) eqn:E; [zify_bool; lia|].
    unfold_wf. unfold MAX_RECURSION_DEPTH in *.
    rewrite int32_small by lia.
    unfold visited_stack. cbn.
    rewrite take_insert_ge by lia.
    replace (Z.to_nat (depth c)) with (S (Z.to_nat (depth c - 1))) by lia.
    destruct (lookup_lt_is_Some_2 (visited c) (Z.to_nat (depth c - 1)))
      as [v Hv]; [lia|].
    rewrite (take_S_r _ _ _ Hv). rewrite removelast_last. reflexivity. }
  split; [exact Hstack|]. split.
  - rewrite Hstack. unfold visited_stack. unfold_wf.
    unfold MAX_RECURSION_DEPTH in *.
    destruct (take (Z.to_nat (depth c)) (visited c)) as [|x l] eqn:E using rev_ind.
    + reflexivity.
    + rewrite removelast_last, length_app. cbn. lia.
  - intros g. rewrite is_cycle_detected_stack.
    + rewrite Hstack. reflexivity.
    + apply Hwf'.
    + unfold_wf. intuition lia.
Qed.

Lemma pop_forgets_top_witness :
  context_wf Samples.two_deep /\ 0 < depth Samples.two_deep /\
  is_cycle_detected (Some Samples.two_deep) (Some Samples.fp_b) = true /\
  is_cycle_detected (Some (recursion_pop_archive Samples.two_deep))
                    (Some Samples.fp_b) = false.
Proof.
  assert (Hwf : context_wf Samples.two_deep).
  { unfold Samples.two_deep. apply push_wf, push_wf, init_wf. }
  assert (Hpos : 0 < depth Samples.two_deep) by reflexivity.
  split; [exact Hwf|]. split; [exact Hpos|]. split; [reflexivity|].
  destruct (pop_forgets_top Samples.two_deep Hwf Hpos) as (_ & _ & Hdet).
  rewrite Hdet. reflexivity.
Defined.

(** X3.  A push that does not return 0 (NULL fingerprint, depth limit,
    failed [strdup]) changes neither the depth nor the stack of visited
    archives, so every fingerprint is reported as before. *)
Theorem failed_push_keeps_stack (c : recursion_context)
  (fp : option archive_fingerprint) (path : option cstring)
  (strdup_ok : bool) :
  context_wf c ->
  fst (recursion_push_archive c fp path strdup_ok) <> 0 ->
  let c' := snd (recursion_push_archive c fp path strdup_ok) in
  depth c' = depth c /\
  visited_stack c' = visited_stack c /\
  forall g, is_cycle_detected (Some c') (Some g)
            = is_cycle_detected (Some c) (Some g).
Proof.
  intros Hwf Hfail c'.
  pose proof (push_wf c fp path strdup_ok Hwf) as Hwf'. fold c' in Hwf'.
  assert (Hboth : depth c' = depth c /\ visited_stack c' = visited_stack c).
  { subst c'. destruct fp as [f|]; [|split; reflexivity].
    destruct (Z.lt_ge_cases (depth c) (max_depth c)) as [Hlt|Hge].
    - rewrite (push_below_limit c f path strdup_ok Hwf Hlt) in *.
      destruct path as [p|]; [destruct strdup_ok|]; cbn in Hfail;
        try congruence.
      split; [reflexivity|].
      unfold visited_stack. cbn.
      unfold_wf. apply take_insert_ge. lia.
    - rewrite push_at_limit by lia. split; reflexivity. }
  destruct Hboth as [Hd Hs]. split; [exact Hd|]. split; [exact Hs|].
  intros g.
  rewrite !is_cycle_detected_stack by (unfold_wf; intuition lia).
  rewrite Hs. reflexivity.
Qed.

Lemma failed_push_keeps_stack_witness :
  context_wf Samples.fresh /\
  fst (recursion_push_archive Samples.fresh (Some Samples.fp_a)
         (Some (cstr "outer.rar")) false) = - ENOMEM /\
  is_cycle_detected
    (Some (snd (recursion_push_archive Samples.fresh (Some Samples.fp_a)
                  (Some (cstr "outer.rar")) false)))
    (Some Samples.fp_a) = false.
Proof.
  split; [apply init_wf|]. split; [reflexivity|].
  assert (Hfail : fst (recursion_push_archive Samples.fresh (Some Samples.fp_a)
                         (Some (cstr "outer.rar")) false) <> 0)
    by (vm_compute; discriminate).
  destruct (failed_push_keeps_stack Samples.fresh (Some Samples.fp_a)
              (Some (cstr "outer.rar")) false (init_wf _ _) Hfail)
    as (_ & _ & Hdet).
  rewrite Hdet. reflexivity.
Defined.

(** ** A fresh context *)


(** ** The depth limit along a chain of archives *)

Lemma push_all_cons c fp path rest :
  push_all c ((fp, path) :: rest)
  = (fst (recursion_push_archive c (Some fp) path true)
       :: fst (push_all (snd (recursion_push_archive c (Some fp) path true)) rest),
     snd (push_all (snd (recursion_push_archive c (Some fp) path true)) rest)).
Proof.
  cbn [push_all].
  destruct (recursion_push_archive c (Some fp) path true) as [r c1].
  cbn [fst snd]. destruct (push_all c1 rest). reflexivity.
Qed.

(** X5.  Along a chain of nested archives pushed one after the other
    (every [strdup] succeeding) the pushes return 0 as long as there is
    room below the depth limit and [-ELOOP] from then on: exactly
    [max_depth - depth] further archives can be entered, and these are the
    ones on the stack at the end. *)
Theorem push_all_capacity (chain : list (archive_fingerprint * option cstring)) :
  forall c : recursion_context,
  context_wf c ->
  let room := Z.to_nat (max_depth c - depth c) in
  let n := length chain in
  fst (push_all c chain)
  = replicate (Nat.min n room) 0 ++ replicate (n - room) (- ELOOP) /\
  depth (snd (push_all c chain)) = depth c + Z.of_nat (Nat.min n room) /\
  max_depth (snd (push_all c chain)) = max_depth c /\
  visited_stack (snd (push_all c chain))
  = visited_stack c ++ take room (map fst chain).
Proof.
  induction chain as [|[fp path] rest IH]; intros c Hwf room n.
  - subst room n. cbn [push_all fst snd length map Nat.min Nat.sub replicate app].
    rewrite take_nil, app_nil_r, Z.add_0_r. auto.
  - rewrite push_all_cons. cbn [fst snd].
    destruct (Z.lt_ge_cases (depth c) (max_depth c)) as [Hlt|Hge].
    + pose proof (push_wf c (Some fp) path true Hwf) as Hwf1.
      assert (Hp : exists c1,
                 recursion_push_archive c (Some fp) path true = (0, c1) /\
                 depth c1 = depth c + 1 /\ max_depth c1 = max_depth c /\
                 visited_stack c1 = visited_stack c ++ [fp]).
      { rewrite (push_below_limit c fp path true Hwf Hlt).
        destruct path as [p|]; eexists;
          (split; [reflexivity|]); (split; [reflexivity|]);
          (split; [reflexivity|]).
        - apply (visited_stack_push c fp (Some p) Hwf Hlt). right. reflexivity.
        - apply (visited_stack_push c fp None Hwf Hlt). left. reflexivity. }
      destruct Hp as (c1 & Hp & Hd1 & Hm1 & Hs1).
      rewrite Hp in *. cbn [fst snd] in *.
      destruct (IH c1 Hwf1) as (Hr & Hd & Hm & Hs).
      rewrite Hr, Hd, Hm, Hs, Hd1, Hm1, Hs1.
      subst room n. cbn [length map].
      replace (Z.to_nat (max_depth c - depth c))
        with (S (Z.to_nat (max_depth c - (depth c + 1)))) by lia.
      cbn [Nat.min Nat.sub take replicate].
      rewrite <- app_assoc. cbn [app].
      repeat split; try reflexivity. lia.
    + rewrite push_at_limit by lia. cbn [fst snd].
      destruct (IH c Hwf) as (Hr & Hd & Hm & Hs).
      rewrite Hr, Hd, Hm, Hs.
      subst room n. cbn [length map].
      replace (Z.to_nat (max_depth c - depth c)) with 0%nat by lia.
      rewrite !Nat.min_0_r, !Nat.sub_0_r. cbn [replicate take app].
      repeat split; reflexivity.
Qed.

Lemma push_all_capacity_witness :
  context_wf Samples.fresh /\
  fst (push_all Samples.fresh
         (replicate 7 (Samples.fp_a, Some (cstr "inner.rar"))))
  = [0; 0; 0; 0; 0; - ELOOP; - ELOOP].
Proof.
  split; [apply init_wf|].
  apply (push_all_capacity
           (replicate 7 (Samples.fp_a, Some (cstr "inner.rar")))
           Samples.fresh (init_wf _ _)).
Defined.

(** ** Cleanup *)

Lemma set_archive_chain_fields i p c :
  depth (set_archive_chain i p c) = depth c /\
  max_depth (set_archive_chain i p c) = max_depth c /\
  visited (set_archive_chain i p c) = visited c /\
  total_unpacked_size (set_archive_chain i p c) = total_unpacked_size c /\
  max_unpacked_size (set_archive_chain i p c) = max_unpacked_size c /\
  start_time (set_archive_chain i p c) = start_time c.
Proof. repeat split. Qed.

Lemma cleanup_loop_fields n : forall i c,
  depth (cleanup_loop n i c) = depth c /\
  max_depth (cleanup_loop n i c) = max_depth c /\
  visited (cleanup_loop n i c) = visited c /\
  total_unpacked_size (cleanup_loop n i c) = total_unpacked_size c /\
  max_unpacked_size (cleanup_loop n i c) = max_unpacked_size c /\
  start_time (cleanup_loop n i c) = start_time c.
Proof.
  induction n as [|n IH]; intros i c; [repeat split|].
  cbn [cleanup_loop].
  destruct (archive_chain c !! Z.to_nat i) as [[p|]|]; try apply IH.
  destruct (IH (int32 (i + 1)) (set_archive_chain i None c))
    as (H1 & H2 & H3 & H4 & H5 & H6).
  rewrite H1, H2, H3, H4, H5, H6. apply set_archive_chain_fields.
Qed.

Lemma cleanup_loop_chain n : forall i c,
  0 <= i -> (Z.to_nat i + n <= length (archive_chain c))%nat ->
  i + Z.of_nat n <= INT_MAX ->
  archive_chain (cleanup_loop n i c)
  = take (Z.to_nat i) (archive_chain c) ++ replicate n None
    ++ drop (Z.to_nat i + n) (archive_chain c).
Proof.
  unfold INT_MAX.
  induction n as [|n IH]; intros i c Hi Hlen Hmax.
  - cbn [cleanup_loop replicate app]. rewrite Nat.add_0_r.
    symmetry. apply take_drop.
  - cbn [cleanup_loop].
    destruct (lookup_lt_is_Some_2 (archive_chain c) (Z.to_nat i)) as [v Hv];
      [lia|].
    assert (Hstep : archive_chain
                      match archive_chain c !! Z.to_nat i with
                      | Some (Some _) => set_archive_chain i None c
                      | _ => c
                      end
                    = <[Z.to_nat i := None]> (archive_chain c)).
    { rewrite Hv. destruct v as [p|]; [reflexivity|].
      symmetry. apply list_insert_id. exact Hv. }
    rewrite int32_small by lia. rewrite IH.
    + rewrite Hstep.
      replace (Z.to_nat (i + 1)) with (S (Z.to_nat i)) by lia.
      rewrite (take_S_r _ _ None)
        by (apply list_lookup_insert_eq; lia).
      rewrite take_insert_ge by lia.
      rewrite drop_insert_lt by lia.
      rewrite <- app_assoc. cbn [replicate app].
      replace (S (Z.to_nat i) + n)%nat with (Z.to_nat i + S n)%nat by lia.
      reflexivity.
    + lia.
    + rewrite Hstep, length_insert. lia.
    + lia.
Qed.

Lemma cycle_loop_visited n : forall i c c' g,
  visited c = visited c' -> cycle_loop n i c g = cycle_loop n i c' g.
Proof.
  induction n as [|n IH]; intros i c c' g Hv; [reflexivity|].
  cbn [cycle_loop]. unfold visited_at. rewrite Hv.
  rewrite (IH _ c c' g Hv). reflexivity.
Qed.

Lemma cleanup_fields c :
  depth (recursion_context_cleanup c) = depth c /\
  max_depth (recursion_context_cleanup c) = max_depth c /\
  visited (recursion_context_cleanup c) = visited c /\
  total_unpacked_size (recursion_context_cleanup c) = total_unpacked_size c /\
  max_unpacked_size (recursion_context_cleanup c) = max_unpacked_size c /\
  start_time (recursion_context_cleanup c) = start_time c.
Proof. unfold recursion_context_cleanup. apply cleanup_loop_fields. Qed.

Lemma cleanup_chain c :
  length (archive_chain c) = Z.to_nat MAX_RECURSION_DEPTH ->
  archive_chain (recursion_context_cleanup c)
  = replicate (Z.to_nat MAX_RECURSION_DEPTH) None.
Proof.
  intros Hc. unfold recursion_context_cleanup.
  rewrite cleanup_loop_chain
    by (rewrite ?Hc; unfold INT_MAX, MAX_RECURSION_DEPTH; lia).
  change (Z.to_nat 0) with 0%nat. rewrite take_0. cbn [app].
  rewrite drop_ge by (rewrite Hc; lia).
  apply app_nil_r.
Qed.

Lemma cleanup_loop_cleared n : forall i c,
  archive_chain c = replicate (Z.to_nat MAX_RECURSION_DEPTH) None ->
  cleanup_loop n i c = c.
Proof.
  induction n as [|n IH]; intros i c Hc; [reflexivity|].
  cbn [cleanup_loop].
  destruct (archive_chain c !! Z.to_nat i) as [[p|]|] eqn:E;
    [|apply IH; exact Hc|apply IH; exact Hc].
  rewrite Hc in E.
  apply lookup_replicate in E. destruct E as [E _]. discriminate.
Qed.

(** X6.  [recursion_context_cleanup] sets every slot of [archive_chain] to
    NULL and changes nothing else: the depth is not reset and the visited
    fingerprints stay, so well-formedness is kept and every fingerprint is
    reported as a cycle exactly as before the cleanup. *)
Theorem cleanup_clears_chain (c : recursion_context) :
  arrays_wf c ->
  archive_chain (recursion_context_cleanup c)
  = replicate (Z.to_nat MAX_RECURSION_DEPTH) None /\
  depth (recursion_context_cleanup c) = depth c /\
  max_depth (recursion_context_cleanup c) = max_depth c /\
  visited (recursion_context_cleanup c) = visited c /\
  total_unpacked_size (recursion_context_cleanup c) = total_unpacked_size c /\
  max_unpacked_size (recursion_context_cleanup c) = max_unpacked_size c /\
  start_time (recursion_context_cleanup c) = start_time c /\
  (context_wf c -> context_wf (recursion_context_cleanup c)) /\
  (forall g, is_cycle_detected (Some (recursion_context_cleanup c)) g
             = is_cycle_detected (Some c) g) /\
  recursion_context_cleanup (recursion_context_cleanup c)
  = recursion_context_cleanup c.
Proof.
  intros [Hv Hc].
  pose proof (cleanup_fields c) as (H1 & H2 & H3 & H4 & H5 & H6).
  pose proof (cleanup_chain c Hc) as Hchain.
  split; [exact Hchain|].
  repeat (split; [assumption|]).
  split.
  { intros Hwf. unfold_wf. rewrite H1, H2, H3, H4, H5, Hchain.
    rewrite length_replicate. intuition lia. }
  split.
  { intros [g|]; [|reflexivity]. cbn [is_cycle_detected]. rewrite H1.
    apply cycle_loop_visited. exact H3. }
  unfold recursion_context_cleanup at 1.
  apply cleanup_loop_cleared. exact Hchain.
Qed.

Lemma cleanup_clears_chain_witness :
  arrays_wf Samples.two_deep /\
  archive_chain Samples.two_deep !! 0%nat = Some (Some (cstr "outer.rar")) /\
  archive_chain (recursion_context_cleanup Samples.two_deep)
  = replicate 10 None /\
  depth (recursion_context_cleanup Samples.two_deep) = 2.
Proof.
  assert (Ha : arrays_wf Samples.two_deep) by (split; reflexivity).
  destruct (cleanup_clears_chain Samples.two_deep Ha) as (Hc & Hd & _).
  split; [exact Ha|]. split; [reflexivity|]. split; [exact Hc|].
  rewrite Hd. reflexivity.
Defined.

(** ** Slots above the depth *)

(** X7.  In every context obtained from [recursion_context_init] through
    the functions of recursion.h the slots of [archive_chain] from index
    [depth] on are NULL: a push stores its copy of the path in a slot that
    holds nothing, so no stored path is overwritten before it is freed. *)
Theorem chain_above_depth_is_null (c : recursion_context) :
  reachable c -> chain_clear_above c.
Proof.
  intros Hr. unfold chain_clear_above, MAX_RECURSION_DEPTH.
  induction Hr as [opts now|c fp path ok Hr IH|c Hr IH|c sz Hsz Hr IH].
  - intros i Hi. cbn [recursion_context_init archive_chain depth] in *.
    apply lookup_replicate. split; [reflexivity|].
    unfold MAX_RECURSION_DEPTH. lia.
  - pose proof (reachable_wf c Hr) as Hwf.
    destruct fp as [f|]; [|exact IH].
    destruct (Z.lt_ge_cases (depth c) (max_depth c)) as [Hlt|Hge];
      [|rewrite push_at_limit by lia; exact IH].
    rewrite (push_below_limit c f path ok Hwf Hlt).
    unfold_wf. unfold MAX_RECURSION_DEPTH in *.
    destruct path as [p|]; [destruct ok|]; cbn; intros i Hi.
    + rewrite list_lookup_insert_ne by lia. apply IH. lia.
    + destruct (Z.eq_dec i (depth c)) as [->|Hne].
      * apply list_lookup_insert_eq. lia.
      * rewrite list_lookup_insert_ne by lia. apply IH. lia.
    + apply IH. lia.
  - pose proof (reachable_wf c Hr) as Hwf.
    unfold recursion_pop_archive.
    destruct (depth c <=? 0) eqn:E; [exact IH|]. zify_bool.
    unfold_wf. unfold MAX_RECURSION_DEPTH in *.
    rewrite int32_small by lia. cbn. intros i Hi.
    destruct (Z.eq_dec i (depth c - 1)) as [->|Hne].
    + apply list_lookup_insert_eq. lia.
    + rewrite list_lookup_insert_ne by lia. apply IH. lia.
  - unfold check_unpack_size_limit.
    destruct (sz <? 0); [exact IH|].
    destruct (total_unpacked_size c >? int64 (max_unpacked_size c - sz));
      exact IH.
Qed.

Lemma chain_above_depth_is_null_witness :
  reachable Samples.two_deep /\
  archive_chain Samples.two_deep !! 1%nat = Some (Some (cstr "mid.rar")) /\
  archive_chain Samples.two_deep !! 2%nat = Some None.
Proof.
  assert (Hr : reachable Samples.two_deep).
  { unfold Samples.two_deep, Samples.fresh.
    apply reach_push, reach_push, reach_init. }
  split; [exact Hr|]. split; [reflexivity|].
  apply (chain_above_depth_is_null Samples.two_deep Hr 2).
  split; [reflexivity|]. unfold MAX_RECURSION_DEPTH. lia.
Defined.

(** ** The cumulative size limit *)

Lemma check_unpack_size_limit_step c s :
  context_wf c -> in_off_t s ->
  let r := fst (check_unpack_size_limit c s) in
  let c1 := snd (check_unpack_size_limit c s) in
  (r = 0 \/ r = - EINVAL \/ r = - EFBIG) /\
  total_unpacked_size c1 = total_unpacked_size c + (if r =? 0 then s else 0) /\
  (r = 0 -> 0 <= s) /\
  max_unpacked_size c1 = max_unpacked_size c.
Proof.
  intros Hwf Hs. unfold check_unpack_size_limit, in_off_t, OFF_MIN in *.
  destruct (s <? 0) eqn:E0.
  { cbn [fst snd]. change (- EINVAL =? 0) with false. unfold EINVAL.
    split; [lia|]. split; [lia|]. split; [lia|reflexivity]. }
  assert (Hw : int64 (max_unpacked_size c - s) = max_unpacked_size c - s).
  { unfold_wf. zify_bool. unfold OFF_MAX in *. apply int64_small; lia. }
  rewrite Hw.
  destruct (total_unpacked_size c >? max_unpacked_size c - s) eqn:E1.
  { cbn [fst snd]. change (- EFBIG =? 0) with false. unfold EFBIG.
    split; [lia|]. split; [lia|]. split; [lia|reflexivity]. }
  unfold_wf. unfold OFF_MAX in *. zify_bool. cbn.
  rewrite int64_small by lia.
  split; [lia|]. split; [lia|]. split; [lia|reflexivity].
Qed.

Lemma check_all_cons c s rest :
  check_all c (s :: rest)
  = (fst (check_unpack_size_limit c s)
       :: fst (check_all (snd (check_unpack_size_limit c s)) rest),
     snd (check_all (snd (check_unpack_size_limit c s)) rest)).
Proof.
  cbn [check_all].
  destruct (check_unpack_size_limit c s) as [r c1].
  cbn [fst snd]. destruct (check_all c1 rest). reflexivity.
Qed.

(** X8.  Over any sequence of calls of [check_unpack_size_limit] the
    running total is the total at the start plus the sizes of the calls
    that returned 0; it never decreases and never exceeds the limit, the
    limit itself is never changed, and every call returns 0, [-EINVAL] or
    [-EFBIG]. *)
Theorem check_all_accumulates (sizes : list Z) :
  forall c : recursion_context,
  context_wf c -> Forall in_off_t sizes ->
  let rs := fst (check_all c sizes) in
  let c' := snd (check_all c sizes) in
  length rs = length sizes /\
  Forall (fun r => r = 0 \/ r = - EINVAL \/ r = - EFBIG) rs /\
  total_unpacked_size c' = total_unpacked_size c + accepted_total rs sizes /\
  total_unpacked_size c <= total_unpacked_size c' <= max_unpacked_size c /\
  max_unpacked_size c' = max_unpacked_size c.
Proof.
  induction sizes as [|s rest IH]; intros c Hwf Hsizes.
  - cbn. unfold_wf. repeat split; try lia. constructor.
  - inversion Hsizes as [|? ? Hs Hrest]; subst.
    rewrite check_all_cons. cbn [fst snd].
    destruct (check_unpack_size_limit_step c s Hwf Hs) as (Hr & Ht & Hpos & Hm).
    pose proof (size_limit_wf c s Hs Hwf) as Hwf1.
    destruct (IH _ Hwf1 Hrest) as (Hlen & Hall & Htot & Hle & Hmax).
    cbn [length accepted_total].
    rewrite Hlen, Htot, Hmax, Ht, Hm in *.
    split; [reflexivity|]. split; [constructor; assumption|].
    split; [lia|]. split; [|reflexivity].
    destruct (fst (check_unpack_size_limit c s) =? 0) eqn:E; zify_bool; lia.
Qed.

Lemma check_all_accumulates_witness :
  context_wf Samples.fresh /\
  Forall in_off_t [4 * ONE_GIB; 7 * ONE_GIB; -1; 6 * ONE_GIB] /\
  fst (check_all Samples.fresh [4 * ONE_GIB; 7 * ONE_GIB; -1; 6 * ONE_GIB])
  = [0; - EFBIG; - EINVAL; 0] /\
  total_unpacked_size
    (snd (check_all Samples.fresh [4 * ONE_GIB; 7 * ONE_GIB; -1; 6 * ONE_GIB]))
  = 10 * ONE_GIB.
Proof.
  assert (Hin : Forall in_off_t [4 * ONE_GIB; 7 * ONE_GIB; -1; 6 * ONE_GIB]).
  { repeat constructor; vm_compute; discriminate. }
  split; [apply init_wf|]. split; [exact Hin|]. split; [reflexivity|].
  destruct (check_all_accumulates [4 * ONE_GIB; 7 * ONE_GIB; -1; 6 * ONE_GIB]
              Samples.fresh (init_wf _ _) Hin) as (_ & _ & Htot & _).
  rewrite Htot. reflexivity.
Defined.

(** ** What the extraction callback has stored *)

Lemma run_calls_cons b c cs :
  run_calls b (c :: cs) = run_calls (snd (run_call b c)) cs.
Proof. reflexivity. Qed.

Lemma run_calls_error cs : forall b,
  buf_error b <> 0 -> run_calls b cs = b.
Proof.
  induction cs as [|c cs IH]; intros b Hb; [reflexivity|].
  rewrite run_calls_cons.
  assert (Hs : snd (run_call b c) = b).
  { unfold run_call, extract_to_memory_callback.
    destruct (negb (call_msg c =? UCM_PROCESSDATA)); [reflexivity|].
    destruct (buf_error b =? 0) eqn:E; [zify_bool; contradiction|].
    reflexivity. }
  rewrite Hs. apply IH. exact Hb.
Qed.

Lemma run_call_payload b c :
  buffer_wf b -> chunk_wf c -> buf_error b = 0 ->
  run_call b c = (-1, set_buf_error 1 b) \/
  (fst (run_call b c) = 1 /\
   buf_data (snd (run_call b c)) = buf_data b ++ payload c /\
   buf_error (snd (run_call b c)) = 0).
Proof.
  intros Hb Hc He. rewrite (run_call_cases b c Hb Hc). unfold payload.
  destruct (call_msg c =? UCM_PROCESSDATA) eqn:Em; cbn [negb].
  2:{ right. rewrite app_nil_r. auto. }
  rewrite He. cbn [Z.eqb negb].
  destruct (call_P1 c) as [d|] eqn:Ed; cbn [default from_option].
  2:{ right. rewrite app_nil_r. auto. }
  change (default [] (Some d)) with d.
  cbv zeta.
  destruct (Z.of_nat (length d) =? 0) eqn:E0.
  { right. zify_bool. destruct d; [|cbn in E0; lia].
    rewrite app_nil_r. auto. }
  destruct (buf_size b + Z.of_nat (length d) >? buf_capacity b).
  - destruct (grown_capacity b (Z.of_nat (length d)) >? ONE_GIB); [left; reflexivity|].
    destruct (call_realloc_ok c); cbn [negb]; [|left; reflexivity].
    right. cbn. auto.
  - right. cbn. auto.
Qed.

(** X9.  Started on a buffer without error, the callback has stored, at
    any point, the buffer's earlier content followed by the chunks of the
    calls before the first one that returned -1, in the order of the calls
    and with nothing left out or added; when no error is flagged at the end
    these are the chunks of all the calls. *)
Theorem callback_stores_payloads (cs : list callback_call) :
  forall b : extract_buffer,
  buffer_wf b -> Forall chunk_wf cs -> buf_error b = 0 ->
  exists k : nat,
    (k <= length cs)%nat /\
    buf_data (run_calls b cs)
    = buf_data b ++ concat (map payload (take k cs)) /\
    (buf_error (run_calls b cs) = 0 <-> k = length cs) /\
    (forall j c, (j < k)%nat -> cs !! j = Some c ->
       fst (run_call (run_calls b (take j cs)) c) = 1) /\
    (forall c, cs !! k = Some c ->
       fst (run_call (run_calls b (take k cs)) c) = -1 /\
       buf_error (run_calls b cs) = 1).
Proof.
  induction cs as [|c cs IH]; intros b Hb Hcs He.
  - exists 0%nat. cbn. rewrite app_nil_r.
    split; [lia|]. split; [reflexivity|]. split; [tauto|].
    split; [intros; lia|]. intros c Hc. discriminate.
  - inversion Hcs as [|? ? Hc Hrest]; subst.
    rewrite run_calls_cons.
    destruct (run_call_payload b c Hb Hc He) as [Hfail|(Hret & Hdata & Herr)].
    + exists 0%nat. rewrite Hfail. cbn [snd].
      rewrite run_calls_error by (cbn; lia).
      cbn [take map concat length buf_data buf_error set_buf_error].
      rewrite app_nil_r.
      split; [lia|]. split; [reflexivity|].
      split; [split; intros; lia|].
      split; [intros; lia|].
      intros c0 Hc0. cbn in Hc0. inversion Hc0; subst c0.
      cbn [run_calls fold_left]. rewrite Hfail. auto.
    + pose proof (run_call_wf b c Hb Hc) as Hb1.
      destruct (IH _ Hb1 Hrest Herr) as (k & Hk & Hd & Hiff & Hbefore & Hat).
      exists (S k). cbn [take map concat length].
      split; [lia|].
      split; [rewrite Hd, Hdata, <- app_assoc; reflexivity|].
      split; [rewrite Hiff; lia|].
      split.
      * intros j c0 Hj Hc0. destruct j as [|j].
        -- cbn in Hc0. inversion Hc0; subst c0. exact Hret.
        -- cbn [take]. rewrite run_calls_cons. apply Hbefore; [lia|exact Hc0].
      * intros c0 Hc0. rewrite run_calls_cons. apply Hat. exact Hc0.
Qed.

Lemma callback_stores_payloads_witness :
  buffer_wf empty_buffer /\
  Forall chunk_wf [Samples.magic_chunk; Samples.magic_chunk] /\
  buf_error (run_calls empty_buffer [Samples.magic_chunk; Samples.magic_chunk])
  = 0 /\
  buf_data (run_calls empty_buffer [Samples.magic_chunk; Samples.magic_chunk])
  = Samples.rar_magic ++ Samples.rar_magic.
Proof.
  assert (Hb : buffer_wf empty_buffer) by (split; cbn; unfold ONE_GIB; lia).
  assert (Hcs : Forall chunk_wf [Samples.magic_chunk; Samples.magic_chunk]).
  { repeat constructor; cbn; unfold LONG_MAX; lia. }
  split; [exact Hb|]. split; [exact Hcs|]. split; [reflexivity|].
  destruct (callback_stores_payloads _ empty_buffer Hb Hcs eq_refl)
    as (k & Hk & Hd & Hiff & _).
  rewrite Hd.
  rewrite (proj1 Hiff eq_refl). reflexivity.
Defined.

(** ** Fingerprints *)

Lemma lxor_range a b :
  0 <= a < 2 ^ 64 -> 0 <= b < 2 ^ 64 -> 0 <= Z.lxor a b < 2 ^ 64.
Proof.
  intros Ha Hb. split.
  - apply Z.lxor_nonneg. lia.
  - destruct (Z.eq_dec (Z.lxor a b) 0) as [->|Hne]; [lia|].
    apply Z.log2_lt_pow2; [pose proof (proj2 (Z.lxor_nonneg a b)); lia|].
    eapply Z.le_lt_trans; [apply Z.log2_lxor; lia|].
    apply Z.max_lub_lt.
    + destruct (Z.eq_dec a 0) as [->|]; [cbn; lia|].
      apply Z.log2_lt_pow2; lia.
    + destruct (Z.eq_dec b 0) as [->|]; [cbn; lia|].
      apply Z.log2_lt_pow2; lia.
Qed.

Lemma compute_archive_fingerprint_chunks bo data t :
  0 < Z.of_nat (length data) <= OFF_MAX ->
  compute_archive_fingerprint bo (Some data) (Z.of_nat (length data)) t
  = mk_fingerprint
      (fnv1a_hash_64
         (uint64_bytes bo
            (Z.lxor (fnv1a_reference (take 4096 data))
                    (if Z.of_nat (length data) >? 4096
                     then fnv1a_reference (last_bytes 4096 data) else 0))) 8)
      (Z.of_nat (length data)) t.
Proof.
  intros Hn. unfold OFF_MAX in Hn. unfold compute_archive_fingerprint.
  set (n := Z.of_nat (length data)) in *.
  destruct (n =? 0) eqn:E0; [zify_bool; lia|].
  unfold FINGERPRINT_CHUNK_SIZE.
  rewrite int64_small by lia.
  assert (H1 : fnv1a_hash_64 data (if n <? 4096 then n else 4096)
               = fnv1a_reference (take 4096 data)).
  { destruct (n <? 4096) eqn:E; zify_bool;
      rewrite fnv1a_hash_64_reference by (fold n; lia).
    - rewrite !take_ge by lia. reflexivity.
    - reflexivity. }
  rewrite H1.
  destruct (n >? 4096) eqn:E; [|reflexivity]. zify_bool.
  rewrite (fnv1a_hash_64_reference (drop (Z.to_nat (n - 4096)) data))
    by (rewrite length_drop; fold n; lia).
  rewrite last_bytes_drop by lia.
  replace (Z.to_nat (n - 4096)) with (length data - 4096)%nat by lia.
  rewrite (take_ge (drop (length data - 4096) data))
    by (rewrite length_drop; lia).
  reflexivity.
Qed.

(** X10.  The fingerprint of an archive depends only on its size, its
    modification time, its first 4096 bytes and its last 4096 bytes: two
    archives that agree in these have the same fingerprint, whatever lies
    in between, so [is_cycle_detected] takes one for the other. *)
Theorem fingerprint_ignores_middle (bo : byte_order)
  (data1 data2 : list Byte.byte) (t : Z) :
  length data1 = length data2 ->
  0 < Z.of_nat (length data1) <= OFF_MAX ->
  take 4096 data1 = take 4096 data2 ->
  last_bytes 4096 data1 = last_bytes 4096 data2 ->
  compute_archive_fingerprint bo (Some data1) (Z.of_nat (length data1)) t
  = compute_archive_fingerprint bo (Some data2) (Z.of_nat (length data2)) t /\
  fingerprint_match
    (compute_archive_fingerprint bo (Some data1) (Z.of_nat (length data1)) t)
    (compute_archive_fingerprint bo (Some data2) (Z.of_nat (length data2)) t)
  = true.
Proof.
  intros Hlen Hn Hfirst Hlast.
  assert (Heq : compute_archive_fingerprint bo (Some data1)
                  (Z.of_nat (length data1)) t
                = compute_archive_fingerprint bo (Some data2)
                    (Z.of_nat (length data2)) t).
  { rewrite !compute_archive_fingerprint_chunks by (rewrite <- ?Hlen; exact Hn).
    rewrite Hfirst, Hlast, Hlen. reflexivity. }
  split; [exact Heq|]. rewrite Heq.
  apply fingerprint_match_true. auto.
Qed.

Lemma last_bytes_app (p q : list Byte.byte) :
  last_bytes (length q) (p ++ q) = q.
Proof.
  unfold last_bytes. rewrite rev_app_distr.
  rewrite <- (length_rev q). rewrite take_app_length. apply rev_involutive.
Qed.

Lemma fingerprint_ignores_middle_witness :
  Archives.zeros <> Archives.marked /\
  compute_archive_fingerprint LittleEndian (Some Archives.zeros)
    (Z.of_nat (length Archives.zeros)) 1700000000
  = compute_archive_fingerprint LittleEndian (Some Archives.marked)
      (Z.of_nat (length Archives.marked)) 1700000000.
Proof.
  assert (Hb : length Archives.block = 4096%nat) by apply length_replicate.
  split.
  - unfold Archives.zeros, Archives.marked. intros H.
    apply app_inv_head in H. discriminate.
  - apply (fingerprint_ignores_middle LittleEndian Archives.zeros
             Archives.marked 1700000000).
    + unfold Archives.zeros, Archives.marked. rewrite !length_app.
      reflexivity.
    + unfold Archives.zeros. rewrite length_app. cbn [length]. rewrite Hb.
      unfold OFF_MAX. lia.
    + unfold Archives.zeros, Archives.marked. rewrite <- Hb.
      rewrite !take_app_length. reflexivity.
    + assert (Hsplit : forall x, Archives.block ++ x :: Archives.block
                                 = (Archives.block ++ [x]) ++ Archives.block).
      { intros x. rewrite <- app_assoc. reflexivity. }
      unfold Archives.zeros, Archives.marked. rewrite <- Hb.
      rewrite !Hsplit, !last_bytes_app. reflexivity.
Defined.

(** ** The capacity of the extraction buffer *)

Lemma run_call_capacity b c :
  buffer_wf b -> chunk_wf c -> buf_capacity b <= 2 * buf_size b ->
  buf_capacity (snd (run_call b c)) <= 2 * buf_size (snd (run_call b c)) /\
  buf_size b <= buf_size (snd (run_call b c)) /\
  buf_capacity b <= buf_capacity (snd (run_call b c)).
Proof.
  intros Hb Hc Hcap. rewrite (run_call_cases b c Hb Hc).
  destruct Hb as [Hsize Hle].
  destruct (negb (call_msg c =? UCM_PROCESSDATA)); [cbn; lia|].
  destruct (negb (buf_error b =? 0)); [cbn; lia|].
  destruct (call_P1 c) as [d|]; [|cbn; lia]. cbv zeta.
  destruct (Z.of_nat (length d) =? 0); [cbn; lia|].
  destruct (buf_size b + Z.of_nat (length d) >? buf_capacity b) eqn:Eg.
  - destruct (grown_capacity b (Z.of_nat (length d)) >? ONE_GIB); [cbn; lia|].
    destruct (negb (call_realloc_ok c)); [cbn; lia|].
    cbn [snd buf_capacity buf_size]. unfold grown_capacity. zify_bool. lia.
  - cbn [snd buf_capacity buf_size]. lia.
Qed.

(** X11.  The callback never shrinks the buffer and never lets it grow
    beyond twice its content: started on a buffer whose capacity is at
    most twice its size (the empty buffer in particular), capacity and
    size only grow and the capacity stays at most twice the size. *)
Theorem callback_capacity_bound (cs : list callback_call) :
  forall b : extract_buffer,
  buffer_wf b -> Forall chunk_wf cs -> buf_capacity b <= 2 * buf_size b ->
  buf_capacity (run_calls b cs) <= 2 * buf_size (run_calls b cs) /\
  buf_size b <= buf_size (run_calls b cs) /\
  buf_capacity b <= buf_capacity (run_calls b cs).
Proof.
  induction cs as [|c cs IH]; intros b Hb Hcs Hcap; [cbn; lia|].
  inversion Hcs as [|? ? Hc Hrest]; subst.
  rewrite run_calls_cons.
  destruct (run_call_capacity b c Hb Hc Hcap) as (H1 & H2 & H3).
  destruct (IH _ (run_call_wf b c Hb Hc) Hrest H1) as (H4 & H5 & H6).
  lia.
Qed.

Lemma callback_capacity_bound_witness :
  buffer_wf empty_buffer /\
  Forall chunk_wf [Samples.magic_chunk; Samples.magic_chunk] /\
  buf_capacity empty_buffer <= 2 * buf_size empty_buffer /\
  buf_capacity (run_calls empty_buffer [Samples.magic_chunk; Samples.magic_chunk])
  <= 2 * buf_size (run_calls empty_buffer
                     [Samples.magic_chunk; Samples.magic_chunk]).
Proof.
  assert (Hb : buffer_wf empty_buffer) by (split; cbn; unfold ONE_GIB; lia).
  assert (Hcs : Forall chunk_wf [Samples.magic_chunk; Samples.magic_chunk]).
  { repeat constructor; cbn; unfold LONG_MAX; lia. }
  assert (H0 : buf_capacity empty_buffer <= 2 * buf_size empty_buffer)
    by (cbn; lia).
  split; [exact Hb|]. split; [exact Hcs|]. split; [exact H0|].
  apply (callback_capacity_bound _ empty_buffer Hb Hcs H0).
Defined.

(** ** The steps of FNV-1a are one-to-one *)

Lemma fnv_prime_inverse_spec :
  (FNV_64_PRIME * fnv_prime_inverse) mod 2 ^ 64 = 1.
Proof. vm_compute. reflexivity. Qed.

Lemma mul_prime_inj x y :
  0 <= x < 2 ^ 64 -> 0 <= y < 2 ^ 64 ->
  (x * FNV_64_PRIME) mod 2 ^ 64 = (y * FNV_64_PRIME) mod 2 ^ 64 -> x = y.
Proof.
  intros Hx Hy H.
  assert (Hback : forall z, 0 <= z < 2 ^ 64 ->
            (((z * FNV_64_PRIME) mod 2 ^ 64) * fnv_prime_inverse) mod 2 ^ 64 = z).
  { intros z Hz. rewrite Zmult_mod_idemp_l.
    rewrite <- Z.mul_assoc. rewrite <- Zmult_mod_idemp_r.
    rewrite fnv_prime_inverse_spec. rewrite Z.mul_1_r.
    apply Z.mod_small. exact Hz. }
  rewrite <- (Hback x Hx), <- (Hback y Hy), H. reflexivity.
Qed.

Lemma lxor_inj_l a b c : Z.lxor a c = Z.lxor b c -> a = b.
Proof.
  intros H. apply (f_equal (fun z => Z.lxor z c)) in H.
  rewrite !Z.lxor_assoc, !Z.lxor_nilpotent, !Z.lxor_0_r in H. exact H.
Qed.

Lemma byte_val_range b : 0 <= byte_val b < 256.
Proof.
  unfold byte_val. pose proof (Byte.to_N_bounded b). lia.
Qed.

Lemma byte_val_inj x y : byte_val x = byte_val y -> x = y.
Proof.
  unfold byte_val. intros H. apply N2Z.inj in H.
  pose proof (Byte.of_to_N x) as Hx. rewrite H, Byte.of_to_N in Hx.
  congruence.
Qed.

Lemma fnv1a_step_range h b : 0 <= fnv1a_step h b < 2 ^ 64.
Proof. unfold fnv1a_step. apply Z.mod_pos_bound. lia. Qed.

Lemma fnv1a_step_inj h1 h2 b :
  0 <= h1 < 2 ^ 64 -> 0 <= h2 < 2 ^ 64 ->
  fnv1a_step h1 b = fnv1a_step h2 b -> h1 = h2.
Proof.
  intros H1 H2 H. unfold fnv1a_step in H.
  pose proof (byte_val_range b) as Hb.
  apply mul_prime_inj in H; [|apply lxor_range; lia|apply lxor_range; lia].
  apply lxor_inj_l in H. exact H.
Qed.

Lemma fnv1a_fold_inj s : forall h1 h2,
  0 <= h1 < 2 ^ 64 -> 0 <= h2 < 2 ^ 64 ->
  fold_left fnv1a_step s h1 = fold_left fnv1a_step s h2 -> h1 = h2.
Proof.
  induction s as [|b s IH]; intros h1 h2 H1 H2 H; [exact H|].
  cbn [fold_left] in H.
  apply IH in H; try apply fnv1a_step_range.
  apply (fnv1a_step_inj h1 h2 b H1 H2 H).
Qed.

Lemma fnv1a_hash_64_whole data :
  Z.of_nat (length data) < 2 ^ 64 ->
  fnv1a_hash_64 data (Z.of_nat (length data)) = fnv1a_reference data.
Proof.
  intros H. rewrite fnv1a_hash_64_reference by lia.
  rewrite Nat2Z.id, firstn_all. reflexivity.
Qed.

(** X12.  Every step of [fnv1a_hash_64] is one-to-one on the running
    hash (the multiplier is odd): two buffers that end in the same bytes
    have the same hash exactly when the parts before that common tail have
    the same hash, and two buffers that differ only in their last byte
    never have the same hash. *)
Theorem fnv1a_common_tail (a b s : list Byte.byte) :
  Z.of_nat (length (a ++ s)) < 2 ^ 64 ->
  Z.of_nat (length (b ++ s)) < 2 ^ 64 ->
  (fnv1a_hash_64 (a ++ s) (Z.of_nat (length (a ++ s)))
   = fnv1a_hash_64 (b ++ s) (Z.of_nat (length (b ++ s)))
   <-> fnv1a_hash_64 a (Z.of_nat (length a))
       = fnv1a_hash_64 b (Z.of_nat (length b))) /\
  (forall x y,
     Z.of_nat (length (a ++ [x])) < 2 ^ 64 ->
     fnv1a_hash_64 (a ++ [x]) (Z.of_nat (length (a ++ [x])))
     = fnv1a_hash_64 (a ++ [y]) (Z.of_nat (length (a ++ [y]))) ->
     x = y).
Proof.
  intros Ha Hb. split.
  - rewrite !fnv1a_hash_64_whole
      by (rewrite ?length_app in *; lia).
    unfold fnv1a_reference. rewrite !fold_left_app.
    split.
    + apply fnv1a_fold_inj; apply fnv1a_reference_range.
    + intros ->. reflexivity.
  - intros x y Hx H.
    rewrite !fnv1a_hash_64_whole in H
      by (rewrite ?length_app in *; cbn [length] in *; lia).
    unfold fnv1a_reference in H. rewrite !fold_left_app in H.
    cbn [fold_left] in H.
    pose proof (byte_val_range x). pose proof (byte_val_range y).
    pose proof (fnv1a_reference_range a) as Hr. unfold fnv1a_reference in Hr.
    set (h := fold_left fnv1a_step a FNV_64_OFFSET_BASIS) in *.
    unfold fnv1a_step in H.
    apply mul_prime_inj in H; [|apply lxor_range; lia|apply lxor_range; lia].
    rewrite (Z.lxor_comm _ (byte_val x)), (Z.lxor_comm _ (byte_val y)) in H.
    apply lxor_inj_l in H. apply byte_val_inj. exact H.
Qed.

Lemma fnv1a_common_tail_witness :
  Z.of_nat (length ([Byte.x61] ++ Samples.rar_magic)) < 2 ^ 64 /\
  Z.of_nat (length ([Byte.x62] ++ Samples.rar_magic)) < 2 ^ 64 /\
  fnv1a_hash_64 ([Byte.x61] ++ Samples.rar_magic) 5
  <> fnv1a_hash_64 ([Byte.x62] ++ Samples.rar_magic) 5.
Proof.
  assert (Ha : Z.of_nat (length ([Byte.x61] ++ Samples.rar_magic)) < 2 ^ 64)
    by (vm_compute; reflexivity).
  assert (Hb : Z.of_nat (length ([Byte.x62] ++ Samples.rar_magic)) < 2 ^ 64)
    by (vm_compute; reflexivity).
  split; [exact Ha|]. split; [exact Hb|].
  intros H.
  apply (proj1 (fnv1a_common_tail [Byte.x61] [Byte.x62] Samples.rar_magic Ha Hb))
    in H.
  vm_compute in H. discriminate.
Defined.

(** ** The language of the UTF-8 check *)

Lemma first_byte_one : forall a,
  Bool.eqb (Z.land (uchar a) 0x80 =? 0) (uchar a <=? 0x7F) = true.
Proof. apply forall_ascii. vm_compute. reflexivity. Qed.

Lemma first_byte_two : forall a,
  Bool.eqb (negb (Z.land (uchar a) 0x80 =? 0) && (Z.land (uchar a) 0xE0 =? 0xC0)
            && negb (Z.land (uchar a) 0xFE =? 0xC0))
           ((0xC2 <=? uchar a) && (uchar a <=? 0xDF)) = true.
Proof. apply forall_ascii. vm_compute. reflexivity. Qed.

Lemma first_byte_three : forall a,
  Bool.eqb (negb (Z.land (uchar a) 0x80 =? 0) && negb (Z.land (uchar a) 0xE0 =? 0xC0)
            && (Z.land (uchar a) 0xF0 =? 0xE0))
           ((0xE0 <=? uchar a) && (uchar a <=? 0xEF)) = true.
Proof. apply forall_ascii. vm_compute. reflexivity. Qed.

Lemma first_byte_four : forall a,
  Bool.eqb (negb (Z.land (uchar a) 0x80 =? 0) && negb (Z.land (uchar a) 0xE0 =? 0xC0)
            && negb (Z.land (uchar a) 0xF0 =? 0xE0)
            && (Z.land (uchar a) 0xF8 =? 0xF0) && negb (uchar a >? 0xF4))
           ((0xF0 <=? uchar a) && (uchar a <=? 0xF4)) = true.
Proof. apply forall_ascii. vm_compute. reflexivity. Qed.

Lemma continuation_range : forall b,
  Bool.eqb (is_continuation b) ((0x80 <=? uchar b) && (uchar b <=? 0xBF)) = true.
Proof. apply forall_ascii. vm_compute. reflexivity. Qed.

Lemma second_byte_three : forall b,
  implb (is_continuation b)
        (Bool.eqb (Z.land (uchar b) 0xE0 =? 0x80) (negb (0xA0 <=? uchar b))) = true.
Proof. apply forall_ascii. vm_compute. reflexivity. Qed.

Lemma second_byte_four : forall b,
  implb (is_continuation b)
        (Bool.eqb (Z.land (uchar b) 0xF0 =? 0x80) (negb (0x90 <=? uchar b))) = true.
Proof. apply forall_ascii. vm_compute. reflexivity. Qed.


Lemma continuation_byte_in b :
  is_continuation b = true <-> byte_in 0x80 0xBF b.
Proof.
  pose proof (continuation_range b) as H. apply eqb_prop in H. rewrite H.
  unfold byte_in. rewrite andb_true_iff, !Z.leb_le. tauto.
Qed.

Lemma utf8_sequence_nonempty q : utf8_sequence q -> (0 < length q)%nat.
Proof. destruct 1; cbn; lia. Qed.

(** The first iteration of the loop, when the loop ends with [true]. *)
Lemma utf8_loop_step a t :
  utf8_loop (a :: t) = true ->
  exists q s, a :: t = q ++ s /\ utf8_sequence q /\ utf8_loop s = true.
Proof.
  cbn [utf8_loop]. rewrite !peek_cons_S.
  pose proof (first_byte_one a) as F1. apply eqb_prop in F1.
  pose proof (first_byte_two a) as F2. apply eqb_prop in F2.
  pose proof (first_byte_three a) as F3. apply eqb_prop in F3.
  pose proof (first_byte_four a) as F4. apply eqb_prop in F4.
  destruct (Z.land (uchar a) 0x80 =? 0) eqn:E1.
  { intros H. exists [a], t. split; [reflexivity|]. split; [|exact H].
    constructor. unfold byte_in. pose proof (uchar_range a).
    symmetry in F1. zify_bool. lia. }
  destruct (Z.land (uchar a) 0xE0 =? 0xC0) eqn:E2.
  { destruct (Z.land (peek t 0) 0xC0 =? 0x80) eqn:Ec1; cbn [negb];
      [|discriminate].
    destruct (Z.land (uchar a) 0xFE =? 0xC0) eqn:E2o; [discriminate|].
    destruct (continuation_peek t Ec1) as (b & t2 & -> & Hb). intros H.
    exists [a; b], t2. split; [reflexivity|]. split; [|exact H].
    cbn [negb andb] in F2. symmetry in F2. apply andb_true_iff in F2.
    constructor; [unfold byte_in; zify_bool; lia|].
    apply continuation_byte_in. exact Hb. }
  destruct (Z.land (uchar a) 0xF0 =? 0xE0) eqn:E3.
  { destruct (Z.land (peek t 0) 0xC0 =? 0x80) eqn:Ec1; cbn [negb orb];
      [|discriminate].
    destruct (continuation_peek t Ec1) as (b & t2 & -> & Hb).
    rewrite peek_cons_S, peek_cons_0.
    destruct (Z.land (peek t2 0) 0xC0 =? 0x80) eqn:Ec2; cbn [negb];
      [|discriminate].
    destruct (continuation_peek t2 Ec2) as (b2 & t3 & -> & Hb2).
    destruct ((uchar a =? 0xE0) && (Z.land (uchar b) 0xE0 =? 0x80)) eqn:Eo;
      [discriminate|].
    intros H. exists [a; b; b2], t3. split; [reflexivity|]. split; [|exact H].
    cbn [negb andb] in F3. symmetry in F3. apply andb_true_iff in F3.
    constructor; try (apply continuation_byte_in; assumption).
    - unfold byte_in. zify_bool. lia.
    - intros Ha.
      pose proof (second_byte_three b) as S3. rewrite Hb in S3.
      cbn [implb] in S3. apply eqb_prop in S3.
      rewrite S3 in Eo. apply Z.eqb_eq in Ha. rewrite Ha in Eo.
      cbn [andb] in Eo. apply negb_false_iff in Eo. zify_bool. exact Eo. }
  destruct (Z.land (uchar a) 0xF8 =? 0xF0) eqn:E4; [|discriminate].
  destruct (Z.land (peek t 0) 0xC0 =? 0x80) eqn:Ec1; cbn [negb orb];
    [|discriminate].
  destruct (continuation_peek t Ec1) as (b & t2 & -> & Hb).
  rewrite !peek_cons_S, peek_cons_0.
  destruct (Z.land (peek t2 0) 0xC0 =? 0x80) eqn:Ec2; cbn [negb orb];
    [|discriminate].
  destruct (continuation_peek t2 Ec2) as (b2 & t3 & -> & Hb2).
  rewrite !peek_cons_S.
  destruct (Z.land (peek t3 0) 0xC0 =? 0x80) eqn:Ec3; cbn [negb];
    [|discriminate].
  destruct (continuation_peek t3 Ec3) as (b3 & t4 & -> & Hb3).
  destruct ((uchar a =? 0xF0) && (Z.land (uchar b) 0xF0 =? 0x80)) eqn:Eo;
    [discriminate|].
  destruct (uchar a >? 0xF4) eqn:E5; [discriminate|].
  intros H. exists [a; b; b2; b3], t4. split; [reflexivity|]. split; [|exact H].
  cbn [negb andb] in F4. symmetry in F4. apply andb_true_iff in F4.
  constructor; try (apply continuation_byte_in; assumption).
  - unfold byte_in. destruct F4 as [F4a F4b]. zify_bool. lia.
  - intros Ha.
    pose proof (second_byte_four b) as S4. rewrite Hb in S4.
    cbn [implb] in S4. apply eqb_prop in S4.
    rewrite S4 in Eo. apply Z.eqb_eq in Ha. rewrite Ha in Eo.
    cbn [andb] in Eo. apply negb_false_iff in Eo. zify_bool. exact Eo.
Qed.

Lemma utf8_loop_text n : forall s,
  (length s <= n)%nat -> utf8_loop s = true -> utf8_text s.
Proof.
  induction n as [|n IH]; intros s Hlen H.
  - destruct s; [constructor|cbn in Hlen; lia].
  - destruct s as [|a t]; [constructor|].
    destruct (utf8_loop_step a t H) as (q & s' & Heq & Hq & Hs').
    rewrite Heq. apply text_app; [exact Hq|]. apply IH; [|exact Hs'].
    pose proof (utf8_sequence_nonempty q Hq) as Hne.
    apply (f_equal (@length ascii)) in Heq. rewrite length_app in Heq.
    cbn [length] in *. lia.
Qed.

(** The loop steps over one encoded character. *)
Lemma utf8_sequence_loop q s :
  utf8_sequence q -> utf8_loop (q ++ s) = utf8_loop s.
Proof.
  intros Hq. destruct Hq as [a Ha|a b Ha Hb|a b b2 Ha Hb Hb2 Ho
                             |a b b2 b3 Ha Hb Hb2 Hb3 Ho];
    cbn [app utf8_loop]; rewrite ?peek_cons_S, ?peek_cons_0;
    repeat match goal with
    | H : byte_in 0x80 0xBF _ |- _ =>
        apply continuation_byte_in in H; unfold is_continuation in H
    end;
    unfold byte_in in *.
  - pose proof (first_byte_one a) as F1. apply eqb_prop in F1.
    rewrite F1. destruct (uchar a <=? 0x7F) eqn:E; [reflexivity|].
    zify_bool. lia.
  - pose proof (first_byte_two a) as F2. apply eqb_prop in F2.
    assert (Hr : (0xC2 <=? uchar a) && (uchar a <=? 0xDF) = true)
      by (apply andb_true_iff; split; apply Z.leb_le; lia).
    rewrite Hr in F2. apply andb_true_iff in F2. destruct F2 as [F2 F2o].
    apply andb_true_iff in F2. destruct F2 as [F1 F2].
    apply negb_true_iff in F1, F2o.
    rewrite F1, F2, F2o, Hb. reflexivity.
  - pose proof (first_byte_three a) as F3. apply eqb_prop in F3.
    assert (Hr : (0xE0 <=? uchar a) && (uchar a <=? 0xEF) = true)
      by (apply andb_true_iff; split; apply Z.leb_le; lia).
    rewrite Hr in F3. apply andb_true_iff in F3. destruct F3 as [F3 F3'].
    apply andb_true_iff in F3. destruct F3 as [F1 F2].
    apply negb_true_iff in F1, F2.
    rewrite F1, F2, F3', Hb, Hb2. cbn [negb orb].
    pose proof (second_byte_three b) as S3.
    unfold is_continuation in S3. rewrite Hb in S3.
    cbn [implb] in S3. apply eqb_prop in S3. rewrite S3.
    destruct (uchar a =? 0xE0) eqn:E; [|reflexivity].
    zify_bool. specialize (Ho E).
    apply Z.leb_le in Ho. rewrite Ho. reflexivity.
  - pose proof (first_byte_four a) as F4. apply eqb_prop in F4.
    assert (Hr : (0xF0 <=? uchar a) && (uchar a <=? 0xF4) = true)
      by (apply andb_true_iff; split; apply Z.leb_le; lia).
    rewrite Hr in F4.
    repeat match type of F4 with
    | _ && _ = true => apply andb_true_iff in F4;
                       let F := fresh "F" in destruct F4 as [F4 F]
    end.
    repeat match goal with
    | H : negb _ = true |- _ => apply negb_true_iff in H
    end.
    rewrite F4, F, F0, F1, F2, Hb, Hb2, Hb3. cbn [negb orb].
    pose proof (second_byte_four b) as S4.
    unfold is_continuation in S4. rewrite Hb in S4.
    cbn [implb] in S4. apply eqb_prop in S4. rewrite S4.
    destruct (uchar a =? 0xF0) eqn:E; [|reflexivity].
    zify_bool. specialize (Ho E).
    apply Z.leb_le in Ho. rewrite Ho. reflexivity.
Qed.

Lemma utf8_text_loop s : utf8_text s -> utf8_loop s = true.
Proof.
  induction 1 as [|q s' Hq Hs' IH]; [reflexivity|].
  rewrite utf8_sequence_loop by exact Hq. exact IH.
Qed.

(** X13.  [is_valid_utf8] accepts exactly the strings that are made of
    encoded characters of these forms: a byte 00..7F; C2..DF and one
    continuation byte 80..BF; E0..EF and two continuation bytes, the first
    at least A0 after E0; F0..F4 and three continuation bytes, the first at
    least 90 after F0.  (The encoded surrogates ED A0..BF xx and the code
    points above U+10FFFF F4 90..BF xx xx are among them.)  A NULL pointer
    is rejected. *)
Theorem is_valid_utf8_language (s : cstring) :
  (is_valid_utf8 (Some s) = true <-> utf8_text s) /\
  is_valid_utf8 None = false.
Proof.
  split; [|reflexivity]. cbn [is_valid_utf8]. split.
  - apply (utf8_loop_text (length s)). lia.
  - apply utf8_text_loop.
Qed.

(** ** Sanitized paths are well encoded *)

Lemma backslash_is_ascii a : is_backslash a = true -> uchar a = 92.
Proof. intros H. apply is_backslash_eq in H. subst a. reflexivity. Qed.

Lemma high_byte_kept a :
  0x80 <= uchar a -> (if is_backslash a then "/"%char else a) = a.
Proof.
  intros H. destruct (is_backslash a) eqn:E; [|reflexivity].
  apply backslash_is_ascii in E. lia.
Qed.

Lemma normalize_sequence q :
  utf8_sequence q -> utf8_sequence (normalize_slashes q).
Proof.
  unfold normalize_slashes.
  destruct 1 as [a Ha|a b Ha Hb|a b b2 Ha Hb Hb2 Ho
                |a b b2 b3 Ha Hb Hb2 Hb3 Ho]; cbn [map];
    unfold byte_in in *; rewrite ?high_byte_kept by lia.
  - constructor. unfold byte_in. destruct (is_backslash a); [|exact Ha].
    change (uchar "/") with 47. lia.
  - constructor; unfold byte_in; assumption.
  - constructor; unfold byte_in; assumption.
  - constructor; unfold byte_in; assumption.
Qed.

Lemma normalize_text s : utf8_text s -> utf8_text (normalize_slashes s).
Proof.
  induction 1 as [|q s' Hq Hs' IH]; [constructor|].
  unfold normalize_slashes in *. rewrite map_app.
  apply text_app; [apply normalize_sequence; exact Hq|exact IH].
Qed.

Lemma removed_text s :
  utf8_text s -> forall r, ascii_removed s r -> utf8_text r.
Proof.
  unfold byte_in.
  induction 1 as [|q s' Hq Hs' IH]; intros r Hr.
  - inversion Hr; subst. constructor.
  - destruct Hq as [a Ha|a b Ha Hb|a b b2 Ha Hb Hb2 Ho
                   |a b b2 b3 Ha Hb Hb2 Hb3 Ho]; cbn [app] in Hr;
      unfold byte_in in *;
      repeat match goal with
      | H : ascii_removed (_ :: _) _ |- _ =>
          inversion H; clear H; subst; unfold byte_in in *; try lia
      end.
    + apply (text_app [a]); [constructor; exact Ha|]. apply IH. assumption.
    + apply IH. assumption.
    + apply (text_app [a; b]); [constructor; assumption|]. apply IH. assumption.
    + apply (text_app [a; b; b2]); [constructor; assumption|].
      apply IH. assumption.
    + apply (text_app [a; b; b2; b3]); [constructor; assumption|].
      apply IH. assumption.
Qed.

Lemma dot_is_ascii a : is_dot a = true -> byte_in 0x00 0x7F a.
Proof.
  intros H. apply is_dot_eq in H. subst a. unfold byte_in.
  change (uchar ".") with 46. lia.
Qed.

Lemma separator_is_ascii a :
  is_slash a || is_backslash a = true -> byte_in 0x00 0x7F a.
Proof.
  intros H. apply orb_true_iff in H. destruct H as [H|H].
  - apply is_slash_eq in H. subst a. unfold byte_in.
    change (uchar "/") with 47. lia.
  - apply is_backslash_eq in H. subst a. unfold byte_in.
    change (uchar "\") with 92. lia.
Qed.

Lemma ascii_removed_refl s : ascii_removed s s.
Proof. induction s; constructor; assumption. Qed.

(** What the scan leaves out are dots and separators. *)
Lemma strip_scan_removed s : ascii_removed s (strip_scan s).
Proof.
  remember (length s) as n eqn:Hn. revert s Hn.
  induction n as [n IH] using lt_wf_ind. intros s Hn.
  rewrite strip_scan_step. destruct s as [|c0 t1]; [constructor|].
  destruct (dotdot_here (c0 :: t1)) eqn:E.
  - destruct t1 as [|c1 rest]; [discriminate|].
    cbn [dotdot_here] in E.
    apply andb_true_iff in E. destruct E as [E E2].
    apply andb_true_iff in E. destruct E as [E0 E1].
    apply removed_drop; [apply dot_is_ascii; exact E0|].
    apply removed_drop; [apply dot_is_ascii; exact E1|].
    destruct rest as [|c2 t3]; [constructor|].
    cbn [drop].
    apply removed_drop; [apply separator_is_ascii; exact E2|].
    apply (IH (length t3)); [subst n; cbn; lia|reflexivity].
  - apply removed_keep.
    apply (IH (length t1)); [subst n; cbn; lia|reflexivity].
Qed.

(** X14.  Every path [sanitize_nested_path] returns passes the UTF-8
    check again: replacing backslashes and leaving out two-dot components
    never splits an encoded character. *)
Theorem sanitized_path_is_valid_utf8 (s r : cstring)
  (strdup_ok malloc_ok : bool) :
  sanitize_nested_path (Some s) strdup_ok malloc_ok = Some r ->
  is_valid_utf8 (Some r) = true /\
  ascii_removed (normalize_slashes s) r.
Proof.
  rewrite sanitize_nested_path_cases. cbv zeta.
  destruct (orb _ _) eqn:E; [discriminate|].
  intros H. inversion H; subst r. clear H.
  repeat (apply orb_false_iff in E; destruct E as [E ?]).
  assert (Hs : utf8_loop s = true).
  { match goal with
    | H : negb (is_valid_utf8 (Some s)) = false |- _ =>
        apply negb_false_iff in H; exact H
    end. }
  split; [|apply strip_scan_removed].
  cbn [is_valid_utf8]. apply utf8_text_loop.
  apply (removed_text (normalize_slashes s)); [|apply strip_scan_removed].
  apply normalize_text. apply (utf8_loop_text (length s)); [lia|exact Hs].
Qed.

Lemma sanitized_path_is_valid_utf8_witness :
  sanitize_nested_path (Some accented_path) true true
  = Some (ascii_of_nat 195 :: ascii_of_nat 169 :: cstr "/x.rar") /\
  is_valid_utf8 (Some (ascii_of_nat 195 :: ascii_of_nat 169 :: cstr "/x.rar"))
  = true.
Proof.
  split; [reflexivity|].
  apply (sanitized_path_is_valid_utf8 accented_path _ true true eq_refl).
Defined.

(** ** Copying and appending directory lists *)

Lemma all_granted_nil : all_granted [].
Proof. constructor. Qed.

Lemma all_granted_cons b m : all_granted (b :: m) <-> b = true /\ all_granted m.
Proof. unfold all_granted. apply (Forall_cons (fun x => x = true)). Qed.

Lemma all_granted_lookup n : forall m i,
  all_granted (take n m) -> (i < n)%nat -> m !! i <> Some false.
Proof.
  induction n as [|n IH]; intros m i Hg Hi; [lia|].
  destruct m as [|b m]; [discriminate|].
  cbn [take] in Hg. apply all_granted_cons in Hg. destruct Hg as [-> Hg].
  destruct i as [|i]; [discriminate|].
  cbn. apply IH; [exact Hg|lia].
Qed.

Lemma entry_eta e :
  mk_dir_entry (entry_name e) (entry_hash e) (entry_st e) (entry_type e)
               (entry_valid e) = e.
Proof. destruct e. reflexivity. Qed.

(** The allocation requests of [dir_list_dup] are numbered from 0: the
    head is request 0, the node of the [k]-th entry request [1 + 2 * k],
    its name request [2 + 2 * k]. *)
Lemma dup_loop_spec next : forall l m,
  exists r m',
    dup_loop next l m = Some (r, m') /\
    match r with
    | Copied es =>
        es = l ++ next /\ m' = drop (2 * length next) m /\
        all_granted (take (2 * length next) m)
    | DupNull =>
        exists k, (k < length next)%nat /\
                  all_granted (take (2 * k) m) /\
                  m !! (2 * k)%nat = Some false
    | DupUndefined =>
        exists k, (k < length next)%nat /\
                  all_granted (take (2 * k + 1) m) /\
                  m !! (2 * k + 1)%nat = Some false
    end.
Proof.
  induction next as [|e next IH]; intros l m.
  - exists (Copied l), m. split; [reflexivity|].
    rewrite app_nil_r. cbn. repeat split. constructor.
  - cbn [dup_loop length]. rewrite entry_eta.
    unfold Alloc.bind, Alloc.request, Alloc.ret.
    assert (Hlift : forall m0 r m',
      match r with
      | Copied es =>
          es = (l ++ [e]) ++ next /\ m' = drop (2 * length next) m0 /\
          all_granted (take (2 * length next) m0)
      | DupNull =>
          exists k, (k < length next)%nat /\
                    all_granted (take (2 * k) m0) /\
                    m0 !! (2 * k)%nat = Some false
      | DupUndefined =>
          exists k, (k < length next)%nat /\
                    all_granted (take (2 * k + 1) m0) /\
                    m0 !! (2 * k + 1)%nat = Some false
      end ->
      forall m1,
      (m1 = true :: true :: m0 \/ (m1 = [true] /\ m0 = []) \/
       (m1 = [] /\ m0 = [])) ->
      match r with
      | Copied es =>
          es = l ++ e :: next /\ m' = drop (2 * S (length next)) m1 /\
          all_granted (take (2 * S (length next)) m1)
      | DupNull =>
          exists k, (k < S (length next))%nat /\
                    all_granted (take (2 * k) m1) /\
                    m1 !! (2 * k)%nat = Some false
      | DupUndefined =>
          exists k, (k < S (length next))%nat /\
                    all_granted (take (2 * k + 1) m1) /\
                    m1 !! (2 * k + 1)%nat = Some false
      end).
    { intros m0 r m' Hr m1 Hm1.
      assert (Htake : forall n, all_granted (take n m0) ->
                all_granted (take (S (S n)) m1)).
      { intros n Hn. destruct Hm1 as [->|[(-> & ->)|(-> & ->)]].
        - cbn [take]. rewrite !all_granted_cons. tauto.
        - cbn [take]. rewrite ?take_nil. repeat constructor.
        - rewrite ?take_nil. constructor. }
      assert (Hdrop : forall n, drop n m0 = drop (S (S n)) m1).
      { intros n. destruct Hm1 as [->|[(-> & ->)|(-> & ->)]].
        - reflexivity.
        - cbn [drop]. rewrite ?drop_nil. reflexivity.
        - rewrite ?drop_nil. reflexivity. }
      assert (Hlook : forall i, m0 !! i = Some false ->
                m1 !! (S (S i)) = Some false).
      { intros i Hi. destruct Hm1 as [->|[(-> & ->)|(-> & ->)]];
          [exact Hi|discriminate|discriminate]. }
      destruct r as [es| |].
      - destruct Hr as (H1 & H2 & H3).
        rewrite <- app_assoc in H1. cbn [app] in H1.
        replace (2 * S (length next))%nat with (S (S (2 * length next))) by lia.
        repeat split; auto. rewrite H2. apply Hdrop.
      - destruct Hr as (k & H1 & H2 & H3). exists (S k).
        replace (2 * S k)%nat with (S (S (2 * k))) by lia.
        repeat split; auto. lia.
      - destruct Hr as (k & H1 & H2 & H3). exists (S k).
        replace (2 * S k + 1)%nat with (S (S (2 * k + 1))) by lia.
        repeat split; auto. lia. }
    destruct m as [|b1 m].
    + cbn [negb]. destruct (IH (l ++ [e]) []) as (r & m' & Hr & Hcase).
      exists r, m'. split; [exact Hr|].
      apply (Hlift [] r m' Hcase []). right. right. auto.
    + destruct b1; cbn [negb].
      2:{ exists DupNull, m. split; [reflexivity|]. exists 0%nat.
          cbn. repeat split; [lia|constructor]. }
      destruct m as [|b2 m].
      * cbn [negb]. destruct (IH (l ++ [e]) []) as (r & m' & Hr & Hcase).
        exists r, m'. split; [exact Hr|].
        apply (Hlift [] r m' Hcase [true]). right. left. auto.
      * destruct b2; cbn [negb].
        2:{ exists DupUndefined, m. split; [reflexivity|]. exists 0%nat.
            cbn. repeat split; [lia|repeat constructor]. }
        destruct (IH (l ++ [e]) m) as (r & m' & Hr & Hcase).
        exists r, m'. split; [exact Hr|].
        apply (Hlift m r m' Hcase (true :: true :: m)). left. reflexivity.
Qed.

(** X15.  [dir_list_dup] returns a list with the entries of the source,
    field by field and in the same order, exactly when none of the
    allocations it makes (one for the head, two per entry) fails.  When the
    allocation of the head or of a node is the first to fail it returns
    NULL.  When the [strdup] of a name is the first to fail, the list it
    then frees ends in a node whose [next] pointer was never written. *)
Theorem dir_list_dup_copies (src : list dir_entry) (m : alloc_script) :
  exists r m',
    dir_list_dup src m = Some (r, m') /\
    match r with
    | Copied es =>
        es = src /\ m' = drop (1 + 2 * length src) m
    | DupNull =>
        m !! 0%nat = Some false \/
        exists k, (k < length src)%nat /\
                  all_granted (take (1 + 2 * k) m) /\
                  m !! (1 + 2 * k)%nat = Some false
    | DupUndefined =>
        exists k, (k < length src)%nat /\
                  all_granted (take (2 + 2 * k) m) /\
                  m !! (2 + 2 * k)%nat = Some false
    end /\
    (all_granted (take (1 + 2 * length src) m) <-> r = Copied src).
Proof.
  unfold dir_list_dup, dir_list_open, Alloc.bind, Alloc.request, Alloc.ret.
  assert (Hfinal : forall r m0 m' m1,
    match r with
    | Copied es =>
        es = [] ++ src /\ m' = drop (2 * length src) m0 /\
        all_granted (take (2 * length src) m0)
    | DupNull =>
        exists k, (k < length src)%nat /\
                  all_granted (take (2 * k) m0) /\
                  m0 !! (2 * k)%nat = Some false
    | DupUndefined =>
        exists k, (k < length src)%nat /\
                  all_granted (take (2 * k + 1) m0) /\
                  m0 !! (2 * k + 1)%nat = Some false
    end ->
    (m1 = true :: m0 \/ (m1 = [] /\ m0 = [])) ->
    match r with
    | Copied es =>
        es = src /\ m' = drop (1 + 2 * length src) m1
    | DupNull =>
        m1 !! 0%nat = Some false \/
        exists k, (k < length src)%nat /\
                  all_granted (take (1 + 2 * k) m1) /\
                  m1 !! (1 + 2 * k)%nat = Some false
    | DupUndefined =>
        exists k, (k < length src)%nat /\
                  all_granted (take (2 + 2 * k) m1) /\
                  m1 !! (2 + 2 * k)%nat = Some false
    end /\
    (all_granted (take (1 + 2 * length src) m1) <-> r = Copied src)).
  { intros r m0 m' m1 Hr Hm1.
    assert (Htake : forall n, all_granted (take n m0) <->
              all_granted (take (S n) m1)).
    { intros n. destruct Hm1 as [->|(-> & ->)].
      - cbn [take]. rewrite all_granted_cons. tauto.
      - rewrite !take_nil. tauto. }
    assert (Hdrop : forall n, drop n m0 = drop (S n) m1).
    { intros n. destruct Hm1 as [->|(-> & ->)]; [reflexivity|].
      rewrite !drop_nil. reflexivity. }
    assert (Hlook : forall i, m0 !! i = Some false ->
              m1 !! (S i) = Some false).
    { intros i Hi. destruct Hm1 as [->|(-> & ->)]; [exact Hi|discriminate]. }
    destruct r as [es| |].
    - destruct Hr as (H1 & H2 & H3). cbn [app] in H1. subst es.
      cbn [Nat.add]. split; [split; [reflexivity|]|].
      + rewrite H2. apply Hdrop.
      + split; [reflexivity|]. intros _. apply Htake. exact H3.
    - destruct Hr as (k & H1 & H2 & H3). split.
      + right. exists k. cbn [Nat.add]. split; [exact H1|].
        split; [apply Htake; exact H2|apply Hlook; exact H3].
      + split; [|discriminate]. intros Hall. exfalso.
        apply Htake in Hall.
        apply (all_granted_lookup _ m0 (2 * k) Hall); [lia|exact H3].
    - destruct Hr as (k & H1 & H2 & H3). split.
      + exists k. replace (2 + 2 * k)%nat with (S (2 * k + 1)) by lia.
        split; [exact H1|].
        split; [apply Htake; exact H2|apply Hlook; exact H3].
      + split; [|discriminate]. intros Hall. exfalso.
        apply Htake in Hall.
        apply (all_granted_lookup _ m0 (2 * k + 1) Hall); [lia|exact H3]. }
  destruct m as [|b m].
  - cbn [negb]. destruct (dup_loop_spec src [] []) as (r & m' & Hr & Hcase).
    exists r, m'. split; [exact Hr|].
    apply (Hfinal r [] m' [] Hcase). right. auto.
  - destruct b; cbn [negb].
    + destruct (dup_loop_spec src [] m) as (r & m' & Hr & Hcase).
      exists r, m'. split; [exact Hr|].
      apply (Hfinal r m m' (true :: m) Hcase). left. reflexivity.
    + exists DupNull, m. split; [reflexivity|]. split; [left; reflexivity|].
      split; [|discriminate].
      cbn [Nat.add take]. rewrite all_granted_cons. intros [H _]. discriminate.
Qed.

Lemma append_loop_spec next2 : forall es m,
  exists r m',
    append_loop next2 es m = Some (r, m') /\
    match r with
    | Appended last es' =>
        es' = es ++ next2 /\ last = last_cursor es' /\
        all_granted (take (2 * length next2) m) /\
        m' = drop (2 * length next2) m
    | NoNode es' =>
        exists k, (k < length next2)%nat /\ es' = es ++ take k next2 /\
                  all_granted (take (2 * k) m) /\
                  m !! (2 * k)%nat = Some false
    | NoName es' e shared =>
        exists k, next2 !! k = Some e /\ es' = es ++ take k next2 /\
                  shared = drop (S k) next2 /\
                  all_granted (take (2 * k + 1) m) /\
                  m !! (2 * k + 1)%nat = Some false
    end.
Proof.
  induction next2 as [|e next2 IH]; intros es m.
  - exists (Appended (last_cursor es) es), m. split; [reflexivity|].
    rewrite app_nil_r. cbn. repeat split. constructor.
  - cbn [append_loop length].
    unfold Alloc.bind, Alloc.request, Alloc.ret.
    assert (Hlift : forall m0 r m',
      append_loop next2 (es ++ [e]) m0 = Some (r, m') ->
      match r with
      | Appended last es' =>
          es' = (es ++ [e]) ++ next2 /\ last = last_cursor es' /\
          all_granted (take (2 * length next2) m0) /\
          m' = drop (2 * length next2) m0
      | NoNode es' =>
          exists k, (k < length next2)%nat /\ es' = (es ++ [e]) ++ take k next2 /\
                    all_granted (take (2 * k) m0) /\
                    m0 !! (2 * k)%nat = Some false
      | NoName es' e0 shared =>
          exists k, next2 !! k = Some e0 /\ es' = (es ++ [e]) ++ take k next2 /\
                    shared = drop (S k) next2 /\
                    all_granted (take (2 * k + 1) m0) /\
                    m0 !! (2 * k + 1)%nat = Some false
      end ->
      forall b1 b2 m1,
      (m1 = b1 :: b2 :: m0 \/ (m1 = [b1] /\ m0 = [] /\ b2 = true) \/
       (m1 = [] /\ m0 = [] /\ b1 = true /\ b2 = true)) ->
      b1 = true -> b2 = true ->
      match r with
      | Appended last es' =>
          es' = es ++ e :: next2 /\ last = last_cursor es' /\
          all_granted (take (2 * S (length next2)) m1) /\
          m' = drop (2 * S (length next2)) m1
      | NoNode es' =>
          exists k, (k < S (length next2))%nat /\ es' = es ++ take k (e :: next2) /\
                    all_granted (take (2 * k) m1) /\
                    m1 !! (2 * k)%nat = Some false
      | NoName es' e0 shared =>
          exists k, (e :: next2) !! k = Some e0 /\
                    es' = es ++ take k (e :: next2) /\
                    shared = drop (S k) (e :: next2) /\
                    all_granted (take (2 * k + 1) m1) /\
                    m1 !! (2 * k + 1)%nat = Some false
      end).
    { intros m0 r m' _ Hr b1 b2 m1 Hm1 -> ->.
      assert (Htake : forall n, all_granted (take n m0) ->
                all_granted (take (S (S n)) m1)).
      { intros n Hn. destruct Hm1 as [->|[(-> & -> & _)|(-> & -> & _)]].
        - cbn [take]. rewrite !all_granted_cons. tauto.
        - cbn [take]. rewrite ?take_nil. repeat constructor.
        - rewrite ?take_nil. constructor. }
      assert (Hdrop : forall n, drop n m0 = drop (S (S n)) m1).
      { intros n. destruct Hm1 as [->|[(-> & -> & _)|(-> & -> & _)]].
        - reflexivity.
        - cbn [drop]. rewrite ?drop_nil. reflexivity.
        - rewrite ?drop_nil. reflexivity. }
      assert (Hlook : forall i, m0 !! i = Some false ->
                m1 !! (S (S i)) = Some false).
      { intros i Hi. destruct Hm1 as [->|[(-> & -> & _)|(-> & -> & _)]];
          [exact Hi|discriminate|discriminate]. }
      destruct r as [last es'|es'|es' e0 shared].
      - destruct Hr as (H1 & H2 & H3 & H4).
        rewrite <- app_assoc in H1. cbn [app] in H1.
        replace (2 * S (length next2))%nat with (S (S (2 * length next2))) by lia.
        repeat split; auto. rewrite H4. apply Hdrop.
      - destruct Hr as (k & H1 & H2 & H3 & H4). exists (S k).
        rewrite <- app_assoc in H2. cbn [app] in H2.
        replace (2 * S k)%nat with (S (S (2 * k))) by lia.
        cbn [take]. repeat split; auto. lia.
      - destruct Hr as (k & H1 & H2 & H3 & H4 & H5). exists (S k).
        rewrite <- app_assoc in H2. cbn [app] in H2.
        replace (2 * S k + 1)%nat with (S (S (2 * k + 1))) by lia.
        cbn [take drop]. repeat split; auto. }
    destruct m as [|b1 m].
    + cbn [negb]. destruct (IH (es ++ [e]) []) as (r & m' & Hr & Hcase).
      exists r, m'. split; [exact Hr|].
      apply (Hlift [] r m' Hr Hcase true true []);
        [right; right; auto|reflexivity|reflexivity].
    + destruct b1; cbn [negb].
      2:{ exists (NoNode es), m. split; [reflexivity|]. exists 0%nat.
          cbn. rewrite app_nil_r. repeat split; [lia|constructor]. }
      destruct m as [|b2 m].
      * cbn [negb]. destruct (IH (es ++ [e]) []) as (r & m' & Hr & Hcase).
        exists r, m'. split; [exact Hr|].
        apply (Hlift [] r m' Hr Hcase true true [true]);
          [right; left; auto|reflexivity|reflexivity].
      * destruct b2; cbn [negb].
        2:{ exists (NoName es e next2), m. split; [reflexivity|]. exists 0%nat.
            cbn. rewrite app_nil_r. repeat split. repeat constructor. }
        destruct (IH (es ++ [e]) m) as (r & m' & Hr & Hcase).
        exists r, m'. split; [exact Hr|].
        apply (Hlift m r m' Hr Hcase true true (true :: true :: m));
          [left; reflexivity|reflexivity|reflexivity].
Qed.

(** X16.  [dir_list_append] never changes the entries [list1] had.  When
    none of its allocations (two per entry of [list2]) fails, [list1] ends
    up with the entries of [list2] after its own and its last node is
    returned.  When a [malloc] fails, NULL is returned and [list1] keeps
    the entries appended so far.  When a [strdup] fails, NULL is returned
    and [list1] is left with a node without a name whose [next] pointer
    leads into [list2], so that the remaining nodes of [list2] belong to
    both lists. *)
Theorem dir_list_append_outcomes (es1 es2 : list dir_entry)
  (m : alloc_script) :
  exists r m',
    dir_list_append es1 es2 m = Some (r, m') /\
    match r with
    | Appended last es =>
        es = es1 ++ es2 /\ last = last_cursor (es1 ++ es2) /\
        m' = drop (2 * length es2) m
    | NoNode es =>
        exists k, (k < length es2)%nat /\ es = es1 ++ take k es2 /\
                  m !! (2 * k)%nat = Some false
    | NoName es e shared =>
        exists k, es2 !! k = Some e /\ es = es1 ++ take k es2 /\
                  shared = drop (S k) es2 /\
                  m !! (2 * k + 1)%nat = Some false
    end /\
    (all_granted (take (2 * length es2) m) <->
     r = Appended (last_cursor (es1 ++ es2)) (es1 ++ es2)).
Proof.
  unfold dir_list_append.
  destruct (append_loop_spec es2 es1 m) as (r & m' & Hr & Hcase).
  exists r, m'. split; [exact Hr|].
  destruct r as [last es|es|es e shared].
  - destruct Hcase as (-> & -> & Hg & ->).
    split; [auto|]. split; [reflexivity|]. intros _. exact Hg.
  - destruct Hcase as (k & Hk & -> & Hg & Hf).
    split; [exists k; auto|]. split; [|discriminate].
    intros Hall. exfalso.
    apply (all_granted_lookup _ m (2 * k) Hall); [lia|exact Hf].
  - destruct Hcase as (k & Hk & -> & -> & Hg & Hf).
    split; [exists k; auto|]. split; [|discriminate].
    intros Hall. exfalso.
    apply lookup_lt_Some in Hk.
    apply (all_granted_lookup _ m (2 * k + 1) Hall); [lia|exact Hf].
Qed.

(** ** Adding an entry *)

Lemma same_key_sym a b : same_key a b -> same_key b a.
Proof.
  intros [Hh Hn]. split; [congruence|].
  rewrite strcmp_antisym, Hn. reflexivity.
Qed.

(** X17.  [dir_entry_add] for a key that no node from the one handed over
    onwards holds: when the allocations succeed, one entry with that key,
    its hash, the given [st] and type and a valid flag of 1 is appended at
    the end and its node returned (the new head for a NULL list); when an
    allocation fails, NULL is returned and the list is as before.  Whatever
    the key, the entries the list had are never changed, at most one entry
    is added, and a NULL result means that nothing was added. *)
Theorem dir_entry_add_absent (get_hash : cstring -> Z -> Z)
  (es : list dir_entry) (cur : cursor) (key : cstring) (st type : Z)
  (malloc_head_ok malloc_ok strdup_ok : bool) :
  let new := mk_dir_entry key (get_hash key 0) st type 1 in
  let r := dir_entry_add get_hash (InList es cur) key st type
                         malloc_head_ok malloc_ok strdup_ok in
  let r0 := dir_entry_add get_hash NullList key st type
                          malloc_head_ok malloc_ok strdup_ok in
  ((forall j e, (search_start cur <= j)%nat -> es !! j = Some e ->
                ~ holds_key get_hash key e) ->
   r = if malloc_ok && strdup_ok
       then (Some (AtNode (length es)), es ++ [new])
       else (None, es)) /\
  r0 = (if malloc_head_ok && malloc_ok && strdup_ok
        then (Some AtHead, [new]) else (None, [])) /\
  (snd r = es \/ snd r = es ++ [new]) /\
  (fst r = None -> snd r = es) /\
  (forall j e, es !! j = Some e -> snd r !! j = Some e).
Proof.
  intros new r r0.
  assert (Hcases : (exists j, r = (Some (AtNode j), es)) \/
                   r = if malloc_ok && strdup_ok
                       then (Some (AtNode (length es)), es ++ [new])
                       else (None, es)).
  { subst r. unfold dir_entry_add.
    destruct (find_entry _ _ _ _) as [j|]; [left; exists j; reflexivity|].
    right. destruct malloc_ok, strdup_ok; reflexivity. }
  split; [|split; [|split; [|split]]].
  - intros Habs. subst r. unfold dir_entry_add.
    destruct (find_entry (get_hash key 0) key (search_start cur)
                (drop (search_start cur) es)) as [j|] eqn:Ef.
    + exfalso.
      destruct (find_entry_some get_hash _ _ _ _ Ef) as (Hk & (e' & He' & Hhold) & _).
      rewrite lookup_drop in He'.
      apply (Habs (search_start cur + (j - search_start cur))%nat e');
        [lia|exact He'|exact Hhold].
    + destruct malloc_ok, strdup_ok; reflexivity.
  - subst r0. unfold dir_entry_add.
    destruct malloc_head_ok, malloc_ok, strdup_ok; reflexivity.
  - destruct Hcases as [[j ->]| ->]; [left; reflexivity|].
    destruct (malloc_ok && strdup_ok); [right|left]; reflexivity.
  - destruct Hcases as [[j ->]| ->]; [discriminate|].
    destruct (malloc_ok && strdup_ok); [discriminate|reflexivity].
  - intros j e He. destruct Hcases as [[j' ->]| ->]; [exact He|].
    destruct (malloc_ok && strdup_ok); [|exact He].
    cbn [snd]. apply lookup_app_l_Some. exact He.
Qed.

(** X18.  A list in which no two entries hold the same key (same hash,
    names comparing equal) stays such a list when [dir_entry_add] is called
    with its head, whatever the key and the outcome of the allocations: the
    lookup before the insertion covers the whole list. *)
Theorem dir_entry_add_keeps_unique (get_hash : cstring -> Z -> Z)
  (es : list dir_entry) (key : cstring) (st type : Z)
  (malloc_head_ok malloc_ok strdup_ok : bool) :
  unique_keys es ->
  unique_keys (snd (dir_entry_add get_hash (InList es AtHead) key st type
                                  malloc_head_ok malloc_ok strdup_ok)).
Proof.
  intros Hu. unfold dir_entry_add. cbn [search_start]. rewrite drop_0.
  destruct (find_entry (get_hash key 0) key 0 es) as [j|] eqn:Ef;
    [exact Hu|].
  destruct malloc_ok; cbn [negb]; [|exact Hu].
  destruct strdup_ok; cbn [negb snd]; [|exact Hu].
  rewrite (find_entry_none get_hash) in Ef.
  intros i j a b Hij Ha Hb Hsame.
  assert (Hjlen : (j < length es + 1)%nat).
  { apply lookup_lt_Some in Hb. rewrite length_app in Hb. exact Hb. }
  destruct (Nat.lt_ge_cases j (length es)) as [Hj|Hj].
  - rewrite lookup_app_l in Ha, Hb by lia.
    exact (Hu i j a b Hij Ha Hb Hsame).
  - assert (j = length es) by lia. subst j.
    rewrite lookup_app_l in Ha by lia.
    rewrite lookup_app_r, Nat.sub_diag in Hb by lia.
    cbn in Hb. inversion Hb; subst b. clear Hb.
    apply same_key_sym in Hsame. destruct Hsame as [Hh Hn].
    cbn [add_entry entry_hash entry_name] in Hh, Hn.
    apply (Ef i a Ha). split; [congruence|exact Hn].
Qed.

Lemma dir_entry_add_keeps_unique_witness :
  unique_keys Samples.two_names /\
  unique_keys
    (Samples.two_names ++ [mk_dir_entry (cstr "c.txt") 5 3000 1 1]).
Proof.
  assert (H0 : unique_keys Samples.two_names).
  { intros i j a b Hij Ha Hb [Hh _].
    destruct i as [|[|i]]; destruct j as [|[|j]]; try lia;
      try discriminate.
    cbn in Ha, Hb. inversion Ha; inversion Hb; subst a b.
    cbn in Hh. discriminate. }
  split; [exact H0|].
  apply (dir_entry_add_keeps_unique Samples.length_hash Samples.two_names
           (cstr "c.txt") 3000 1 true true true H0).
Defined.

(** ** Closing a list twice *)

Lemma sort_loop_result es fuel r :
  Z.of_nat (length es) <= INT_MAX ->
  sort_loop fuel es = Some r ->
  Permutation es r /\ Sorted entry_le r.
Proof.
  intros Hlen Hr.
  destruct (sort_loop_terminates es Hlen (S (inversions es)) ltac:(lia))
    as (sorted & Hs & Hperm & Hsorted).
  apply (sort_loop_fuel _ _ _ (Nat.max fuel (S (inversions es)))) in Hr; [|lia].
  apply (sort_loop_fuel _ _ _ (Nat.max fuel (S (inversions es)))) in Hs; [|lia].
  rewrite Hr in Hs. inversion Hs; subst. auto.
Qed.

Lemma sort_loop_sorted es fuel :
  Z.of_nat (length es) <= INT_MAX -> Sorted entry_le es ->
  sort_loop (S fuel) es = Some es.
Proof.
  intros Hlen Hs. cbn [sort_loop]. destruct es as [|first rest]; [reflexivity|].
  destruct (bubble_pass_spec rest first 0) as (k & l & Hp & Hk & Hperm & Hinv & Hz).
  { unfold in_int, INT_MAX. lia. }
  rewrite (inversions_sorted _ Hs) in Hinv.
  assert (k = 0%nat) by lia. subst k.
  destruct (Hz eq_refl) as [-> _]. rewrite Hp. reflexivity.
Qed.

Lemma marked_entry_idem NRM a b :
  marked_entry NRM a (marked_entry NRM a b) = marked_entry NRM a b.
Proof.
  unfold marked_entry at 1.
  rewrite <- (is_duplicate_same NRM a a b (marked_entry NRM a b)
                (same_entry_refl a) (same_entry_marked NRM a b)).
  unfold marked_entry.
  destruct (is_duplicate NRM a b); reflexivity.
Qed.

Lemma mark_duplicates_head NRM rest : forall next,
  mark_duplicates NRM next rest = next :: tl (mark_duplicates NRM next rest).
Proof. destruct rest; reflexivity. Qed.

Lemma mark_duplicates_idem NRM rest : forall next,
  mark_duplicates NRM next (tl (mark_duplicates NRM next rest))
  = mark_duplicates NRM next rest.
Proof.
  induction rest as [|nn rest IH]; intros next; [reflexivity|].
  cbn [mark_duplicates tl].
  fold (marked_entry NRM next nn).
  rewrite (mark_duplicates_head NRM rest (marked_entry NRM next nn)).
  cbn [mark_duplicates tl].
  fold (marked_entry NRM next (marked_entry NRM next nn)).
  rewrite marked_entry_idem, IH.
  rewrite <- mark_duplicates_head. reflexivity.
Qed.

Lemma dir_list_close_result NRM fuel es closed :
  Z.of_nat (length es) <= INT_MAX ->
  dir_list_close NRM fuel es = Some closed ->
  exists sorted,
    Permutation es sorted /\ Sorted entry_le sorted /\
    Forall2 same_entry sorted closed /\
    match sorted with
    | [] => closed = []
    | first :: rest => closed = mark_duplicates NRM first rest
    end.
Proof.
  intros Hlen Hc. unfold dir_list_close in Hc.
  destruct es as [|e es'].
  { inversion Hc; subst. exists []. repeat split; constructor. }
  destruct (sort_loop fuel (e :: es')) as [sorted|] eqn:Es; [|discriminate].
  destruct (sort_loop_result _ _ _ Hlen Es) as [Hperm Hsorted].
  exists sorted. split; [exact Hperm|]. split; [exact Hsorted|].
  destruct sorted as [|first rest]; inversion Hc; subst.
  - split; constructor.
  - split; [apply mark_duplicates_same|reflexivity].
Qed.

(** X19.  Closing a list that has been closed changes nothing: the
    entries are in order already, and the duplicates that were marked are
    the ones that would be marked again. *)
Theorem dir_list_close_idempotent (DIR_E_NRM : Z) (es closed : list dir_entry)
  (fuel fuel' : nat) :
  Z.of_nat (length es) <= INT_MAX ->
  dir_list_close DIR_E_NRM fuel es = Some closed ->
  (0 < fuel')%nat ->
  dir_list_close DIR_E_NRM fuel' closed = Some closed.
Proof.
  intros Hlen Hc Hfuel.
  destruct (dir_list_close_result _ _ _ _ Hlen Hc)
    as (sorted & Hperm & Hsorted & Hsame & Hshape).
  destruct sorted as [|first rest].
  { subst closed. destruct fuel'; reflexivity. }
  assert (Hcs : Sorted entry_le closed).
  { apply StronglySorted_Sorted.
    apply (StronglySorted_same _ _ Hsame).
    apply Sorted_StronglySorted; [|exact Hsorted].
    intros x y z. apply entry_le_trans. }
  assert (Hclen : Z.of_nat (length closed) <= INT_MAX).
  { rewrite <- (Forall2_length _ _ _ Hsame).
    rewrite <- (Permutation_length Hperm). exact Hlen. }
  destruct fuel' as [|f]; [lia|].
  unfold dir_list_close.
  rewrite (sort_loop_sorted closed f Hclen Hcs).
  rewrite Hshape. rewrite (mark_duplicates_head DIR_E_NRM rest first).
  rewrite mark_duplicates_idem.
  rewrite <- mark_duplicates_head. reflexivity.
Qed.

Lemma dir_list_close_idempotent_witness :
  Z.of_nat (length Samples.triple) <= INT_MAX /\
  dir_list_close 0 4 Samples.triple
  = Some [ mk_dir_entry (cstr "a.txt") 7 2000 0 1;
           mk_dir_entry (cstr "a.txt") 7 1000 1 0;
           mk_dir_entry (cstr "a.txt") 7 3000 1 0 ] /\
  dir_list_close 0 1
    [ mk_dir_entry (cstr "a.txt") 7 2000 0 1;
      mk_dir_entry (cstr "a.txt") 7 1000 1 0;
      mk_dir_entry (cstr "a.txt") 7 3000 1 0 ]
  = Some [ mk_dir_entry (cstr "a.txt") 7 2000 0 1;
           mk_dir_entry (cstr "a.txt") 7 1000 1 0;
           mk_dir_entry (cstr "a.txt") 7 3000 1 0 ].
Proof.
  assert (Hlen : Z.of_nat (length Samples.triple) <= INT_MAX)
    by (vm_compute; discriminate).
  split; [exact Hlen|]. split; [reflexivity|].
  apply (dir_list_close_idempotent 0 Samples.triple _ 4 1 Hlen eq_refl).
  lia.
Defined.

(** ** The order of entries that sort alike *)

Lemma sorts_like_in_order k A B :
  sorts_like k A = true -> sorts_like k B = true -> out_of_order A B = false.
Proof.
  unfold sorts_like, out_of_order. rewrite !andb_true_iff, !Z.eqb_eq.
  intros [HA HtA] [HB HtB].
  assert (HkB : strcmp (entry_name k) (entry_name B) = 0)
    by (rewrite strcmp_antisym, HB; reflexivity).
  assert (HkA : strcmp (entry_name k) (entry_name A) = 0)
    by (rewrite strcmp_antisym, HA; reflexivity).
  destruct (strcmp_trans (entry_name A) (entry_name k) (entry_name B)
              ltac:(lia) ltac:(lia)) as [H1 _].
  destruct (strcmp_trans (entry_name B) (entry_name k) (entry_name A)
              ltac:(lia) ltac:(lia)) as [H2 _].
  rewrite (strcmp_antisym (entry_name A) (entry_name B)) in H2.
  assert (H0 : strcmp (entry_name A) (entry_name B) = 0) by lia.
  rewrite H0. cbn [Z.eqb]. rewrite Z.gtb_ltb. apply Z.ltb_ge. lia.
Qed.

Lemma bubble_pass_filter k rest : forall next n,
  List.filter (sorts_like k) (snd (bubble_pass next rest n))
  = List.filter (sorts_like k) (next :: rest).
Proof.
  induction rest as [|nn rest IH]; intros next n; [reflexivity|].
  cbn [bubble_pass]. rewrite swap_out_of_order.
  destruct (out_of_order next nn) eqn:E.
  - specialize (IH next (int32 (n + 1))).
    destruct (bubble_pass next rest (int32 (n + 1))) as [n' l].
    cbn [snd] in *. cbn [List.filter] in *. rewrite IH.
    destruct (sorts_like k nn) eqn:Enn; destruct (sorts_like k next) eqn:Enext;
      try reflexivity.
    rewrite (sorts_like_in_order k next nn Enext Enn) in E. discriminate.
  - specialize (IH nn (int32 (n + 0))).
    destruct (bubble_pass nn rest (int32 (n + 0))) as [n' l].
    cbn [snd] in *. cbn [List.filter] in *. rewrite IH. reflexivity.
Qed.

Lemma sort_loop_filter k fuel : forall es r,
  sort_loop fuel es = Some r ->
  List.filter (sorts_like k) r = List.filter (sorts_like k) es.
Proof.
  induction fuel as [|fuel IH]; intros es r H; [discriminate|].
  cbn [sort_loop] in H. destruct es as [|first rest].
  { inversion H. reflexivity. }
  pose proof (bubble_pass_filter k rest first 0) as Hf.
  destruct (bubble_pass first rest 0) as [n es']. cbn [snd] in Hf.
  destruct (negb (n =? 0)).
  - rewrite (IH _ _ H). exact Hf.
  - inversion H; subst. exact Hf.
Qed.

Lemma sorts_like_same k a b :
  same_entry a b -> sorts_like k a = sorts_like k b.
Proof.
  intros (Hn & _ & _ & Ht). unfold sorts_like. rewrite Hn, Ht. reflexivity.
Qed.

Lemma filter_same k l l' :
  Forall2 same_entry l l' ->
  Forall2 same_entry (List.filter (sorts_like k) l)
                     (List.filter (sorts_like k) l').
Proof.
  induction 1 as [|a b l l' Hab Hl IH]; [constructor|].
  cbn [List.filter]. rewrite <- (sorts_like_same k a b Hab).
  destruct (sorts_like k a); [constructor; assumption|exact IH].
Qed.

(** X20.  The sort of [dir_list_close] is stable: entries whose names
    compare equal and whose types are the same stand in the closed list in
    the order in which they stood before (only their valid flags may have
    been cleared), so among such entries the one added first comes
    first. *)
Theorem dir_list_close_stable (DIR_E_NRM : Z) (es closed : list dir_entry)
  (fuel : nat) :
  dir_list_close DIR_E_NRM fuel es = Some closed ->
  forall k : dir_entry,
    Forall2 same_entry (List.filter (sorts_like k) es)
                       (List.filter (sorts_like k) closed).
Proof.
  intros Hc k. unfold dir_list_close in Hc.
  destruct es as [|e es'].
  { inversion Hc; subst. constructor. }
  destruct (sort_loop fuel (e :: es')) as [sorted|] eqn:Es; [|discriminate].
  rewrite <- (sort_loop_filter k _ _ _ Es).
  destruct sorted as [|first rest]; inversion Hc; subst.
  - constructor.
  - apply filter_same. apply mark_duplicates_same.
Qed.

Lemma dir_list_close_stable_witness :
  dir_list_close 0 4 Samples.triple
  = Some [ mk_dir_entry (cstr "a.txt") 7 2000 0 1;
           mk_dir_entry (cstr "a.txt") 7 1000 1 0;
           mk_dir_entry (cstr "a.txt") 7 3000 1 0 ] /\
  Forall2 same_entry
    [ mk_dir_entry (cstr "a.txt") 7 1000 1 1;
      mk_dir_entry (cstr "a.txt") 7 3000 1 1 ]
    [ mk_dir_entry (cstr "a.txt") 7 1000 1 0;
      mk_dir_entry (cstr "a.txt") 7 3000 1 0 ].
Proof.
  split; [reflexivity|].
  apply (dir_list_close_stable 0 Samples.triple _ 4 eq_refl
           (mk_dir_entry (cstr "a.txt") 7 1000 1 1)).
Defined.

(** ** Lists without duplicate names *)

Lemma bubble_pass_perm rest : forall next n,
  Permutation (next :: rest) (snd (bubble_pass next rest n)).
Proof.
  induction rest as [|nn rest IH]; intros next n; [reflexivity|].
  cbn [bubble_pass]. rewrite swap_out_of_order.
  destruct (out_of_order next nn).
  - specialize (IH next (int32 (n + 1))).
    destruct (bubble_pass next rest (int32 (n + 1))) as [n' l]. cbn [snd] in *.
    etransitivity; [apply perm_swap|]. apply perm_skip. exact IH.
  - specialize (IH nn (int32 (n + 0))).
    destruct (bubble_pass nn rest (int32 (n + 0))) as [n' l]. cbn [snd] in *.
    apply perm_skip. exact IH.
Qed.

Lemma sort_loop_perm fuel : forall es r,
  sort_loop fuel es = Some r -> Permutation es r.
Proof.
  induction fuel as [|fuel IH]; intros es r H; [discriminate|].
  cbn [sort_loop] in H. destruct es as [|first rest].
  { inversion H. reflexivity. }
  pose proof (bubble_pass_perm rest first 0) as Hp.
  destruct (bubble_pass first rest 0) as [n es']. cbn [snd] in Hp.
  destruct (negb (n =? 0)).
  - etransitivity; [exact Hp|]. apply IH. exact H.
  - inversion H; subst. exact Hp.
Qed.

Lemma distinct_names_perm l l' :
  Permutation l l' -> distinct_names l -> distinct_names l'.
Proof.
  induction 1 as [|x l l' Hp IH|x y l|l l' l'' Hp1 IH1 Hp2 IH2].
  - auto.
  - cbn [distinct_names]. intros [Hx Hl]. split; [|apply IH; exact Hl].
    apply (Permutation_Forall Hp). exact Hx.
  - cbn [distinct_names]. intros (Hy & Hx & Hl).
    inversion Hy as [|? ? Hyx Hyl]; subst.
    split; [|split; assumption].
    constructor; [|exact Hx].
    rewrite strcmp_antisym. lia.
  - auto.
Qed.

Lemma mark_duplicates_distinct NRM rest : forall next,
  distinct_names (next :: rest) ->
  mark_duplicates NRM next rest = next :: rest.
Proof.
  induction rest as [|nn rest IH]; intros next Hd; [reflexivity|].
  cbn [mark_duplicates]. cbn [distinct_names] in Hd.
  destruct Hd as (Hnext & Hnn & Hrest).
  inversion Hnext as [|? ? Hne _]; subst.
  assert (Hdup : is_duplicate NRM next nn = false).
  { unfold is_duplicate. apply andb_false_iff. right.
    apply Z.eqb_neq. exact Hne. }
  rewrite Hdup. rewrite IH; [reflexivity|].
  cbn [distinct_names]. split; assumption.
Qed.

(** X21.  When no two entries of a list have names that compare equal,
    [dir_list_close] only sorts: the closed list is a rearrangement of the
    entries as they were, each with the valid flag it had. *)
Theorem dir_list_close_distinct_names (DIR_E_NRM : Z)
  (es closed : list dir_entry) (fuel : nat) :
  dir_list_close DIR_E_NRM fuel es = Some closed ->
  distinct_names es ->
  Permutation es closed /\ distinct_names closed.
Proof.
  intros Hc Hd. unfold dir_list_close in Hc.
  destruct es as [|e es'].
  { inversion Hc; subst. split; [reflexivity|exact I]. }
  destruct (sort_loop fuel (e :: es')) as [sorted|] eqn:Es; [|discriminate].
  pose proof (sort_loop_perm _ _ _ Es) as Hperm.
  pose proof (distinct_names_perm _ _ Hperm Hd) as Hds.
  destruct sorted as [|first rest]; inversion Hc; subst.
  - split; [exact Hperm|exact I].
  - rewrite (mark_duplicates_distinct DIR_E_NRM rest first Hds).
    split; assumption.
Qed.

Lemma dir_list_close_distinct_names_witness :
  dir_list_close 0 2 (rev Samples.two_names) = Some Samples.two_names /\
  distinct_names (rev Samples.two_names) /\
  Permutation (rev Samples.two_names) Samples.two_names.
Proof.
  assert (Hd : distinct_names (rev Samples.two_names)).
  { cbn. repeat split; repeat constructor. vm_compute. discriminate. }
  split; [reflexivity|]. split; [exact Hd|].
  apply (dir_list_close_distinct_names 0 (rev Samples.two_names)
           Samples.two_names 2 eq_refl Hd).
Defined.

(** ** Configuration properties *)

Lemma land_lor_absorb m p :
  0 <= p < 2 ^ 32 -> Z.land (Z.lor m p mod 2 ^ 32) p = p.
Proof.
  intros Hp. apply Z.bits_inj'. intros i Hi. rewrite Z.land_spec.
  destruct (Z.lt_ge_cases i 32) as [Hlt|Hge].
  - rewrite Z.mod_pow2_bits_low by lia. rewrite Z.lor_spec.
    destruct (Z.testbit m i), (Z.testbit p i); reflexivity.
  - rewrite Z.mod_pow2_bits_high by lia. cbn [andb].
    rewrite <- (Z.mod_small p (2 ^ 32)) by lia.
    rewrite Z.mod_pow2_bits_high by lia. reflexivity.
Qed.

Lemma has_prop_set e e' prop :
  uint32 prop <> 0 -> mask e' = set_prop e prop -> has_prop e' prop = true.
Proof.
  intros Hne Hm. unfold has_prop, set_prop in *. rewrite Hm.
  unfold uint32, wrap_unsigned in *.
  rewrite land_lor_absorb by (apply Z.mod_pos_bound; lia).
  apply negb_true_iff. apply Z.eqb_neq. exact Hne.
Qed.

Section Properties.

Variable RAR_SEEK_LENGTH_PROP : Z.
Variable RAR_SAVE_EOF_PROP : Z.
Variable strtoul : cstring -> Z.

(** the case labels of a [switch] are distinct, and the bits are bits *)
Hypothesis labels_distinct : RAR_SEEK_LENGTH_PROP <> RAR_SAVE_EOF_PROP.
Hypothesis seek_length_bit : uint32 RAR_SEEK_LENGTH_PROP <> 0.
Hypothesis save_eof_bit : uint32 RAR_SAVE_EOF_PROP <> 0.

Abbreviation getprop_int :=
  (rarconfig_getprop_int RAR_SEEK_LENGTH_PROP RAR_SAVE_EOF_PROP).
Abbreviation set_seek_length :=
  (__entry_set_seek_length RAR_SEEK_LENGTH_PROP strtoul).
Abbreviation set_save_eof := (__entry_set_save_eof RAR_SAVE_EOF_PROP).

(** X22.  What [rarconfig_getprop_int] answers for a path.  After
    [__entry_set_seek_length] the seek length is the number [strtoul] read,
    converted to [int].  After [__entry_set_save_eof] the save-eof property
    is 1 for a value that is [true] in any letter case, 0 for [false] in
    any letter case, and what it was before for any other value.  For a
    path without entry, an entry as [__alloc] returns it, or any other
    property the answer is -1. *)
Theorem getprop_int_after_set (entry_of : cstring -> option config_entry)
  (path value : cstring) (e : config_entry) :
  (entry_of path = Some (set_seek_length e value) ->
   getprop_int entry_of path RAR_SEEK_LENGTH_PROP = int32 (strtoul value)) /\
  (entry_of path = Some (set_save_eof e value) ->
   getprop_int entry_of path RAR_SAVE_EOF_PROP
   = if strcasecmp value (cstr "true") =? 0 then 1
     else if strcasecmp value (cstr "false") =? 0 then 0
     else getprop_int (fun _ => Some e) path RAR_SAVE_EOF_PROP) /\
  (entry_of path = None \/ entry_of path = Some config_zero ->
   forall prop, getprop_int entry_of path prop = -1) /\
  (forall prop, prop <> RAR_SEEK_LENGTH_PROP -> prop <> RAR_SAVE_EOF_PROP ->
                getprop_int entry_of path prop = -1).
Proof using labels_distinct seek_length_bit save_eof_bit.
  unfold rarconfig_getprop_int.
  split; [|split; [|split]].
  - intros ->. rewrite Z.eqb_refl.
    rewrite (has_prop_set e (set_seek_length e value) RAR_SEEK_LENGTH_PROP
               seek_length_bit eq_refl).
    reflexivity.
  - intros ->.
    destruct (RAR_SAVE_EOF_PROP =? RAR_SEEK_LENGTH_PROP) eqn:E;
      [zify_bool; congruence|].
    rewrite Z.eqb_refl. unfold __entry_set_save_eof.
    destruct (strcasecmp value (cstr "true") =? 0).
    { rewrite (has_prop_set e
                 (mk_config _ _ _ _ _ (set_prop e RAR_SAVE_EOF_PROP))
                 RAR_SAVE_EOF_PROP save_eof_bit eq_refl).
      reflexivity. }
    destruct (strcasecmp value (cstr "false") =? 0).
    { rewrite (has_prop_set e
                 (mk_config _ _ _ _ _ (set_prop e RAR_SAVE_EOF_PROP))
                 RAR_SAVE_EOF_PROP save_eof_bit eq_refl).
      reflexivity. }
    reflexivity.
  - intros [-> | ->] prop; [reflexivity|].
    unfold has_prop, config_zero. cbn [mask]. rewrite !Z.land_0_l.
    cbn [Z.eqb negb].
    destruct (prop =? RAR_SEEK_LENGTH_PROP); [reflexivity|].
    destruct (prop =? RAR_SAVE_EOF_PROP); reflexivity.
  - intros prop H1 H2. destruct (entry_of path); [|reflexivity].
    destruct (prop =? RAR_SEEK_LENGTH_PROP) eqn:E1; [zify_bool; congruence|].
    destruct (prop =? RAR_SAVE_EOF_PROP) eqn:E2; [zify_bool; congruence|].
    reflexivity.
Qed.

End Properties.

Lemma getprop_int_after_set_witness :
  Props.seek_length_bit <> Props.save_eof_bit /\
  uint32 Props.seek_length_bit <> 0 /\ uint32 Props.save_eof_bit <> 0 /\
  rarconfig_getprop_int Props.seek_length_bit Props.save_eof_bit
    (fun _ => Some (__entry_set_save_eof Props.save_eof_bit config_zero
                      (cstr "TRUE")))
    (cstr "/a.rar") Props.save_eof_bit = 1.
Proof.
  assert (H1 : Props.seek_length_bit <> Props.save_eof_bit) by discriminate.
  assert (H2 : uint32 Props.seek_length_bit <> 0) by discriminate.
  assert (H3 : uint32 Props.save_eof_bit <> 0) by discriminate.
  split; [exact H1|]. split; [exact H2|]. split; [exact H3|].
  apply (getprop_int_after_set Props.seek_length_bit Props.save_eof_bit
           Props.no_number H1 H2 H3
           (fun _ => Some (__entry_set_save_eof Props.save_eof_bit config_zero
                             (cstr "TRUE")))
           (cstr "/a.rar") (cstr "TRUE") config_zero).
  reflexivity.
Defined.

(** ** Looking up an alias *)

Lemma getalias_loop_find k : forall i e file,
  Z.of_nat (i + k) < 2 ^ 64 ->
  getalias_loop k (Z.of_nat i) e file
  = option_map alias_alias
      (List.find (fun ax => strcmp file (alias_file ax) =? 0)
                 (take k (drop i (aliases e)))).
Proof.
  induction k as [|k IH]; intros i e file Hb; [reflexivity|].
  cbn [getalias_loop]. rewrite Nat2Z.id.
  destruct (aliases e !! i) as [ax|] eqn:E.
  - rewrite (drop_S _ _ _ E). cbn [take List.find].
    destruct (strcmp file (alias_file ax) =? 0); [reflexivity|].
    unfold uint64, wrap_unsigned. rewrite Z.mod_small by lia.
    replace (Z.of_nat i + 1) with (Z.of_nat (S i)) by lia.
    apply IH. lia.
  - apply lookup_ge_None in E. rewrite drop_ge by lia. reflexivity.
Qed.

Lemma getalias_first_alias e file :
  aliases_wf e -> Z.of_nat (length (aliases e)) < 2 ^ 64 ->
  getalias_loop (Z.to_nat (n_aliases e)) 0 e file = first_alias e file.
Proof.
  intros Hwf Hb. unfold aliases_wf in Hwf. rewrite Hwf, Nat2Z.id.
  change 0 with (Z.of_nat 0).
  rewrite getalias_loop_find by (cbn [Nat.add]; exact Hb).
  rewrite drop_0, firstn_all. reflexivity.
Qed.

Lemma find_app_first {A} (f : A -> bool) l1 l2 :
  List.find f (l1 ++ l2)
  = match List.find f l1 with
    | Some x => Some x
    | None => List.find f l2
    end.
Proof.
  induction l1 as [|x l1 IH]; [reflexivity|].
  cbn [app List.find]. destruct (f x); [reflexivity|exact IH].
Qed.

(** X23.  [rarconfig_getalias] returns the alias of the first stored pair
    whose file name compares equal to the one asked for, NULL when there is
    none.  So after [__set_alias] has stored a pair, the file gets the new
    alias only when it had none before (an alias stored earlier for the
    same file stays in force), a file whose name compares unequal gets what
    it got before, and [n_aliases] is still the number of pairs stored. *)
Theorem getalias_after_set_alias (e : config_entry) (file alias : cstring)
  (m : alloc_script) :
  aliases_wf e -> Z.of_nat (length (aliases e)) + 1 < 2 ^ 64 ->
  all_granted m ->
  exists e' m',
    __set_alias e file alias m = Some (e', m') /\
    aliases_wf e' /\
    aliases e' = aliases e ++ [mk_alias file alias] /\
    (forall entry_of path f,
       entry_of path = Some e ->
       rarconfig_getalias entry_of path f = first_alias e f) /\
    (forall entry_of path f,
       entry_of path = Some e' ->
       rarconfig_getalias entry_of path f
       = match first_alias e f with
         | Some old => Some old
         | None => if strcmp f file =? 0 then Some alias else None
         end).
Proof.
  intros Hwf Hb Hm.
  destruct (set_alias_granted e file alias m Hm) as (m' & Hset & _).
  exists (with_alias e file alias), m'.
  split; [exact Hset|].
  assert (Hwf' : aliases_wf (with_alias e file alias)).
  { unfold aliases_wf in *. cbn [with_alias n_aliases aliases].
    rewrite length_app. cbn [length]. rewrite Hwf.
    unfold uint64, wrap_unsigned. rewrite Z.mod_small by lia. lia. }
  split; [exact Hwf'|]. split; [reflexivity|]. split.
  - intros entry_of path f He. unfold rarconfig_getalias. rewrite He.
    apply getalias_first_alias; [exact Hwf|lia].
  - intros entry_of path f He. unfold rarconfig_getalias. rewrite He.
    rewrite getalias_first_alias; [|exact Hwf'|].
    2:{ cbn [with_alias aliases]. rewrite length_app. cbn [length]. lia. }
    unfold first_alias. cbn [with_alias aliases].
    rewrite find_app_first.
    destruct (List.find _ (aliases e)) as [ax|]; [reflexivity|].
    cbn [List.find alias_file].
    destruct (strcmp f file =? 0); reflexivity.
Qed.

Lemma getalias_after_set_alias_witness :
  aliases_wf config_zero /\
  rarconfig_getalias
    (fun _ => Some (with_alias (with_alias config_zero (cstr "/d/a") (cstr "/d/b"))
                      (cstr "/d/a") (cstr "/d/c")))
    (cstr "/x.rar") (cstr "/d/a")
  = Some (cstr "/d/b").
Proof.
  split; [reflexivity|].
  assert (Hwf : aliases_wf (with_alias config_zero (cstr "/d/a") (cstr "/d/b")))
    by reflexivity.
  assert (Hb : Z.of_nat (length (aliases (with_alias config_zero (cstr "/d/a")
                                            (cstr "/d/b")))) + 1 < 2 ^ 64)
    by reflexivity.
  destruct (getalias_after_set_alias
              (with_alias config_zero (cstr "/d/a") (cstr "/d/b"))
              (cstr "/d/a") (cstr "/d/c") [] Hwf Hb all_granted_nil)
    as (e' & m' & Hset & _ & _ & _ & Hget).
  cbn in Hset. inversion Hset; subst e'.
  rewrite (Hget _ (cstr "/x.rar") (cstr "/d/a") eq_refl).
  reflexivity.
Defined.

(** ** The path macros of common.h *)

Lemma snprintf_fits n text :
  strlen text < n -> snprintf n text = text.
Proof.
  unfold snprintf, strlen. intros H. apply take_ge. lia.
Qed.

Lemma uint64_id z : 0 <= z < 2 ^ 64 -> uint64 z = z.
Proof. intros H. unfold uint64, wrap_unsigned. apply Z.mod_small. exact H. Qed.

Lemma separator_snoc p c :
  separator (p ++ [c]) = if is_slash c then [] else ["/"%char].
Proof. unfold separator. rewrite rev_app_distr. reflexivity. Qed.

Lemma slash_test c : (uchar c =? uchar "/") = is_slash c.
Proof.
  unfold is_slash. destruct (Ascii.eqb c "/") eqn:E.
  - apply Ascii.eqb_eq in E. subst c. reflexivity.
  - apply Z.eqb_neq. intros H. apply uchar_inj in H.
    apply Ascii.eqb_neq in E. contradiction.
Qed.

Lemma peek_last p c : peek (p ++ [c]) (length p) = uchar c.
Proof.
  induction p as [|a p IH]; [reflexivity|].
  cbn [app length]. rewrite peek_cons_S. exact IH.
Qed.

(** X24.  The buffers the path macros of common.h allocate are large
    enough: [snprintf] never cuts the text off.  [ABS_ROOT] yields the
    source directory followed by the path; [ABS_MP_] yields the path, a
    slash if the path is not empty and does not end in one, and the file
    name. *)
Theorem abs_macros_fit (src path file : cstring) :
  (strlen src + strlen path + 1 < 2 ^ 64 ->
   ABS_ROOT src path = src ++ path) /\
  (strlen path + strlen file + 2 < 2 ^ 64 ->
   ABS_MP_ path file = path ++ separator path ++ file /\
   strlen (ABS_MP_ path file) + 1 <= strlen path + strlen file + 2) /\
  separator [] = [] /\
  (forall p c, separator (p ++ [c]) = if is_slash c then [] else ["/"%char]).
Proof.
  split; [|split; [|split; [reflexivity|apply separator_snoc]]].
  - intros Hb. unfold ABS_ROOT. unfold strlen in *. cbv zeta.
    rewrite (uint64_id (Z.of_nat (length src) + Z.of_nat (length path)))
      by lia.
    rewrite (uint64_id (Z.of_nat (length src) + Z.of_nat (length path) + 1))
      by lia.
    apply snprintf_fits. unfold strlen. rewrite length_app. lia.
  - intros Hb.
    assert (Heq : ABS_MP_ path file = path ++ separator path ++ file).
    { unfold ABS_MP_. unfold strlen in *. cbv zeta.
      pose proof (Nat2Z.is_nonneg (length path)).
      pose proof (Nat2Z.is_nonneg (length file)).
      rewrite (uint64_id (Z.of_nat (length path) + Z.of_nat (length file)))
        by lia.
      rewrite (uint64_id (Z.of_nat (length path) + Z.of_nat (length file) + 2))
        by lia.
      destruct path as [|c p _] using rev_ind.
      - cbn [length Z.of_nat Z.eqb negb andb app separator rev].
        apply snprintf_fits. unfold strlen. lia.
      - rewrite separator_snoc. rewrite length_app in *. cbn [length] in *.
        destruct (Z.of_nat (length p + 1) =? 0) eqn:E; [zify_bool; lia|].
        cbn [negb andb].
        rewrite uint64_id by lia.
        replace (Z.to_nat (Z.of_nat (length p + 1) - 1)) with (length p) by lia.
        rewrite peek_last, slash_test.
        destruct (is_slash c); cbn [negb app].
        + apply snprintf_fits. unfold strlen.
          rewrite !length_app. cbn [length]. lia.
        + rewrite <- app_assoc. cbn [app].
          apply snprintf_fits. unfold strlen.
          rewrite !length_app. cbn [length]. rewrite ?length_app.
          cbn [length]. lia. }
    split; [exact Heq|]. rewrite Heq. unfold strlen.
    rewrite !length_app.
    assert (length (separator path) <= 1)%nat; [|lia].
    unfold separator. destruct (rev path) as [|c q]; [cbn; lia|].
    destruct (is_slash c); cbn; lia.
Qed.

(** ** The alias check is symmetric *)

Section Symmetry.

Variable __gnu_dirname : cstring -> cstring.

Lemma rooted_paths_sym a b : rooted_paths a b -> rooted_paths b a.
Proof. unfold rooted_paths. tauto. Qed.

Lemma alias_allowed_sym fuel a b :
  alias_allowed __gnu_dirname fuel a b -> alias_allowed __gnu_dirname fuel b a.
Proof.
  intros (Hr & (n & Ha & Hb) & Hd). split; [apply rooted_paths_sym; exact Hr|].
  split; [exists n; auto|].
  rewrite strcmp_antisym, Hd. reflexivity.
Qed.

(** X25.  [__check_paths] is symmetric when no allocation fails: it
    accepts renaming [a] to [b] exactly when it accepts renaming [b] to
    [a]. *)
Theorem check_paths_symmetric (fuel : nat) (a b : cstring)
  (m : alloc_script) :
  all_granted m -> levels_counted __gnu_dirname fuel a b ->
  exists r m1 m2,
    __check_paths __gnu_dirname fuel a b m = Some (r, m1) /\
    __check_paths __gnu_dirname fuel b a m = Some (r, m2) /\
    (r = 0 \/ r = 1).
Proof.
  intros Hm Hl.
  assert (Hl' : levels_counted __gnu_dirname fuel b a).
  { intros Hr. apply rooted_paths_sym in Hr. destruct (Hl Hr). auto. }
  destruct (check_paths_granted __gnu_dirname (fun _ => None) fuel a b m Hm Hl)
    as (r1 & m1 & H1 & _ & Hr1 & Hiff1).
  destruct (check_paths_granted __gnu_dirname (fun _ => None) fuel b a m
              Hm Hl')
    as (r2 & m2 & H2 & _ & Hr2 & Hiff2).
  exists r1, m1, m2. split; [exact H1|]. split; [|exact Hr1].
  rewrite H2. do 2 f_equal.
  destruct Hr1 as [-> | ->]; destruct Hr2 as [-> | ->]; try reflexivity.
  - exfalso. assert (H : 1 = 0); [|discriminate].
    apply Hiff2. apply alias_allowed_sym. apply Hiff1. reflexivity.
  - exfalso. assert (H : 1 = 0); [|discriminate].
    apply Hiff1. apply alias_allowed_sym. apply Hiff2. reflexivity.
Qed.

End Symmetry.

Lemma check_paths_symmetric_witness :
  all_granted [] /\
  levels_counted Samples.sample_dirname 10 (cstr "/dir/a.txt") (cstr "/tmp/a.txt") /\
  exists m1 m2,
    __check_paths Samples.sample_dirname 10 (cstr "/dir/a.txt")
      (cstr "/tmp/a.txt") [] = Some (1, m1) /\
    __check_paths Samples.sample_dirname 10 (cstr "/tmp/a.txt")
      (cstr "/dir/a.txt") [] = Some (1, m2).
Proof.
  assert (Hl : levels_counted Samples.sample_dirname 10 (cstr "/dir/a.txt")
                 (cstr "/tmp/a.txt")).
  { intros _. split; vm_compute; discriminate. }
  split; [constructor|]. split; [exact Hl|].
  destruct (check_paths_symmetric Samples.sample_dirname 10 (cstr "/dir/a.txt")
              (cstr "/tmp/a.txt") [] all_granted_nil Hl)
    as (r & m1 & m2 & H1 & H2 & _).
  assert (Hr : r = 1).
  { vm_compute in H1. inversion H1. reflexivity. }
  subst r. exists m1, m2. split; assumption.
Defined.

(** ** The running total is cumulative *)

(** X26.  The running total of unpacked bytes is cumulative over the
    whole recursion: neither a push nor a pop nor the cleanup changes
    [total_unpacked_size] or [max_unpacked_size] (leaving an archive does
    not give its size back), and [check_unpack_size_limit] changes neither
    the depth nor the visited archives nor the stored paths. *)
Theorem unpacked_total_is_cumulative (c : recursion_context) :
  (forall fp path strdup_ok,
     total_unpacked_size (snd (recursion_push_archive c fp path strdup_ok))
     = total_unpacked_size c /\
     max_unpacked_size (snd (recursion_push_archive c fp path strdup_ok))
     = max_unpacked_size c) /\
  total_unpacked_size (recursion_pop_archive c) = total_unpacked_size c /\
  max_unpacked_size (recursion_pop_archive c) = max_unpacked_size c /\
  total_unpacked_size (recursion_context_cleanup c) = total_unpacked_size c /\
  (forall archive_size,
     depth (snd (check_unpack_size_limit c archive_size)) = depth c /\
     max_depth (snd (check_unpack_size_limit c archive_size)) = max_depth c /\
     visited (snd (check_unpack_size_limit c archive_size)) = visited c /\
     archive_chain (snd (check_unpack_size_limit c archive_size))
     = archive_chain c /\
     forall g, is_cycle_detected
                 (Some (snd (check_unpack_size_limit c archive_size))) g
               = is_cycle_detected (Some c) g).
Proof.
  split; [|split; [|split; [|split]]].
  - intros fp path ok. unfold recursion_push_archive.
    destruct fp as [f|]; [|split; reflexivity].
    destruct (depth c >=? max_depth c); [split; reflexivity|].
    destruct (depth c >=? MAX_RECURSION_DEPTH); [split; reflexivity|].
    destruct path as [p|]; [destruct ok|]; split; reflexivity.
  - unfold recursion_pop_archive. destruct (depth c <=? 0); reflexivity.
  - unfold recursion_pop_archive. destruct (depth c <=? 0); reflexivity.
  - apply cleanup_fields.
  - intros sz.
    assert (H : snd (check_unpack_size_limit c sz) = c \/
                exists t, snd (check_unpack_size_limit c sz)
                          = set_total_unpacked_size t c).
    { unfold check_unpack_size_limit. destruct (sz <? 0); [left; reflexivity|].
      destruct (total_unpacked_size c >? int64 (max_unpacked_size c - sz));
        [left; reflexivity|right; eexists; reflexivity]. }
    destruct H as [-> | [t ->]]; repeat split; try reflexivity.
    intros [g|]; [|reflexivity]. cbn [is_cycle_detected].
    apply cycle_loop_visited. reflexivity.
Qed.

(** ** Writing the buffer to a temporary file *)

Lemma set_file_same name content files :
  set_file name content files name = content.
Proof. unfold set_file. destruct (same_name name name); congruence. Qed.

Lemma set_file_other name content files n :
  n <> name -> set_file name content files n = files n.
Proof. unfold set_file. intros H. destruct (same_name n name); congruence. Qed.

(** X27.  [write_buffer_to_tempfile] on a buffer the callback has filled,
    with a name from [mkstemp] that did not exist before: it returns 0
    exactly when the arguments are there, [mkstemp] succeeds and [write]
    reports the whole size, and then the file of that name holds exactly
    the bytes of the buffer.  In every other case ([-EINVAL] for a buffer
    without data or a missing path, a failed [mkstemp], a short or failed
    [write]) no file is left behind.  The outcome of [fsync] changes
    nothing, and no other file is ever touched. *)
Theorem write_buffer_to_tempfile_outcomes (sys : tempfile_calls)
  (files : tempfiles) (b : extract_buffer)
  (data_given out_path_given : bool) :
  buffer_wf b ->
  (forall name, mkstemp_name sys = Some name -> files name = None) ->
  (mkstemp_name sys = None -> 0 < mkstemp_errno sys <= INT_MAX) ->
  let r := write_buffer_to_tempfile sys files (Some b) data_given
             out_path_given in
  let status := fst (fst r) in
  let files' := snd (fst r) in
  (status = 0 <->
   data_given = true /\ buf_size b <> 0 /\ out_path_given = true /\
   mkstemp_name sys <> None /\ write_result sys = buf_size b) /\
  (status = 0 ->
   exists name, mkstemp_name sys = Some name /\ snd r = Some name /\
                files' name = Some (buf_data b)) /\
  (status <> 0 -> forall n, files' n = files n) /\
  (forall n, mkstemp_name sys <> Some n -> files' n = files n) /\
  (data_given = false \/ buf_size b = 0 \/ out_path_given = false ->
   r = (- EINVAL, files, None)) /\
  (forall sys', mkstemp_name sys' = mkstemp_name sys ->
                mkstemp_left sys' = mkstemp_left sys ->
                mkstemp_errno sys' = mkstemp_errno sys ->
                write_result sys' = write_result sys ->
                write_buffer_to_tempfile sys' files (Some b) data_given
                  out_path_given = r).
Proof.
  intros [Hsize Hcap] Hfresh Herrno r status files'.
  assert (Hw : int64 (buf_size b) = buf_size b).
  { apply int64_small. unfold ONE_GIB in Hcap.
    pose proof (Nat2Z.is_nonneg (length (buf_data b))). lia. }
  assert (Hpos : 0 <= buf_size b) by lia.
  assert (Hsame : forall sys',
            mkstemp_name sys' = mkstemp_name sys ->
            mkstemp_left sys' = mkstemp_left sys ->
            mkstemp_errno sys' = mkstemp_errno sys ->
            write_result sys' = write_result sys ->
            write_buffer_to_tempfile sys' files (Some b) data_given
              out_path_given = r).
  { intros sys' H1 H2 H3 H4. subst r. unfold write_buffer_to_tempfile.
    rewrite H1, H2, H3, H4. reflexivity. }
  assert (Hinval : negb data_given || (buf_size b =? 0)
                   || negb out_path_given = true ->
                   r = (- EINVAL, files, None)).
  { intros H. subst r. unfold write_buffer_to_tempfile. rewrite H.
    reflexivity. }
  destruct (negb data_given || (buf_size b =? 0) || negb out_path_given)
    eqn:Eargs.
  { (* invalid arguments *)
    subst status files'. rewrite (Hinval eq_refl). cbn [fst snd].
    apply orb_true_iff in Eargs. rewrite orb_true_iff in Eargs.
    rewrite Z.eqb_eq, !negb_true_iff in Eargs.
    unfold EINVAL.
    split; [split; [discriminate|intros (H1 & H2 & H3 & _); intuition congruence]|].
    split; [discriminate|].
    split; [reflexivity|]. split; [reflexivity|]. split; [reflexivity|].
    intros sys' H1 H2 H3 H4. rewrite (Hsame sys' H1 H2 H3 H4).
    apply (Hinval eq_refl). }
  apply orb_false_iff in Eargs. destruct Eargs as [Eargs Eo].
  apply orb_false_iff in Eargs. destruct Eargs as [Ec Es].
  apply negb_false_iff in Eo, Ec. zify_bool.
  assert (Hr : r = match mkstemp_name sys with
                   | None =>
                       (int32 (- mkstemp_errno sys), files,
                        Some (mkstemp_left sys))
                   | Some name =>
                       let created := set_file name (Some []) files in
                       let stored :=
                         if (0 <=? write_result sys)
                            && (write_result sys <=? buf_size b)
                         then set_file name
                                (Some (take (Z.to_nat (write_result sys))
                                            (buf_data b))) created
                         else created in
                       if negb (write_result sys =? buf_size b)
                       then (- EIO, set_file name None stored, Some name)
                       else (0, stored, Some name)
                   end).
  { subst r. unfold write_buffer_to_tempfile.
    apply Z.eqb_neq in Es. rewrite Ec, Es, Eo, Hw. reflexivity. }
  destruct (mkstemp_name sys) as [name|] eqn:En.
  2:{ (* mkstemp failed *)
      specialize (Herrno eq_refl). unfold INT_MAX in Herrno.
      subst status files'. rewrite Hr. cbn [fst snd].
      rewrite int32_small by lia.
      split; [split; [lia|intros (_ & _ & _ & H & _); congruence]|].
      split; [lia|].
      split; [reflexivity|]. split; [reflexivity|].
      split; [intros [H|[H|H]]; [congruence|lia|congruence]|].
      intros sys' H1 H2 H3 H4. rewrite (Hsame sys' H1 H2 H3 H4), Hr.
      rewrite int32_small by lia. reflexivity. }
  specialize (Hfresh name eq_refl). cbv zeta in Hr.
  destruct (write_result sys =? buf_size b) eqn:Ew; cbn [negb] in Hr; zify_bool.
  - (* everything written *)
    rewrite Ew in Hr.
    assert (Hin : (0 <=? buf_size b) && (buf_size b <=? buf_size b) = true).
    { apply andb_true_iff. split; apply Z.leb_le; lia. }
    rewrite Hin in Hr.
    subst status files'. rewrite Hr. cbn [fst snd].
    split; [split; [intros _|reflexivity]|].
    { repeat split; try assumption; try congruence. }
    split.
    { intros _. exists name. split; [reflexivity|]. split; [reflexivity|].
      rewrite set_file_same. rewrite Hsize, Nat2Z.id, firstn_all. reflexivity. }
    split; [congruence|].
    split.
    { intros n Hn. rewrite !set_file_other by congruence. reflexivity. }
    split; [intros [H|[H|H]]; [congruence|lia|congruence]|].
    intros sys' H1 H2 H3 H4. rewrite (Hsame sys' H1 H2 H3 H4). exact Hr.
  - (* short or failed write: the file is removed *)
    subst status files'. rewrite Hr. cbn [fst snd]. unfold EIO.
    assert (Hgone : forall stored n, set_file name None stored n = files n
                                     \/ n <> name).
    { intros stored n. destruct (same_name n name) as [->|Hne];
        [left; rewrite set_file_same; congruence|right; exact Hne]. }
    split; [split; [discriminate|intros (_ & _ & _ & _ & H); congruence]|].
    split; [discriminate|].
    split.
    { intros _ n. destruct (same_name n name) as [->|Hne].
      - rewrite set_file_same. congruence.
      - rewrite set_file_other by exact Hne.
        destruct ((0 <=? write_result sys) && (write_result sys <=? buf_size b));
          rewrite ?set_file_other by exact Hne; reflexivity. }
    split.
    { intros n Hn. assert (Hne : n <> name) by congruence.
      rewrite set_file_other by exact Hne.
      destruct ((0 <=? write_result sys) && (write_result sys <=? buf_size b));
        rewrite ?set_file_other by exact Hne; reflexivity. }
    split; [intros [H|[H|H]]; [congruence|lia|congruence]|].
    intros sys' H1 H2 H3 H4. rewrite (Hsame sys' H1 H2 H3 H4). exact Hr.
Qed.


Lemma write_buffer_to_tempfile_outcomes_witness :
  buffer_wf Tempfiles.filled /\
  fst (fst (write_buffer_to_tempfile Tempfiles.calls Tempfiles.nothing
              (Some Tempfiles.filled) true true)) = 0 /\
  snd (fst (write_buffer_to_tempfile Tempfiles.calls Tempfiles.nothing
              (Some Tempfiles.filled) true true))
      (cstr "/tmp/rar2fs_nested_a1B2c3")
  = Some (buf_data Tempfiles.filled).
Proof.
  assert (Hwf : buffer_wf Tempfiles.filled).
  { unfold buffer_wf, ONE_GIB. vm_compute. split; [reflexivity|].
    split; discriminate. }
  assert (Hfresh : forall name,
            mkstemp_name Tempfiles.calls = Some name ->
            Tempfiles.nothing name = None) by reflexivity.
  assert (Herrno : mkstemp_name Tempfiles.calls = None ->
                   0 < mkstemp_errno Tempfiles.calls <= INT_MAX)
    by discriminate.
  destruct (write_buffer_to_tempfile_outcomes Tempfiles.calls
              Tempfiles.nothing Tempfiles.filled true true Hwf Hfresh Herrno)
    as (Hzero & Hfile & _).
  assert (Hok : fst (fst (write_buffer_to_tempfile Tempfiles.calls
                            Tempfiles.nothing (Some Tempfiles.filled)
                            true true)) = 0).
  { apply Hzero. repeat split; try reflexivity; discriminate. }
  split; [exact Hwf|]. split; [exact Hok|].
  destruct (Hfile Hok) as (name & Hname & _ & Hcontent).
  inversion Hname; subst name. exact Hcontent.
Defined.
